(** * Foragerr: watchlist reconciliation and search admission

    A shallow embedding of the reconciliation and search-admission engine
    (main.py, scheduled_upgrader.py, search_conditions.py, database.py,
    plex_api.py, radarr_api.py, watchlist-scheduler.py) and the properties
    the specification states about it.

    Conventions.
    - Python dictionaries that flow between the layers (watchlist items,
      Radarr records, payloads) are one record type [movie] whose fields are
      options: [None] is a missing key (what [dict.get] turns into [None]).
    - Text is ASCII: [str.strip] and [str.lower] act on the ASCII range.
    - Instants are integers, microseconds counted from [datetime.min].
    - Every outbound Radarr call is answered by the environment [env], a
      function of the calls issued so far; the calls are recorded in the
      world's trace.
    - The job lock runs against the part of the kernel it touches: the
      lock directory, modification times and the [flock] table. Processes
      take one system call at a time, in the order a schedule gives. *)

From Stdlib Require Import ZArith QArith Lia Bool Ascii Sorted.
From stdpp Require Import base option list strings pretty gmap sets.

Open Scope Z_scope.

(** ** Python built-ins used by the sources *)

Module py.

(** Scalars that reach [str(...)] and truth tests. *)
Inductive pyval :=
| PNone
| PBool (b : bool)
| PInt (z : Z)
| PStr (s : string).

#[global] Instance pyval_eq_dec : EqDecision pyval.
Proof. solve_decision. Defined.

(** [str(v)] *)
Definition str (v : pyval) : string :=
  match v with
  | PNone => "None"
  | PBool true => "True"
  | PBool false => "False"
  | PInt z => pretty z
  | PStr s => s
  end.

(** [bool(v)]: the truth value the [if] statements test. *)
Definition truthy (v : pyval) : bool :=
  match v with
  | PNone => false
  | PBool b => b
  | PInt z => negb (z =? 0)
  | PStr s => negb (String.eqb s "")
  end.

(** [d.get(k)]: a missing key reads as [None]. *)
Definition get (o : option pyval) : pyval := default PNone o.

(** [x or ""] on an optional string. *)
Definition or_empty (o : option string) : string := default "" o.

Definition nonempty (s : string) : bool := negb (String.eqb s "").

(** Characters [str.strip] removes (ASCII): tab, LF, VT, FF, CR, the
    separators 0x1c-0x1f and space. *)
Definition isspace (a : ascii) : bool :=
  let n := nat_of_ascii a in
  ((9 <=? n)%nat && (n <=? 13)%nat) || ((28 <=? n)%nat && (n <=? 32)%nat).

Fixpoint lstrip (s : string) : string :=
  match s with
  | EmptyString => EmptyString
  | String a s' => if isspace a then lstrip s' else s
  end.

Definition rstrip (s : string) : string := String.rev (lstrip (String.rev s)).

(** [s.strip()] *)
Definition strip (s : string) : string := rstrip (lstrip s).

Definition lower_ascii (a : ascii) : ascii :=
  let n := nat_of_ascii a in
  if ((65 <=? n)%nat && (n <=? 90)%nat) then ascii_of_nat (n + 32) else a.

(** [s.lower()] *)
Fixpoint lower (s : string) : string :=
  match s with
  | EmptyString => EmptyString
  | String a s' => String (lower_ascii a) (lower s')
  end.

(** [s.split('/')] *)
Fixpoint split_go (sep : ascii) (cur : string) (s : string) : list string :=
  match s with
  | EmptyString => [String.rev cur]
  | String a s' =>
      if decide (a = sep) then String.rev cur :: split_go sep EmptyString s'
      else split_go sep (String a cur) s'
  end.

Definition split (sep : ascii) (s : string) : list string :=
  split_go sep EmptyString s.

(** [sep.join(parts)] *)
Fixpoint join (sep : string) (parts : list string) : string :=
  match parts with
  | [] => ""
  | [p] => p
  | p :: ps => p +:+ sep +:+ join sep ps
  end.

(** [int(s)] on ASCII text: surrounding blanks, an optional sign, then
    decimal digits which single underscores may separate. Anything else
    raises [ValueError] ([None]). *)
Fixpoint digits (acc : Z) (after_digit : bool) (s : string) : option Z :=
  match s with
  | EmptyString => if after_digit then Some acc else None
  | String a s' =>
      match Ascii.is_nat a with
      | Some d => digits (10 * acc + Z.of_nat d) true s'
      | None =>
          if bool_decide (a = "_"%char) && after_digit
          then match s' with
               | EmptyString => None
               | _ => digits acc false s'
               end
          else None
      end
  end.

Definition int (s : string) : option Z :=
  match strip s with
  | String "-" r => Z.opp <$> digits 0 false r
  | String "+" r => digits 0 false r
  | s' => digits 0 false s'
  end.

(** An insertion-ordered dictionary with string keys: assigning to a key
    that is present replaces its value in place, a new key goes last. *)
Section dict.
Context {V : Type}.

Fixpoint dict_get (k : string) (d : list (string * V)) : option V :=
  match d with
  | [] => None
  | (k', v) :: d' => if decide (k' = k) then Some v else dict_get k d'
  end.

Fixpoint dict_set (k : string) (v : V) (d : list (string * V))
  : list (string * V) :=
  match d with
  | [] => [(k, v)]
  | (k', v') :: d' =>
      if decide (k' = k) then (k, v) :: d' else (k', v') :: dict_set k v d'
  end.

Definition dict_mem (k : string) (d : list (string * V)) : bool :=
  bool_decide (is_Some (dict_get k d)).

Definition dict_keys (d : list (string * V)) : list string := d.*1.
Definition dict_values (d : list (string * V)) : list V := d.*2.
End dict.

End py.

Import py.

(** ** Records *)

(** [addOptions] of a Radarr record or payload. *)
Record AddOptions := { searchForMovie : option bool }.

#[global] Instance AddOptions_eq_dec : EqDecision AddOptions.
Proof. solve_decision. Defined.

(** A dictionary describing a movie: a watchlist item, a Radarr record or a
    payload, which the sources pass around interchangeably. *)
Record movie := {
  title : option string;
  year : option Z;
  ratingKey : option string;
  imdbId : option string;
  tmdbId : option pyval;
  plex_author_id : option string;
  id : option Z;
  sizeOnDisk : option Z;
  tags : option (list Z);
  monitored : option pyval;
  qualityProfileId : option pyval;
  rootFolderPath : option pyval;
  path : option pyval;
  minimumAvailability : option pyval;
  addOptions : option AddOptions
}.

#[global] Instance movie_eq_dec : EqDecision movie.
Proof. solve_decision. Defined.

Definition no_movie : movie :=
  {| title := None; year := None; ratingKey := None; imdbId := None;
     tmdbId := None; plex_author_id := None; id := None; sizeOnDisk := None;
     tags := None; monitored := None; qualityProfileId := None;
     rootFolderPath := None; path := None; minimumAvailability := None;
     addOptions := None |}.

(** ** plex_api.py *)

Module plex_api.

(** [(item.get("imdbId") or "").strip().lower()] *)
Definition normalized_imdb (item : movie) : string :=
  lower (strip (or_empty (imdbId item))).

(** The first loop of [merge_watchlists]. *)
Definition merge_personal (merged : list (string * movie)) (item : movie)
  : list (string * movie) :=
  let imdb := normalized_imdb item in
  let key := if nonempty imdb then imdb else or_empty (ratingKey item) in
  if nonempty key then dict_set key item merged else merged.

(** The second loop of [merge_watchlists]. *)
Definition merge_friend (merged : list (string * movie)) (item : movie)
  : list (string * movie) :=
  let imdb := normalized_imdb item in
  if nonempty imdb && negb (dict_mem imdb merged)
  then dict_set imdb item merged else merged.

Definition merged_dict (personal_list friends_list : list movie)
  : list (string * movie) :=
  foldl merge_friend (foldl merge_personal [] personal_list) friends_list.

Definition merge_watchlists (personal_list friends_list : list movie)
  : list movie :=
  dict_values (merged_dict personal_list friends_list).

End plex_api.

(** ** main.py: the payload differ *)

Module differ.

Definition keys_to_check : list (movie → option pyval) :=
  [monitored; qualityProfileId; rootFolderPath; path; minimumAvailability].

(** [set(m.get("tags", []))] *)
Definition tag_set (m : movie) : gset Z := list_to_set (default [] (tags m)).

(** [m.get("addOptions", {}).get("searchForMovie")] *)
Definition search_option (m : movie) : option bool :=
  ao ← addOptions m; searchForMovie ao.

Definition needs_update (current_movie new_payload : movie) : bool :=
  if existsb (λ key, negb (String.eqb (str (get (key current_movie)))
                                       (str (get (key new_payload)))))
             keys_to_check then true
  else if negb (bool_decide (tag_set current_movie = tag_set new_payload))
  then true
  else if negb (bool_decide (search_option current_movie
                             = search_option new_payload))
  then true
  else false.

End differ.

(** ** database.py: the identity cache *)

Module database.

(** The text of a timestamp column, by what [datetime.fromisoformat]
    makes of it: [IsoText t] is the text [isoformat()] writes for the
    instant [t]; [NotIso] is a non-empty text on which the parse raises.
    An empty or NULL column is [None]. (A text with a UTC offset parses
    and is neither: the code writes none, and the model leaves it
    out.) *)
Inductive iso_text :=
| IsoText (t : Z)
| NotIso.

#[global] Instance iso_text_eq_dec : EqDecision iso_text.
Proof. solve_decision. Defined.

(** A row of [plex_metadata]; the table is the list of its rows in
    rowid order, which is the order [fetchone] picks from. *)
Record row := {
  rating_key : option string;
  imdb_id : option string;
  tmdb_id : option string;
  row_title : string;
  row_year : Z;
  last_radarr_search : option iso_text;
  last_processed : option iso_text
}.

#[global] Instance row_eq_dec : EqDecision row.
Proof. solve_decision. Defined.

(** [column = ?] for a bound text parameter; an unbound parameter adds no
    condition, a NULL column matches nothing. *)
Definition col_eq (col param : option string) : bool :=
  match col, param with
  | Some c, Some p => String.eqb c p
  | _, _ => false
  end.

(** The WHERE clause built from whichever identifiers are supplied. *)
Definition matches (rk imdb tmdb : option string) (r : row) : bool :=
  col_eq (rating_key r) rk || col_eq (imdb_id r) imdb
  || col_eq (tmdb_id r) tmdb.

(** [if x: x = str(x).strip()], then the truth test on the result. *)
Definition clean (o : option string) : option string :=
  match o with
  | Some s => if nonempty s && nonempty (strip s) then Some (strip s) else None
  | None => None
  end.

Definition get_plex_metadata (rk imdb tmdb : option string) (db : list row)
  : option row :=
  let rk := clean rk in
  let imdb := clean imdb in
  let tmdb := clean tmdb in
  match rk, imdb, tmdb with
  | None, None, None => None
  | _, _, _ => List.find (matches rk imdb tmdb) db
  end.

(** [x.get(k) or None] on a text field. *)
Definition or_none (o : option string) : option string :=
  match o with
  | Some s => if nonempty s then Some s else None
  | None => None
  end.

(** [str(tmdb_id) if tmdb_id is not None and tmdb_id != "" else None] *)
Definition tmdb_text (o : option pyval) : option string :=
  match o with
  | None | Some PNone => None
  | Some (PStr s) => if nonempty s then Some s else None
  | Some v => Some (str v)
  end.

Definition title_of (m : movie) : string :=
  match or_none (title m) with Some t => t | None => "Unknown" end.

Definition year_of (m : movie) : Z := default 0 (year m).

(** Rewrite the first row that satisfies [p]. *)
Fixpoint update_first (p : row → bool) (f : row → row) (db : list row)
  : list row :=
  match db with
  | [] => []
  | r :: db' => if p r then f r :: db' else r :: update_first p f db'
  end.

(** INSERT ... ON CONFLICT(rating_key) DO UPDATE: the timestamps are
    left alone. *)
Definition save_plex_metadata (movie_data : movie) (db : list row)
  : list row :=
  let rk := or_none (ratingKey movie_data) in
  let imdb := or_none (imdbId movie_data) in
  let tmdb := tmdb_text (tmdbId movie_data) in
  let conflict r := col_eq (rating_key r) rk in
  if existsb conflict db then
    update_first conflict
      (λ r, {| rating_key := rating_key r; imdb_id := imdb; tmdb_id := tmdb;
               row_title := title_of movie_data;
               row_year := year_of movie_data;
               last_radarr_search := last_radarr_search r;
               last_processed := last_processed r |}) db
  else
    db ++ [ {| rating_key := rk; imdb_id := imdb; tmdb_id := tmdb;
               row_title := title_of movie_data;
               row_year := year_of movie_data;
               last_radarr_search := None; last_processed := None |} ].

(** [mark_movie_as_searched] at the instant [timestamp]. *)
Definition mark_movie_as_searched (timestamp : Z) (m : movie)
    (db : list row) : list row :=
  let rk := or_none (ratingKey m) in
  let imdb := or_none (imdbId m) in
  let tmdb := tmdb_text (tmdbId m) in
  if existsb (matches rk imdb tmdb) db then
    update_first (matches rk imdb tmdb)
      (λ r, {| rating_key := rating_key r; imdb_id := imdb; tmdb_id := tmdb;
               row_title := title_of m; row_year := year_of m;
               last_radarr_search := Some (IsoText timestamp);
               last_processed := last_processed r |}) db
  else
    db ++ [ {| rating_key := rk; imdb_id := imdb; tmdb_id := tmdb;
               row_title := title_of m; row_year := year_of m;
               last_radarr_search := Some (IsoText timestamp);
               last_processed := None |} ].

(** [mark_movie_as_processed] at the instant [timestamp]. *)
Definition mark_movie_as_processed (timestamp : Z) (m : movie)
    (db : list row) : list row :=
  let rk := or_none (ratingKey m) in
  let imdb := or_none (imdbId m) in
  let tmdb := tmdb_text (tmdbId m) in
  if existsb (matches rk imdb tmdb) db then
    update_first (matches rk imdb tmdb)
      (λ r, {| rating_key := rating_key r; imdb_id := imdb; tmdb_id := tmdb;
               row_title := title_of m; row_year := year_of m;
               last_radarr_search := last_radarr_search r;
               last_processed := Some (IsoText timestamp) |}) db
  else
    db ++ [ {| rating_key := rk; imdb_id := imdb; tmdb_id := tmdb;
               row_title := title_of m; row_year := year_of m;
               last_radarr_search := None;
               last_processed := Some (IsoText timestamp) |} ].

End database.

(** ** search_conditions.py *)

Module search_conditions.
Import database.

Definition microseconds_per_day : Z := 86400 * 1000000.
Definition microseconds_per_hour : Z := 3600 * 1000000.

(** [(now - last_search).days]: [timedelta.days] is the floor. *)
Definition days_between (now last_search : Z) : Z :=
  (now - last_search) / microseconds_per_day.

(** [str(movie.get('tmdbId', ''))] *)
Definition tmdb_str (m : movie) : string :=
  match tmdbId m with Some v => str v | None => "" end.

(** The cache lookup of [should_trigger_search]: rating key first, then
    IMDb id, then TMDB id. *)
Definition lookup (m : movie) (db : list row) : option row :=
  let rating_key := or_empty (ratingKey m) in
  let imdb_id := or_empty (imdbId m) in
  let tmdb_id := tmdb_str m in
  if nonempty rating_key then get_plex_metadata (Some rating_key) None None db
  else if nonempty imdb_id then get_plex_metadata None (Some imdb_id) None db
  else if nonempty tmdb_id then get_plex_metadata None None (Some tmdb_id) db
  else None.

Definition should_trigger_search (now : Z) (db : list row) (m : movie)
  : bool :=
  match lookup m db with
  | None => true
  | Some db_movie =>
      match last_radarr_search db_movie with
      | None => true
      | Some (IsoText last_search) => 7 <=? days_between now last_search
      | Some NotIso => true
      end
  end.

(** The counter file: [None] is a missing or unreadable file,
    [Some (date, count)] the JSON object; dates are day numbers. *)
Definition date_of (now : Z) : Z := now / microseconds_per_day.

Definition read_daily_search_count (today : Z) (file : option (Z * Z)) : Z :=
  match file with
  | None => 0
  | Some (date, count) => if date =? today then count else 0
  end.

End search_conditions.

(** ** The world the jobs run in *)

(** A tag of the Radarr registry. *)
Record tag := { tag_id : Z; label : string }.

(** Calls issued to Radarr through [_make_request] and [requests.put]. *)
Inductive call :=
| SystemStatus
| GetAllMovies
| AddMovie (payload : movie)
| PutMovie (movie_id : Z) (payload : movie)
| TriggerSearch (movie_id : Z)
| GetAllTags
| CreateTag (tag_name : string).

(** A call together with whether it was answered usefully. *)
Definition exchange : Type := call * bool.

(** What lies outside the process. Each answer may depend on the exchanges
    so far; [None] and [false] are failed requests (a timeout, a
    connection or HTTP error, an answer that is empty). *)
Record env := {
  (** time that passes before the n-th reading of the clock *)
  elapse : nat → N;
  (** GET /api/v3/system/status *)
  system_status : list exchange → bool;
  (** GET /api/v3/movie *)
  all_movies : list exchange → option (list movie);
  (** POST /api/v3/movie *)
  added_movie : list exchange → movie → option movie;
  (** PUT /api/v3/movie/id *)
  put_movie : list exchange → Z → movie → bool;
  (** POST /api/v3/command *)
  search_command : list exchange → Z → bool;
  (** GET /api/v3/tag *)
  all_tags : list exchange → option (list tag);
  (** POST /api/v3/tag *)
  created_tag : list exchange → string → option tag;
  (** the watchlists Step 1 of the sync fetches, and the cache as those
      fetches leave it (they save the metadata of items they see) *)
  personal_watchlist : list movie;
  friends_watchlist : list movie;
  fetch_writes : list database.row → list database.row;
  (** the id-to-name mapping fetched from Jellyseerr *)
  user_mapping : gmap string string
}.

(** Process and file state. [counter_log] lists every object written to
    the counter file and [trace] every exchange with Radarr, oldest
    first. *)
Record world := {
  db : list database.row;
  counter_file : option (Z * Z);
  counter_log : list (Z * Z);
  clock : Z;
  clock_reads : nat;
  tag_cache : option (gmap string Z);
  trace : list exchange
}.

(** Configuration read from config.yaml. *)
Record config := {
  root_folder : string;
  default_quality_profile : Z;
  watchlist_tag_id : Z;
  plex_upgrade_tag : Z;
  min_file_size_gb : Q;
  max_daily_searches : option Z;
  searches_per_run : option Z;
  user_tagging_enabled : bool;
  tag_prefix : string;
  default_tag_name : string;
  manual_mappings : gmap string string
}.

(** State with exceptions: [None] is an exception on its way out. *)
Module run.

Definition M (A : Type) : Type := world → option A * world.

Definition ret {A} (a : A) : M A := λ w, (Some a, w).

Definition bind {A B} (m : M A) (k : A → M B) : M B :=
  λ w, match m w with
       | (Some a, w') => k a w'
       | (None, w') => (None, w')
       end.

Definition raise {A} : M A := λ w, (None, w).

(** [try: body except Exception: log] *)
Definition catch (body : M unit) : M unit :=
  λ w, (Some tt, (body w).2).

(** [d[k]]: a missing key raises [KeyError]. *)
Definition item {A} (o : option A) : M A :=
  match o with Some a => ret a | None => raise end.

Definition with_db (f : list database.row → list database.row) : M unit :=
  λ w, (Some tt,
        {| db := f (db w); counter_file := counter_file w;
           counter_log := counter_log w; clock := clock w;
           clock_reads := clock_reads w; tag_cache := tag_cache w;
           trace := trace w |}).

Definition read_db {A} (f : list database.row → A) : M A :=
  λ w, (Some (f (db w)), w).

(** [json.dump({"date": date, "count": count}, f)] *)
Definition write_counter (date count : Z) : M unit :=
  λ w, (Some tt,
        {| db := db w; counter_file := Some (date, count);
           counter_log := counter_log w ++ [(date, count)];
           clock := clock w; clock_reads := clock_reads w;
           tag_cache := tag_cache w; trace := trace w |}).

Definition read_counter : M (option (Z * Z)) :=
  λ w, (Some (counter_file w), w).

Definition set_tag_cache (c : option (gmap string Z)) : M unit :=
  λ w, (Some tt,
        {| db := db w; counter_file := counter_file w;
           counter_log := counter_log w; clock := clock w;
           clock_reads := clock_reads w; tag_cache := c;
           trace := trace w |}).

Definition get_tag_cache : M (option (gmap string Z)) :=
  λ w, (Some (tag_cache w), w).

(** [datetime.now()]: the clock never runs backwards. *)
Definition now (e : env) : M Z :=
  λ w, let t := clock w + Z.of_N (elapse e (clock_reads w)) in
       (Some t,
        {| db := db w; counter_file := counter_file w;
           counter_log := counter_log w; clock := t;
           clock_reads := S (clock_reads w); tag_cache := tag_cache w;
           trace := trace w |}).

(** Issue [c], take the environment's answer to it and record whether
    the answer was a usable one. *)
Definition request {A} (c : call) (answer : list exchange → A)
    (usable : A → bool) : M A :=
  λ w, let a := answer (trace w) in
       (Some a,
        {| db := db w; counter_file := counter_file w;
           counter_log := counter_log w; clock := clock w;
           clock_reads := clock_reads w; tag_cache := tag_cache w;
           trace := trace w ++ [(c, usable a)] |}).

(** [for x in l: body], threading the loop's local variables. *)
Fixpoint for_each {X S} (body : X → S → M S) (l : list X) (s : S) : M S :=
  match l with
  | [] => ret s
  | x :: l' => bind (body x s) (for_each body l')
  end.

End run.

Declare Scope run_scope.
Delimit Scope run_scope with run.
Bind Scope run_scope with run.M.
Notation "'let*' x := m 'in' k" := (run.bind m (λ x, k))
  (at level 10, x name, m at level 100, k at level 200) : run_scope.
Notation "m ;; k" := (run.bind m (λ _, k))
  (at level 100, right associativity) : run_scope.
Open Scope run_scope.

(** ** radarr_api.py *)

Module radarr_api.
Import run.

Definition is_Some_bool {A} (o : option A) : bool :=
  if o is Some _ then true else false.

Section with_env.
Variable e : env.

Definition test_connection : M bool :=
  request SystemStatus (system_status e) (λ ok, ok).

(** [get_all_movies]: a failed request reads as an empty library. *)
Definition get_all_movies : M (list movie) :=
  let* movies := request GetAllMovies (all_movies e) is_Some_bool in
  ret (default [] movies).

Definition add_movie (payload : movie) : M (option movie) :=
  request (AddMovie payload) (λ h, added_movie e h payload) is_Some_bool.

Definition update_movie (movie_id : Z) (payload : movie) : M bool :=
  request (PutMovie movie_id payload)
          (λ h, put_movie e h movie_id payload) (λ ok, ok).

Definition trigger_search (movie_id : Z) : M bool :=
  request (TriggerSearch movie_id) (λ h, search_command e h movie_id)
          (λ ok, ok).

(** [movie.get("imdbId", "").strip().lower()] *)
Definition index_key (m : movie) : string :=
  lower (strip (or_empty (imdbId m))).

Definition index_movie (index : list (string * movie)) (m : movie)
  : list (string * movie) :=
  let imdb := index_key m in
  if nonempty imdb then dict_set imdb m index else index.

Definition build_radarr_index : M (list (string * movie)) :=
  let* movies := get_all_movies in
  ret (foldl index_movie [] movies).

(** [{tag["label"].lower(): tag["id"] for tag in result}] *)
Definition cache_of (result : list tag) : gmap string Z :=
  foldl (λ c t, <[lower (label t) := tag_id t]> c) ∅ result.

Definition get_all_tags : M (list tag) :=
  let* result := request GetAllTags (all_tags e) is_Some_bool in
  match result with
  | Some tags => set_tag_cache (Some (cache_of tags)) ;; ret tags
  | None => ret []
  end.

Definition create_tag (tag_name : string) : M (option tag) :=
  let* result := request (CreateTag tag_name)
                         (λ h, created_tag e h tag_name) is_Some_bool in
  match result with
  | Some t =>
      let* cache := get_tag_cache in
      match cache with
      | Some c => set_tag_cache (Some (<[lower tag_name := tag_id t]> c))
      | None => ret tt
      end ;;
      ret (Some t)
  | None => ret None
  end.

(** [_tag_cache and tag_name_lower in _tag_cache], then the entry. *)
Definition cached_id (cache : option (gmap string Z)) (k : string)
  : option Z :=
  match cache with
  | Some c => if bool_decide (c = ∅) then None else c !! k
  | None => None
  end.

Definition get_or_create_tag (tag_name : string) : M (option Z) :=
  let* cache := get_tag_cache in
  (if cache is None then get_all_tags ;; ret tt else ret tt) ;;
  let tag_name_lower := lower tag_name in
  let* cache := get_tag_cache in
  match cached_id cache tag_name_lower with
  | Some i => ret (Some i)
  | None =>
      let* result := create_tag tag_name in
      ret (tag_id <$> result)
  end.

End with_env.
End radarr_api.

(** ** jellyseerr_api.py *)

Module jellyseerr_api.

Definition get_username_for_plex_id (plex_id : string)
    (user_mapping manual_mappings : gmap string string)
    (default_name : string) : string :=
  if negb (nonempty plex_id) then default_name
  else match manual_mappings !! plex_id with
       | Some name => name
       | None => default default_name (user_mapping !! plex_id)
       end.

End jellyseerr_api.

(** ** The daily counter and the cache, as effects *)

Module effects.
Import run search_conditions.

Section with_env.
Variable e : env.

(** [read_daily_search_count(file_path)] *)
Definition read_daily_search_count : M Z :=
  let* t := now e in
  let* file := read_counter in
  ret (search_conditions.read_daily_search_count (date_of t) file).

(** [increment_daily_search_count(file_path)]: today's date is taken
    before the count is read. *)
Definition increment_daily_search_count : M Z :=
  let* t := now e in
  let* count := read_daily_search_count in
  write_counter (date_of t) (count + 1) ;;
  ret (count + 1).

(** [save_daily_search_count(file_path, count)] *)
Definition save_daily_search_count (count : Z) : M unit :=
  let* t := now e in
  write_counter (date_of t) count.

Definition mark_movie_as_searched (m : movie) : M unit :=
  let* t := now e in with_db (database.mark_movie_as_searched t m).

Definition mark_movie_as_processed (m : movie) : M unit :=
  let* t := now e in with_db (database.mark_movie_as_processed t m).

End with_env.
End effects.

(** The two counters a job carries through its loop. *)
Record counters := {
  run_search_count : Z;
  daily_search_count : Z
}.

Definition searched (c : counters) : counters :=
  {| run_search_count := run_search_count c + 1;
     daily_search_count := daily_search_count c + 1 |}.

(** [limit is not None and count >= limit] *)
Definition reached (limit : option Z) (count : Z) : bool :=
  match limit with
  | Some l => l <=? count
  | None => false
  end.

Definition Qltb (a b : Q) : bool := negb (Qle_bool b a).

Definition bytes_per_gb : Z := 1024 ^ 3.

(** ** main.py: the watchlist sync *)

Module main.
Import run database.

Section with_config.
Variable cfg : config.
Variable e : env.

Definition set_rootFolderPath (v : pyval) (m : movie) : movie :=
  {| title := title m; year := year m; ratingKey := ratingKey m;
     imdbId := imdbId m; tmdbId := tmdbId m;
     plex_author_id := plex_author_id m; id := id m;
     sizeOnDisk := sizeOnDisk m; tags := tags m; monitored := monitored m;
     qualityProfileId := qualityProfileId m; rootFolderPath := Some v;
     path := path m; minimumAvailability := minimumAvailability m;
     addOptions := addOptions m |}.

(** Index of the first part after the leading one that reads "movies". *)
Fixpoint movies_part (i : nat) (parts : list string) : option nat :=
  match parts with
  | [] => None
  | part :: parts' =>
      if String.eqb (lower part) "movies" && (0 <? i)%nat then Some i
      else movies_part (S i) parts'
  end.

(** [fix_paths_for_radarr]; [None] when [path] is neither empty nor a
    string ([split] raises). *)
Definition fix_paths_for_radarr (m : movie) : option movie :=
  match default (PStr "") (path m) with
  | PStr p =>
      if negb (nonempty p) then
        Some (set_rootFolderPath (PStr (root_folder cfg)) m)
      else
        let parts := split "/" p in
        match movies_part 0 parts with
        | Some i =>
            Some (set_rootFolderPath
                    (PStr (join "/" (take (S i) parts) +:+ "/")) m)
        | None => Some (set_rootFolderPath (PStr (root_folder cfg)) m)
        end
  | v => if truthy v then None
         else Some (set_rootFolderPath (PStr (root_folder cfg)) m)
  end.

(** [str(movie.get("tmdbId", "")).strip() if movie.get("tmdbId") else ""] *)
Definition tmdb_of (m : movie) : string :=
  if truthy (get (tmdbId m)) then strip (str (get (tmdbId m))) else "".

Definition imdb_of (m : movie) : string :=
  lower (strip (or_empty (imdbId m))).

(** The attribution tag of an item that came from a friend. *)
Definition friend_tag (m : movie) : M (option Z) :=
  if user_tagging_enabled cfg && nonempty (or_empty (plex_author_id m)) then
    let username :=
      jellyseerr_api.get_username_for_plex_id
        (or_empty (plex_author_id m)) (user_mapping e)
        (manual_mappings cfg) (default_tag_name cfg) in
    radarr_api.get_or_create_tag e (tag_prefix cfg +:+ username)
  else ret None.

(** [str(m.get("tmdbId", "")).strip() == tmdb_id] *)
Definition same_tmdb (tmdb_id : string) (m : movie) : bool :=
  String.eqb (strip (match tmdbId m with Some v => str v | None => "" end))
             tmdb_id.

(** Find the movie in the index by IMDb id, else by TMDB id. *)
Definition resolve (radarr_index : list (string * movie)) (m : movie)
  : option movie :=
  let imdb_id := imdb_of m in
  let tmdb_id := tmdb_of m in
  if nonempty imdb_id then dict_get imdb_id radarr_index
  else if nonempty tmdb_id
       then List.find (same_tmdb tmdb_id) (dict_values radarr_index)
       else None.

(** [if friend_tag_id: ...]: an id of 0 is not a tag. *)
Definition tag_given (friend_tag_id : option Z) : option Z :=
  match friend_tag_id with
  | Some i => if i =? 0 then None else Some i
  | None => None
  end.

Definition add_payload (m : movie) (tmdb_id_int : Z)
    (friend_tag_id : option Z) : movie :=
  {| title := title m; year := None; ratingKey := None; imdbId := None;
     tmdbId := Some (PInt tmdb_id_int); plex_author_id := None;
     id := None; sizeOnDisk := None;
     tags := Some ([watchlist_tag_id cfg; plex_upgrade_tag cfg]
                   ++ match tag_given friend_tag_id with
                      | Some i => [i]
                      | None => []
                      end);
     monitored := Some (PBool true);
     qualityProfileId := Some (PInt (default_quality_profile cfg));
     rootFolderPath := Some (PStr (root_folder cfg));
     path := None;
     minimumAvailability := Some (PStr "announced");
     addOptions := Some {| searchForMovie := Some false |} |}.

(** [size_bytes / (1024 ** 3) if size_bytes else 0] *)
Definition movie_size_gb (size_bytes : Z) : Q :=
  if size_bytes =? 0 then 0%Q
  else (inject_Z size_bytes / inject_Z bytes_per_gb)%Q.

Definition eligible_for_upgrade (radarr_movie : movie) : bool :=
  Qltb (movie_size_gb (default 0 (sizeOnDisk radarr_movie)))
       (min_file_size_gb cfg).

(** The tags of the update payload. [list(set(...))] keeps each tag
    once; its order is not specified by Python and is taken here as
    the order of first occurrence. *)
Definition payload_tags (radarr_movie : movie) (friend_tag_id : option Z)
  : list Z :=
  let tags1 :=
    remove_dups (default [] (tags radarr_movie) ++ [watchlist_tag_id cfg]) in
  let tags2 :=
    if eligible_for_upgrade radarr_movie
    then remove_dups (tags1 ++ [plex_upgrade_tag cfg])
    else List.filter (λ t, negb (t =? plex_upgrade_tag cfg)) tags1 in
  match tag_given friend_tag_id with
  | Some i => if bool_decide (i ∈ tags2) then tags2 else tags2 ++ [i]
  | None => tags2
  end.

Definition update_payload (m radarr_movie : movie) (movie_id : Z)
    (movie_title : string) (friend_tag_id : option Z) : movie :=
  let imdb_id := imdb_of m in
  let tmdb_id := tmdb_of m in
  {| title := Some movie_title; year := None; ratingKey := None;
     imdbId := if nonempty imdb_id then Some imdb_id else None;
     tmdbId := if nonempty tmdb_id then Some (PStr tmdb_id) else None;
     plex_author_id := None;
     id := Some movie_id; sizeOnDisk := None;
     tags := Some (payload_tags radarr_movie friend_tag_id);
     monitored := Some (default (PBool true) (monitored radarr_movie));
     qualityProfileId :=
       Some (default (PInt (default_quality_profile cfg))
                     (qualityProfileId radarr_movie));
     rootFolderPath :=
       Some (default (PStr (root_folder cfg)) (rootFolderPath radarr_movie));
     path := Some (default (PStr "") (path radarr_movie));
     minimumAvailability :=
       Some (default (PStr "released") (minimumAvailability radarr_movie));
     addOptions := Some {| searchForMovie := Some false |} |}.

(** The cache record the sync consults before a search: by IMDb id,
    else TMDB id, else rating key. *)
Definition searched_before_record (m : movie) (db : list row)
  : option row :=
  let imdb_id := imdb_of m in
  let tmdb_id := tmdb_of m in
  if nonempty imdb_id then get_plex_metadata None (Some imdb_id) None db
  else if nonempty tmdb_id then get_plex_metadata None None (Some tmdb_id) db
  else if nonempty (or_empty (ratingKey m))
       then get_plex_metadata (ratingKey m) None None db
       else None.

(** [db_movie and db_movie.get("last_radarr_search")] *)
Definition searched_before (m : movie) (db : list row) : bool :=
  match searched_before_record m db with
  | Some db_movie => bool_decide (is_Some (last_radarr_search db_movie))
  | None => false
  end.

Definition limit_reached (c : counters) : bool :=
  reached (max_daily_searches cfg) (daily_search_count c)
  || reached (searches_per_run cfg) (run_search_count c).

(** A successful trigger: record it and count it. *)
Definition record_search (marked : movie) (c : counters) : M counters :=
  effects.mark_movie_as_searched e marked ;;
  effects.increment_daily_search_count e ;;
  ret (searched c).

(** Trigger the search; when Radarr takes it, record and count it. *)
Definition search_and_record (marked : movie) (movie_id : Z) (c : counters)
  : M counters :=
  let* search_result := radarr_api.trigger_search e movie_id in
  if search_result then record_search marked c else ret c.

(** The branch for a movie that is not in Radarr. *)
Definition handle_new (dry_run : bool) (m : movie)
    (friend_tag_id : option Z) (c : counters) : M counters :=
  let tmdb_id := tmdb_of m in
  if negb (nonempty tmdb_id) then ret c
  else match int tmdb_id with
       | None => ret c
       | Some tmdb_id_int =>
           if dry_run then ret c
           else
             let* add_result :=
               radarr_api.add_movie e
                 (add_payload m tmdb_id_int friend_tag_id) in
             match add_result with
             | None => ret c
             | Some added =>
                 effects.mark_movie_as_processed e added ;;
                 if limit_reached c then ret c
                 else
                   let* added_id := item (id added) in
                   search_and_record added added_id c
             end
       end.

(** "Only update if payload differs from current movie" *)
Definition update_existing (dry_run : bool) (radarr_movie : movie)
    (movie_id : Z) (payload : movie) : M unit :=
  if negb dry_run && differ.needs_update radarr_movie payload then
    let* result := radarr_api.update_movie e movie_id payload in
    if result then effects.mark_movie_as_processed e radarr_movie
    else ret tt
  else ret tt.

(** "Trigger search if eligible and within limits", for a movie that
    has never been searched. *)
Definition search_existing (dry_run eligible : bool) (m : movie)
    (movie_id : Z) (c : counters) : M counters :=
  if negb dry_run && eligible then
    let* before := read_db (searched_before m) in
    if before then ret c
    else if limit_reached c then ret c
    else search_and_record m movie_id c
  else ret c.

(** The branch for a movie found in Radarr without the watchlist tag. *)
Definition handle_existing (dry_run : bool) (m radarr_movie : movie)
    (friend_tag_id : option Z) (c : counters) : M counters :=
  let* movie_title := item (title radarr_movie) in
  let eligible := eligible_for_upgrade radarr_movie in
  let* movie_id := item (id radarr_movie) in
  let* payload :=
    item (fix_paths_for_radarr
            (update_payload m radarr_movie movie_id movie_title
                            friend_tag_id)) in
  update_existing dry_run radarr_movie movie_id payload ;;
  search_existing dry_run eligible m movie_id c.

(** The body of the loop of Step 5. *)
Definition process_movie (dry_run : bool)
    (radarr_index : list (string * movie)) (m : movie) (c : counters)
  : M counters :=
  with_db (save_plex_metadata m) ;;
  let* friend_tag_id := friend_tag m in
  match resolve radarr_index m with
  | Some radarr_movie =>
      if bool_decide (watchlist_tag_id cfg ∈ default [] (tags radarr_movie))
      then item (title radarr_movie) ;; ret c
      else handle_existing dry_run m radarr_movie friend_tag_id c
  | None => handle_new dry_run m friend_tag_id c
  end.

Definition process_watchlist (dry_run : bool) : M unit :=
  let* connected := radarr_api.test_connection e in
  if negb connected then ret tt
  else
    with_db (fetch_writes e) ;;
    let combined_list :=
      plex_api.merge_watchlists (personal_watchlist e)
                                (friends_watchlist e) in
    let* radarr_index := radarr_api.build_radarr_index e in
    let* daily := effects.read_daily_search_count e in
    let* c := for_each (process_movie dry_run radarr_index) combined_list
                {| run_search_count := 0; daily_search_count := daily |} in
    effects.save_daily_search_count e (daily_search_count c).

End with_config.
End main.

(** ** scheduled_upgrader.py: the upgrade sweep *)

Module scheduled_upgrader.
Import run database search_conditions.

(** [datetime.min], the origin of the instants. *)
Definition datetime_min : Z := 0.

(** A search candidate: the movie, its size and its last search. *)
Definition candidate : Type := movie * Z * Z.

(** Order on the sort key [(x[2], x[1])]. *)
Definition key_lt (a b : candidate) : bool :=
  let '(_, size_a, last_a) := a in
  let '(_, size_b, last_b) := b in
  (last_a <? last_b) || ((last_a =? last_b) && (size_a <? size_b)).

Fixpoint insert_after (x : candidate) (l : list candidate) : list candidate :=
  match l with
  | [] => [x]
  | y :: l' => if key_lt x y then x :: y :: l' else y :: insert_after x l'
  end.

(** [list.sort(key=...)]: stable, so equal keys keep their order. *)
Definition sort (l : list candidate) : list candidate :=
  foldl (λ acc x, insert_after x acc) [] l.

Section with_config.
Variable cfg : config.
Variable e : env.

Definition set_tags (new_tags : list Z) (m : movie) : movie :=
  {| title := title m; year := year m; ratingKey := ratingKey m;
     imdbId := imdbId m; tmdbId := tmdbId m;
     plex_author_id := plex_author_id m; id := id m;
     sizeOnDisk := sizeOnDisk m; tags := Some new_tags;
     monitored := monitored m; qualityProfileId := qualityProfileId m;
     rootFolderPath := rootFolderPath m; path := path m;
     minimumAvailability := minimumAvailability m;
     addOptions := addOptions m |}.

(** [remove_tag_from_movie]: PUT the record without the tag. *)
Definition remove_tag_from_movie (m : movie) (movie_id tag_id : Z) : M bool :=
  let new_tags :=
    List.filter (λ t, negb (t =? tag_id)) (default [] (tags m)) in
  radarr_api.update_movie e movie_id (set_tags new_tags m).

Definition has_upgrade_tag (m : movie) : bool :=
  bool_decide (plex_upgrade_tag cfg ∈ default [] (tags m)).

(** [min_size_gb * (1024 ** 3)] *)
Definition min_size_bytes : Q :=
  (min_file_size_gb cfg * inject_Z bytes_per_gb)%Q.

(** [size_bytes >= min_size_bytes] *)
Definition meets_threshold (m : movie) : bool :=
  Qle_bool min_size_bytes (inject_Z (default 0 (sizeOnDisk m))).

(** [movie.get("id")] when it passes the truth test. *)
Definition valid_id (m : movie) : option Z :=
  match id m with
  | Some i => if i =? 0 then None else Some i
  | None => None
  end.

(** Phase 1, for one movie: clear the tag when the size is met. *)
Definition clear_tag (dry_run : bool) (m : movie) (_ : unit) : M unit :=
  match valid_id m with
  | None => ret tt
  | Some movie_id =>
      if meets_threshold m && has_upgrade_tag m && negb dry_run then
        let* result :=
          remove_tag_from_movie m movie_id (plex_upgrade_tag cfg) in
        if result then effects.mark_movie_as_processed e m else ret tt
      else ret tt
  end.

(** The cache record of a Radarr movie: by TMDB id, else IMDb id. *)
Definition db_record (m : movie) (db : list row) : option row :=
  let tmdb_id := strip (tmdb_str m) in
  let imdb_id := strip (or_empty (imdbId m)) in
  match (if nonempty tmdb_id
         then get_plex_metadata None None (Some tmdb_id) db else None) with
  | Some r => Some r
  | None => if nonempty imdb_id
            then get_plex_metadata None (Some imdb_id) None db else None
  end.

(** The last search as the sweep reads it: [datetime.min] when there
    is none or when its text does not parse. *)
Definition last_search_time (m : movie) (db : list row) : Z :=
  match db_record m db with
  | Some r =>
      match last_radarr_search r with
      | Some (IsoText t) => t
      | Some NotIso => datetime_min
      | None => datetime_min
      end
  | None => datetime_min
  end.

(** [hours_since_last < 24]; the quotient by 3600 is taken on the
    microsecond count. *)
Definition searched_recently (now last : Z) : bool :=
  now - last <? 24 * microseconds_per_hour.

(** Phase 2, for one movie: keep it as a candidate or skip it. *)
Definition consider (m : movie) (acc : list candidate)
  : M (list candidate) :=
  match valid_id m with
  | None => ret acc
  | Some _ =>
      if meets_threshold m then ret acc
      else
        let* last := read_db (last_search_time m) in
        let* t := now e in
        if searched_recently t last then ret acc
        else ret (acc ++ [(m, default 0 (sizeOnDisk m), last)])
  end.

(** The search loop over the sorted candidates, [i] counting them. *)
Fixpoint search_loop (dry_run : bool) (per_run_search_limit : Z) (i : Z)
    (l : list candidate) (c : counters) : M counters :=
  match l with
  | [] => ret c
  | (m, _, _) :: l' =>
      if per_run_search_limit <=? i then ret c
      else if reached (max_daily_searches cfg) (daily_search_count c)
      then ret c
      else if dry_run then
        search_loop dry_run per_run_search_limit (i + 1) l'
          {| run_search_count := run_search_count c + 1;
             daily_search_count := daily_search_count c |}
      else
        let* c' := main.search_and_record e m (default 0 (id m)) c in
        search_loop dry_run per_run_search_limit (i + 1) l' c'
  end.

(** The body of [job_upgrade], inside its [try]. *)
Definition sweep (dry_run : bool) : M unit :=
  let* all_radarr_movies := radarr_api.get_all_movies e in
  let movies_from_radarr := List.filter has_upgrade_tag all_radarr_movies in
  match movies_from_radarr with
  | [] => ret tt
  | _ =>
      for_each (clear_tag dry_run) movies_from_radarr tt ;;
      let* daily := effects.read_daily_search_count e in
      let* found := for_each consider movies_from_radarr [] in
      let sorted := sort found in
      let search_candidates :=
        if reached (max_daily_searches cfg) daily then [] else sorted in
      let* per_run_search_limit := item (searches_per_run cfg) in
      let search_candidates :=
        if per_run_search_limit <=? 0 then [] else search_candidates in
      let* c := search_loop dry_run per_run_search_limit 0
                  search_candidates
                  {| run_search_count := 0;
                     daily_search_count := daily |} in
      effects.save_daily_search_count e (daily_search_count c)
  end.

Definition job_upgrade (dry_run : bool) : M unit := catch (sweep dry_run).

End with_config.
End scheduled_upgrader.

(** ** watchlist-scheduler.py: the job lock *)

Module watchlist_scheduler.

(** A Python file object on a lock file: its open file description and
    the inode it was opened on. *)
Record file_object := { description : nat; inode : nat }.

(** The part of the kernel the lock touches. [flock] locks belong to
    open file descriptions and sit on inodes; a directory entry names
    an inode. The text of a lock file is never read back and is left
    out; its modification time is kept. *)
Record kernel := {
  directory : gmap string nat;
  mtime : gmap nat Z;
  holder : gmap nat nat;
  next_inode : nat;
  next_description : nat;
  time : Z
}.

Inductive log_line :=
| LogAcquired
| LogStale
| LogAlreadyRunning
| LogNothing.

(** Where a process stands in a call of [with_job_lock]. *)
Inductive status :=
| Idle
| AtOpen (func_name : string)
| AtFlock (func_name : string) (fd : file_object)
| AtWrite (func_name : string) (fd : file_object)
| AtStore (func_name : string) (fd : file_object)
| AtClose (func_name : string) (fd : file_object)
| AtStat (func_name : string)
| Returned (result : bool) (line : log_line).

Record process := {
  active_locks : gmap string file_object;
  at_ : status
}.

Record system := {
  os : kernel;
  processes : gmap nat process
}.

Definition idle : process := {| active_locks := ∅; at_ := Idle |}.

Definition process_of (s : system) (p : nat) : process :=
  default idle (processes s !! p).

Definition set_process (p : nat) (pr : process) (k : kernel) (s : system)
  : system :=
  {| os := k; processes := <[p := pr]> (processes s) |}.

(** [open(lock_file, 'w')]: create the file or truncate it; either way
    its modification time becomes the present. *)
Definition open_w (func_name : string) (k : kernel) : file_object * kernel :=
  match directory k !! func_name with
  | Some i =>
      ({| description := next_description k; inode := i |},
       {| directory := directory k; mtime := <[i := time k]> (mtime k);
          holder := holder k; next_inode := next_inode k;
          next_description := S (next_description k); time := time k |})
  | None =>
      let i := next_inode k in
      ({| description := next_description k; inode := i |},
       {| directory := <[func_name := i]> (directory k);
          mtime := <[i := time k]> (mtime k);
          holder := holder k; next_inode := S i;
          next_description := S (next_description k); time := time k |})
  end.

(** [fcntl.flock(fd, LOCK_EX | LOCK_NB)]: [None] is the refusal. *)
Definition flock_ex_nb (fd : file_object) (k : kernel) : option kernel :=
  match holder k !! inode fd with
  | Some h => if decide (h = description fd) then Some k else None
  | None =>
      Some {| directory := directory k; mtime := mtime k;
              holder := <[inode fd := description fd]> (holder k);
              next_inode := next_inode k;
              next_description := next_description k; time := time k |}
  end.

(** [fcntl.flock(fd, LOCK_UN)], and what [fd.close()] does to the lock. *)
Definition unlock (fd : file_object) (k : kernel) : kernel :=
  match holder k !! inode fd with
  | Some h =>
      if decide (h = description fd) then
        {| directory := directory k; mtime := mtime k;
           holder := delete (inode fd) (holder k);
           next_inode := next_inode k;
           next_description := next_description k; time := time k |}
      else k
  | None => k
  end.

(** [fd.write(str(time.time())); fd.flush()] *)
Definition write_stamp (fd : file_object) (k : kernel) : kernel :=
  {| directory := directory k; mtime := <[inode fd := time k]> (mtime k);
     holder := holder k; next_inode := next_inode k;
     next_description := next_description k; time := time k |}.

(** [os.remove(lock_file)] when the file exists. *)
Definition remove (func_name : string) (k : kernel) : kernel :=
  {| directory := delete func_name (directory k); mtime := mtime k;
     holder := holder k; next_inode := next_inode k;
     next_description := next_description k; time := time k |}.

Definition pass_time (d : N) (k : kernel) : kernel :=
  {| directory := directory k; mtime := mtime k; holder := holder k;
     next_inode := next_inode k; next_description := next_description k;
     time := time k + Z.of_N d |}.

Section with_timeout.
(** [LOCK_TIMEOUT_SECONDS], in the unit of [time]. *)
Variable lock_timeout : Z.

(** The refusal branch: the age of the lock file decides the log line
    and nothing else. *)
Definition refusal_line (func_name : string) (k : kernel) : log_line :=
  match directory k !! func_name with
  | Some i =>
      let lock_age := time k - default 0 (mtime k !! i) in
      if lock_timeout <? lock_age then LogStale else LogAlreadyRunning
  | None => LogNothing
  end.

(** One system call (or the final bookkeeping) of the call of
    [with_job_lock] that process [p] is in. *)
Definition step (p : nat) (s : system) : system :=
  let pr := process_of s p in
  let k := os s in
  let at_next st k' :=
    set_process p {| active_locks := active_locks pr; at_ := st |} k' s in
  match at_ pr with
  | AtOpen func_name =>
      let '(fd, k') := open_w func_name k in
      at_next (AtFlock func_name fd) k'
  | AtFlock func_name fd =>
      match flock_ex_nb fd k with
      | Some k' => at_next (AtWrite func_name fd) k'
      | None => at_next (AtClose func_name fd) k
      end
  | AtWrite func_name fd => at_next (AtStore func_name fd) (write_stamp fd k)
  | AtStore func_name fd =>
      (* the file object an older entry held is dropped and closed *)
      let k' := match active_locks pr !! func_name with
                | Some old => unlock old k
                | None => k
                end in
      set_process p
        {| active_locks := <[func_name := fd]> (active_locks pr);
           at_ := Returned true LogAcquired |} k' s
  | AtClose func_name fd => at_next (AtStat func_name) (unlock fd k)
  | AtStat func_name =>
      at_next (Returned false (refusal_line func_name k)) k
  | Idle | Returned _ _ => s
  end.

(** Process [p] enters [with_job_lock(func_name)]. *)
Definition enter (p : nat) (func_name : string) (s : system) : system :=
  set_process p
    {| active_locks := active_locks (process_of s p);
       at_ := AtOpen func_name |} (os s) s.

(** What the scheduler of the machine may do next. *)
Inductive event :=
| Run (p : nat)
| Wait (d : N).

Definition perform (s : system) (ev : event) : system :=
  match ev with
  | Run p => step p s
  | Wait d => {| os := pass_time d (os s); processes := processes s |}
  end.

Definition interleave (schedule : list event) (s : system) : system :=
  foldl perform s schedule.

(** [with_job_lock(func_name)] run by [p] without interruption. *)
Definition with_job_lock (p : nat) (func_name : string) (s : system)
  : bool * system :=
  let s' := step p (step p (step p (step p (enter p func_name s)))) in
  (match at_ (process_of s' p) with
   | Returned b _ => b
   | _ => false
   end, s').

(** [release_job_lock(func_name)] run by [p]. *)
Definition release_job_lock (p : nat) (func_name : string) (s : system)
  : system :=
  let pr := process_of s p in
  let '(k, locks) :=
    match active_locks pr !! func_name with
    | Some fd => (unlock fd (os s), delete func_name (active_locks pr))
    | None => (os s, active_locks pr)
    end in
  set_process p {| active_locks := locks; at_ := at_ pr |}
              (remove func_name k) s.

End with_timeout.
End watchlist_scheduler.

(** ** The specification's wording, kept apart for comparison *)

Module as_specified.
Import plex_api.

(** "keys each item by its normalized external-id-A when present, else
    by its native rating key" *)
Definition key (item : movie) : string :=
  let imdb := normalized_imdb item in
  if nonempty imdb then imdb else or_empty (ratingKey item).

(** "secondary-source items are added only under keys absent from the
    primary set", with the key above for both sources. *)
Definition merge_secondary (merged : list (string * movie)) (item : movie)
  : list (string * movie) :=
  if nonempty (key item) && negb (dict_mem (key item) merged)
  then dict_set (key item) item merged else merged.

Definition merge (primary secondary : list movie) : list movie :=
  dict_values (foldl merge_secondary (foldl merge_personal [] primary)
                     secondary).

(** "every primary-source item with a key survives the merge" *)
Definition primary_survives (merge : list movie → list movie → list movie)
  : Prop :=
  ∀ primary secondary item,
    item ∈ primary → key item ≠ "" → item ∈ merge primary secondary.

(** "size (bytes) strictly less than the minimum-gigabyte threshold
    converted to bytes" *)
Definition below_threshold (cfg : config) (size_bytes : Z) : Prop :=
  (inject_Z size_bytes < min_file_size_gb cfg * inject_Z (1024 ^ 3))%Q.

End as_specified.

(** ** Sample data for the worked instances *)

Module sample.

(** A watchlist item as [get_personal_watchlist] or the RSS feed gives it. *)
Definition item (item_title : string) (rating_key imdb : option string)
    (tmdb : option pyval) : movie :=
  {| title := Some item_title; year := None; ratingKey := rating_key;
     imdbId := imdb; tmdbId := tmdb; plex_author_id := None; id := None;
     sizeOnDisk := None; tags := None; monitored := None;
     qualityProfileId := None; rootFolderPath := None; path := None;
     minimumAvailability := None; addOptions := None |}.

(** A record of the Radarr library. *)
Definition record (movie_id : Z) (movie_title : string)
    (imdb : option string) (tmdb : Z) (size_bytes : Z) (movie_tags : list Z)
  : movie :=
  {| title := Some movie_title; year := None; ratingKey := None;
     imdbId := imdb; tmdbId := Some (PInt tmdb); plex_author_id := None;
     id := Some movie_id; sizeOnDisk := Some size_bytes;
     tags := Some movie_tags; monitored := Some (PBool true);
     qualityProfileId := Some (PInt 1);
     rootFolderPath := Some (PStr "/data/Movies/");
     path := Some (PStr "/data/Movies/Film");
     minimumAvailability := Some (PStr "released");
     addOptions := None |}.

End sample.

(** ** Invariants of the merge *)

Module merge_invariants.
Import plex_api.

(** What holds of the dictionary after the first loop. *)
Record primary_inv (personal : list movie) (d : list (string * movie))
  : Prop := {
  primary_nodup : NoDup (dict_keys d);
  primary_sound : ∀ k item, dict_get k d = Some item →
                     k ≠ "" ∧ item ∈ personal ∧ as_specified.key item = k;
  primary_last : ∀ l1 p l2, personal = l1 ++ p :: l2 →
                     as_specified.key p ≠ "" →
                     (∀ x, x ∈ l2 → as_specified.key x ≠ as_specified.key p) →
                     dict_get (as_specified.key p) d = Some p
}.

(** What holds after the second loop, over the dictionary [d1] of the
    first. *)
Record merged_inv (d1 : list (string * movie)) (friends : list movie)
    (d : list (string * movie)) : Prop := {
  merged_nodup : NoDup (dict_keys d);
  merged_primary : ∀ k item, dict_get k d1 = Some item →
                      dict_get k d = Some item;
  merged_sound : ∀ k item, dict_get k d = Some item →
                    dict_get k d1 = Some item
                    ∨ (k ≠ "" ∧ item ∈ friends ∧ normalized_imdb item = k
                       ∧ dict_get k d1 = None);
  merged_complete : ∀ f, f ∈ friends → normalized_imdb f ≠ "" →
                      ∃ f', dict_get (normalized_imdb f) d = Some f'
}.

End merge_invariants.

Module sample_world.
Import database.

Definition cache_row (rk imdb tmdb : option string)
    (searched : option iso_text) : row :=
  {| rating_key := rk; imdb_id := imdb; tmdb_id := tmdb;
     row_title := "Film"; row_year := 2020;
     last_radarr_search := searched; last_processed := None |}.

(** A configuration: watchlist tag 1, upgrade tag 2, a 4 GB threshold,
    at most 5 searches a day and 3 a run. *)
Definition cfg : config :=
  {| root_folder := "/data/Movies/"; default_quality_profile := 1;
     watchlist_tag_id := 1; plex_upgrade_tag := 2; min_file_size_gb := 4;
     max_daily_searches := Some 5; searches_per_run := Some 3;
     user_tagging_enabled := false; tag_prefix := "friend-";
     default_tag_name := "unknown"; manual_mappings := ∅ |}.

(** An environment in which every request succeeds and no time passes:
    the library holds [library], the watchlists are [personal] and
    [friends], a created movie or tag gets the id 7. *)
Definition env_of (library personal friends : list movie)
    (registry : list tag) : env :=
  {| elapse := λ _, 0%N;
     system_status := λ _, true;
     all_movies := λ _, Some library;
     added_movie := λ _ payload,
       Some {| title := title payload; year := None; ratingKey := None;
               imdbId := None; tmdbId := tmdbId payload;
               plex_author_id := None; id := Some 7; sizeOnDisk := Some 0;
               tags := tags payload; monitored := monitored payload;
               qualityProfileId := qualityProfileId payload;
               rootFolderPath := rootFolderPath payload; path := None;
               minimumAvailability := minimumAvailability payload;
               addOptions := None |};
     put_movie := λ _ _ _, true;
     search_command := λ _ _, true;
     all_tags := λ _, Some registry;
     created_tag := λ _ name, Some {| tag_id := 7; label := name |};
     personal_watchlist := personal;
     friends_watchlist := friends;
     fetch_writes := λ rows, rows;
     user_mapping := ∅ |}.

(** A world at the instant [t] with the cache [rows] and no counter file. *)
Definition world_at (t : Z) (rows : list row) : world :=
  {| db := rows; counter_file := None; counter_log := []; clock := t;
     clock_reads := 0; tag_cache := None; trace := [] |}.

End sample_world.

(** ** Assertions about runs *)

Module hoare.
Import run.

(** From a world in [P], [m] ends in [Q] when it returns and in [E] when
    it raises. *)
Definition triple {A} (P : world → Prop) (m : M A)
    (Q : A → world → Prop) (E : world → Prop) : Prop :=
  ∀ w, P w → match m w with
             | (Some a, w') => Q a w'
             | (None, w') => E w'
             end.

(** A search request, and one that Radarr took. *)
Definition attempted_search (x : exchange) : bool :=
  match x with
  | (TriggerSearch _, _) => true
  | _ => false
  end.

Definition granted_search (x : exchange) : bool :=
  match x with
  | (TriggerSearch _, true) => true
  | _ => false
  end.

(** A request to the tag registry. *)
Definition tag_call (x : exchange) : bool :=
  match x with
  | (GetAllTags, _) | (CreateTag _, _) => true
  | _ => false
  end.

Definition attempted (tr : list exchange) : Z :=
  Z.of_nat (length (List.filter attempted_search tr)).

Definition granted (tr : list exchange) : Z :=
  Z.of_nat (length (List.filter granted_search tr)).

(** [w'] comes after [w] with the counter file untouched and no search
    requested in between. *)
Definition calmly (w w' : world) : Prop :=
  counter_file w' = counter_file w
  ∧ counter_log w' = counter_log w
  ∧ clock w ≤ clock w'
  ∧ attempted (trace w') = attempted (trace w)
  ∧ granted (trace w') = granted (trace w).

(** A computation that leaves the counter file alone and requests no
    search. *)
Definition calm {A} (m : M A) : Prop := ∀ w, calmly w (m w).2.

(** [w'] comes after [w] with the cache rows untouched and nothing sent
    but requests to the tag registry. *)
Definition registry_only (w w' : world) : Prop :=
  db w' = db w
  ∧ ∃ new, trace w' = trace w ++ new ∧ Forall (λ x, tag_call x = true) new.

(** A computation that always returns and has no other effect. *)
Definition lookup_only {A} (m : M A) : Prop :=
  ∀ w, is_Some (m w).1 ∧ registry_only w (m w).2.

End hoare.

(** ** Sequences of job runs *)

Module jobs.
Import search_conditions.

(** The counter file is sound for the daily limit: it is not dated in the
    future, its count lies between zero and the limit, and no count ever
    written to it exceeded the limit. *)
Definition counter_ok (limit : Z) (w : world) : Prop :=
  match counter_file w with
  | Some (date, count) => date ≤ date_of (clock w) ∧ 0 ≤ count ≤ limit
  | None => True
  end
  ∧ Forall (λ written : Z * Z, written.2 ≤ limit) (counter_log w).

(** During a run whose daily limit is set: the file is sound, the count
    the run carries is within the limit, and a file bearing today's date
    does not count more than the run does. *)
Definition daily_inv (limit : Z) (c : counters) (w : world) : Prop :=
  counter_ok limit w
  ∧ 0 ≤ daily_search_count c ≤ limit
  ∧ ∀ date count, counter_file w = Some (date, count) →
                  date = date_of (clock w) → count ≤ daily_search_count c.

(** During a sync whose per-run limit is set: the searches Radarr took
    since the trace counted [g0] of them are those the run has counted,
    and they are within the limit. *)
Definition run_inv (limit g0 : Z) (c : counters) (w : world) : Prop :=
  hoare.granted (trace w) - g0 = run_search_count c
  ∧ run_search_count c ≤ Z.max 0 limit.

Definition run_exit (limit g0 : Z) (w : world) : Prop :=
  hoare.granted (trace w) - g0 ≤ Z.max 0 limit.

(** After a sweep whose per-run limit is set: the searches requested,
    and so those taken, since the trace counted [a0] and [g0] of them. *)
Definition sweep_exit (limit a0 g0 : Z) (w : world) : Prop :=
  hoare.attempted (trace w) - a0 ≤ Z.max 0 limit
  ∧ hoare.granted (trace w) - g0 ≤ Z.max 0 limit.

(** One scheduled run: which job, whether it is a dry run, and the
    environment it meets. *)
Inductive job :=
| Sync (dry_run : bool) (e : env)
| Sweep (dry_run : bool) (e : env).

Definition run_job (cfg : config) (w : world) (j : job) : world :=
  match j with
  | Sync dry_run e => (main.process_watchlist cfg e dry_run w).2
  | Sweep dry_run e => (scheduled_upgrader.job_upgrade cfg e dry_run w).2
  end.

(** Runs one after the other, sharing the world and so the counter file. *)
Definition run_jobs (cfg : config) (js : list job) (w : world) : world :=
  foldl (run_job cfg) w js.

End jobs.

Module sample_runs.
Import sample sample_world.

(** An instant in the year 2026, in microseconds from [datetime.min]. *)
Definition in_2026 : Z := 63900000000000000.

(** Five wanted movies that Radarr does not have. *)
Definition five_new : list movie :=
  [item "A" (Some "1") (Some "tt1") (Some (PStr "101"));
   item "B" (Some "2") (Some "tt2") (Some (PStr "102"));
   item "C" (Some "3") (Some "tt3") (Some (PStr "103"));
   item "D" (Some "4") (Some "tt4") (Some (PStr "104"));
   item "E" (Some "5") (Some "tt5") (Some (PStr "105"))].

(** A library of three records that carry the upgrade tag 2: a small
    one, one of 5 GB, and a small one that also has the watchlist tag. *)
Definition library : list movie :=
  [record 5 "A" (Some "tt1") 101 0 [2];
   record 6 "B" (Some "tt2") 102 (5 * 1024 ^ 3) [2];
   record 8 "C" (Some "tt3") 103 (1024 ^ 3) [1; 2]].

(** A record that has the watchlist tag, no upgrade tag and no file. *)
Definition reconciled : movie := record 5 "A" (Some "tt1") 101 0 [1].

(** A record without the watchlist tag, exactly at the 4 GB threshold. *)
Definition at_threshold : movie :=
  record 5 "A" (Some "tt1") 101 (4 * 1024 ^ 3) [].

(** A cache row for the first wanted movie whose last-search text does
    not parse. *)
Definition unparsable_row : database.row :=
  cache_row (Some "1") (Some "tt1") (Some "101") (Some database.NotIso).

(** The first wanted movie. *)
Definition wanted : movie :=
  item "A" (Some "1") (Some "tt1") (Some (PStr "101")).

End sample_runs.

(** ** The identifiers of an item, as stored and as looked up *)

Module identifiers.
Import database.

(** The rating key, IMDb id and TMDB id under which
    [mark_movie_as_searched] finds or stores the row of an item. *)
Definition stored (m : movie)
  : option string * option string * option string :=
  (or_none (ratingKey m), or_none (imdbId m), tmdb_text (tmdbId m)).

(** The one identifier by which the sync looks the item up before a
    search, after [get_plex_metadata] has cleaned it. *)
Definition looked_up (m : movie)
  : option string * option string * option string :=
  if nonempty (main.imdb_of m) then (None, clean (Some (main.imdb_of m)), None)
  else if nonempty (main.tmdb_of m)
       then (None, None, clean (Some (main.tmdb_of m)))
       else if nonempty (or_empty (ratingKey m))
            then (clean (ratingKey m), None, None)
            else (None, None, None).

(** The item is looked up by the first identifier it has (IMDb id, else
    TMDB id, else rating key), written as it is stored. *)
Definition canonical (m : movie) : Prop :=
  match stored m with
  | (_, Some imdb, _) => looked_up m = (None, Some imdb, None)
  | (_, None, Some tmdb) => looked_up m = (None, None, Some tmdb)
  | (Some rating_key, None, None) => looked_up m = (Some rating_key, None, None)
  | (None, None, None) => False
  end.

(** The first row that any stored identifier of the item matches answers
    the lookup of [ids] and has been searched. *)
Definition searched_first (m : movie)
    (ids : option string * option string * option string)
    (rows : list row) : Prop :=
  ∃ before r after,
    rows = before ++ r :: after
    ∧ (∀ x, x ∈ before →
         matches (stored m).1.1 (stored m).1.2 (stored m).2 x = false)
    ∧ matches ids.1.1 ids.1.2 ids.2 r = true
    ∧ is_Some (last_radarr_search r).

End identifiers.

(** ** Invariants of the job lock *)

Module lock_facts.
Import watchlist_scheduler.

(** The kernel hands out inode and description numbers in order, so
    those in use lie below the next ones. *)
Definition tidy_kernel (k : kernel) : Prop :=
  (∀ name i, directory k !! name = Some i → (i < next_inode k)%nat)
  ∧ (∀ i h, holder k !! i = Some h →
            (i < next_inode k)%nat ∧ (h < next_description k)%nat).

(** The same, with the file objects the processes keep. *)
Definition tidy (s : system) : Prop :=
  tidy_kernel (os s)
  ∧ ∀ p name fd, active_locks (process_of s p) !! name = Some fd →
                 (description fd < next_description (os s))%nat.

(** Nobody holds the lock of the job. *)
Definition free (func_name : string) (s : system) : Prop :=
  ∀ i, directory (os s) !! func_name = Some i → holder (os s) !! i = None.

(** Steps a call of [with_job_lock] still has to take. *)
Definition remaining (st : status) : nat :=
  match st with
  | AtOpen _ => 4
  | AtFlock _ _ => 3
  | AtWrite _ _ | AtClose _ _ => 2
  | AtStore _ _ | AtStat _ => 1
  | Idle | Returned _ _ => 0
  end.

(** The file object a call has in hand. *)
Definition in_hand (st : status) : option file_object :=
  match st with
  | AtFlock _ fd | AtWrite _ fd | AtStore _ fd | AtClose _ fd => Some fd
  | _ => None
  end.

(** How often the schedule lets [p] run. *)
Definition turns (p : nat) (schedule : list event) : nat :=
  length (List.filter (λ ev, match ev with
                             | Run p' => bool_decide (p' = p)
                             | Wait _ => false
                             end) schedule).

(** A call of [p] on its own, the clock moving on between its system
    calls. *)
Definition unhurried (p : nat) (d1 d2 d3 : N) : list event :=
  [Run p; Wait d1; Run p; Wait d2; Run p; Wait d3; Run p].

(** A machine just started: no lock file, no process in a call. *)
Definition boot : system :=
  {| os := {| directory := ∅; mtime := ∅; holder := ∅; next_inode := 0;
              next_description := 0; time := 0 |};
     processes := ∅ |}.

Section contest.
(** Two calls for the lock [func_name]; descriptions from [first_new]
    on were opened by them. *)
Variables (func_name : string) (first_new : nat).

(** A file object opened by one of the two calls. *)
Definition fresh (k : kernel) (fd : file_object) : Prop :=
  (first_new ≤ description fd < next_description k)%nat
  ∧ directory k !! func_name = Some (inode fd).

(** [k'] is a later kernel: the lock file is still there and no
    description number was given back. *)
Definition later (k k' : kernel) : Prop :=
  (∀ i, directory k !! func_name = Some i →
        directory k' !! func_name = Some i)
  ∧ (next_description k ≤ next_description k')%nat.

(** A call that has not yet asked for the lock. *)
Inductive pending (k : kernel) : status → Prop :=
| pending_open : pending k (AtOpen func_name)
| pending_flock fd : fresh k fd → pending k (AtFlock func_name fd).

(** A call that got the lock with [fd]. *)
Inductive winning (locks : gmap string file_object) (fd : file_object)
  : status → Prop :=
| winning_write : winning locks fd (AtWrite func_name fd)
| winning_store : winning locks fd (AtStore func_name fd)
| winning_returned line :
    locks !! func_name = Some fd → winning locks fd (Returned true line).

(** A call that was refused. *)
Inductive losing (k : kernel) : status → Prop :=
| losing_close fd : fresh k fd → losing k (AtClose func_name fd)
| losing_stat : losing k (AtStat func_name)
| losing_returned line : losing k (Returned false line).

(** [x] holds the lock while [y] has not asked yet or was refused. *)
Definition leads (s : system) (x y : nat) : Prop :=
  ∃ fd, fresh (os s) fd
        ∧ holder (os s) !! inode fd = Some (description fd)
        ∧ winning (active_locks (process_of s x)) fd (at_ (process_of s x))
        ∧ (pending (os s) (at_ (process_of s y))
           ∨ losing (os s) (at_ (process_of s y)))
        ∧ ∀ fd', in_hand (at_ (process_of s y)) = Some fd' →
                 description fd' ≠ description fd.

(** The state of two calls [p] and [q] contending for the lock. *)
Record contest (p q : nat) (s : system) : Prop := {
  contest_kernel : tidy_kernel (os s);
  contest_new : (first_new ≤ next_description (os s))%nat;
  contest_old : ∀ x fd,
    x = p ∨ x = q →
    (∀ line, at_ (process_of s x) ≠ Returned true line) →
    active_locks (process_of s x) !! func_name = Some fd →
    (description fd < first_new)%nat;
  contest_apart : ∀ fd fd',
    in_hand (at_ (process_of s p)) = Some fd →
    in_hand (at_ (process_of s q)) = Some fd' →
    description fd ≠ description fd';
  contest_phase :
    (pending (os s) (at_ (process_of s p))
     ∧ pending (os s) (at_ (process_of s q)) ∧ free func_name s)
    ∨ leads s p q ∨ leads s q p
}.

End contest.
End lock_facts.

(** ** Further facts about the cache table *)

Module cache_facts.
Import database.

(** The UNIQUE constraint on [rating_key]: NULLs apart, no two rows
    share one. *)
Definition unique_keys (db : list row) : Prop := NoDup (omap rating_key db).

(** [db'] has the rows of [db] in their places, with the column [col] as
    it was, and at most one row more. *)
Definition keeps {A} (col : row → A) (db db' : list row) : Prop :=
  (length db ≤ length db' ≤ S (length db))%nat
  ∧ col <$> take (length db) db' = col <$> db.

End cache_facts.

(** ** What a run sends *)

Module footprint.
Import run.

(** A request that changes the library of Radarr: a movie added, a
    record updated or a search started. *)
Definition library_write (x : exchange) : bool :=
  match x with
  | (AddMovie _, _) | (PutMovie _ _, _) | (TriggerSearch _, _) => true
  | _ => false
  end.

(** [w'] comes after [w], every request sent in between being in
    [allowed]. *)
Definition sending (allowed : exchange → Prop) (w w' : world) : Prop :=
  ∃ new, trace w' = trace w ++ new ∧ Forall allowed new.

(** [w'] comes after [w] with nothing sent and the rows of the cache as
    they were. *)
Definition silent (w w' : world) : Prop :=
  trace w' = trace w ∧ db w' = db w.

(** Whatever the world it starts in, [m] ends in one that [R] relates
    to it. *)
Definition within (R : world → world → Prop) {A} (m : M A) : Prop :=
  ∀ w, R w (m w).2.

End footprint.

(** ** The order of the sweep's candidates *)

Module sweep_facts.
Import scheduled_upgrader.

(** [a] does not come after [b] in the order of the sort key. *)
Definition key_le (a b : candidate) : Prop := key_lt b a = false.

(** A request the sweep may make for the library [movies]: the listing,
    an update that clears the upgrade tag of a movie whose size has
    reached the threshold, or a search for a movie of the library that
    carries the upgrade tag, is below the threshold and has an id. *)
Definition sweep_request (cfg : config) (movies : list movie)
    (x : exchange) : Prop :=
  match x.1 with
  | GetAllMovies => True
  | PutMovie movie_id payload =>
      ∃ m, m ∈ movies ∧ valid_id m = Some movie_id
           ∧ has_upgrade_tag cfg m = true ∧ meets_threshold cfg m = true
           ∧ payload
             = set_tags (List.filter (λ t, negb (t =? plex_upgrade_tag cfg))
                                     (default [] (tags m))) m
  | TriggerSearch movie_id =>
      ∃ m, m ∈ movies ∧ valid_id m = Some movie_id
           ∧ has_upgrade_tag cfg m = true ∧ meets_threshold cfg m = false
  | _ => False
  end.

(** A candidate the sweep may search: a movie of the library that
    carries the upgrade tag, is below the threshold and has an id. *)
Definition searchable (cfg : config) (movies : list movie)
    (c : candidate) : Prop :=
  c.1.1 ∈ movies ∧ has_upgrade_tag cfg c.1.1 = true
  ∧ meets_threshold cfg c.1.1 = false ∧ is_Some (valid_id c.1.1).

End sweep_facts.


(** ** watchlist-scheduler.py: the jobs under their lock *)

Module scheduler.
Import run watchlist_scheduler.

(** What a scheduler process acts on: the machine with its lock files
    and the world of the jobs. *)
Record host := { machine : system; outside : world }.

Section with_config.
Variables (lock_timeout : Z) (cfg : config) (e : env).

(** [job_watchlist], run by process [p]; the log lines are left out.
    The [finally] releases the lock whether the body raised or not. *)
Definition job_watchlist (p : nat) (dry_run : bool) (h : host)
  : bool * host :=
  let job_name := "watchlist_sync" in
  let '(acquired, s) := with_job_lock lock_timeout p job_name (machine h) in
  if negb acquired then (false, {| machine := s; outside := outside h |})
  else
    let '(result, w) := main.process_watchlist cfg e dry_run (outside h) in
    (match result with Some _ => true | None => false end,
     {| machine := release_job_lock p job_name s; outside := w |}).

(** [job_upgrade], run by process [p]. *)
Definition job_upgrade (p : nat) (dry_run : bool) (h : host)
  : bool * host :=
  let job_name := "upgrade_job" in
  let '(acquired, s) := with_job_lock lock_timeout p job_name (machine h) in
  if negb acquired then (false, {| machine := s; outside := outside h |})
  else
    let '(result, w) :=
      scheduled_upgrader.job_upgrade cfg e dry_run (outside h) in
    (match result with Some _ => true | None => false end,
     {| machine := release_job_lock p job_name s; outside := w |}).

End with_config.

(** [release_all_locks], run by process [p]; [keys] is
    [list(_active_locks.keys())], the names in the order the dict
    holds them. *)
Definition release_all_locks (p : nat) (keys : list string) (s : system)
  : system :=
  foldl (λ s func_name, release_job_lock p func_name s) s keys.

End scheduler.

Module job_facts.
Import run watchlist_scheduler scheduler.

(** Process [p] holds the lock of the job through [fd]. *)
Definition holds (p : nat) (func_name : string) (fd : file_object)
    (s : system) : Prop :=
  active_locks (process_of s p) !! func_name = Some fd
  ∧ directory (os s) !! func_name = Some (inode fd)
  ∧ holder (os s) !! inode fd = Some (description fd).

(** A call that was refused left the kernel's locks, the names in the
    lock directory and the caller's entries as they were. *)
Definition untouched (p : nat) (s s' : system) : Prop :=
  holder (os s') = holder (os s) ∧ directory (os s') = directory (os s)
  ∧ active_locks (process_of s' p) = active_locks (process_of s p).

(** What a job [job] of name [job_name] and body [body] does with its
    lock: refused, it returns [False] and its body has not run; else
    the body has run once, the lock file is gone, the process has no
    entry for it and the next call for the lock succeeds, whoever
    makes it. *)
Definition gives_lock_back (lock_timeout : Z)
    (job : nat → host → bool * host) (job_name : string) (body : M unit)
  : Prop :=
  ∀ p h,
    lock_facts.tidy (machine h) →
    let r := job p h in
    if (with_job_lock lock_timeout p job_name (machine h)).1
    then r.1 = bool_decide (is_Some (body (outside h)).1)
         ∧ outside r.2 = (body (outside h)).2
         ∧ directory (os (machine r.2)) !! job_name = None
         ∧ active_locks (process_of (machine r.2) p) !! job_name = None
         ∧ ∀ q, (with_job_lock lock_timeout q job_name (machine r.2)).1
                = true
    else r.1 = false ∧ outside r.2 = outside h
         ∧ untouched p (machine h) (machine r.2).

End job_facts.

(** ** Environments that fail *)

Module sample_faults.

(** [e] with a Radarr that refuses every search command. *)
Definition refusing_searches (e : env) : env :=
  {| elapse := elapse e; system_status := system_status e;
     all_movies := all_movies e; added_movie := added_movie e;
     put_movie := put_movie e; search_command := λ _ _, false;
     all_tags := all_tags e; created_tag := created_tag e;
     personal_watchlist := personal_watchlist e;
     friends_watchlist := friends_watchlist e;
     fetch_writes := fetch_writes e; user_mapping := user_mapping e |}.

(** [e] with a tag listing that fails when it is the first request
    of all, and answers as in [e] afterwards. *)
Definition failing_first_listing (e : env) : env :=
  {| elapse := elapse e; system_status := system_status e;
     all_movies := all_movies e; added_movie := added_movie e;
     put_movie := put_movie e; search_command := search_command e;
     all_tags := λ h, if h is [] then None else all_tags e h;
     created_tag := created_tag e;
     personal_watchlist := personal_watchlist e;
     friends_watchlist := friends_watchlist e;
     fetch_writes := fetch_writes e; user_mapping := user_mapping e |}.

End sample_faults.

(** ** Code that does not look at the cache table *)

Module cache_view.
Import run.

(** Two worlds that differ in the rows of the cache table at most. *)
Definition agree (w1 w2 : world) : Prop :=
  counter_file w1 = counter_file w2 ∧ counter_log w1 = counter_log w2
  ∧ clock w1 = clock w2 ∧ clock_reads w1 = clock_reads w2
  ∧ tag_cache w1 = tag_cache w2 ∧ trace w1 = trace w2.

(** [m] does not consult the cache table: from worlds that agree it
    returns the same and ends in worlds that agree. *)
Definition blind {A} (m : M A) : Prop :=
  ∀ w1 w2, agree w1 w2 → (m w1).1 = (m w2).1 ∧ agree (m w1).2 (m w2).2.

End cache_view.

(** ** Items of the friends' feed *)

Module feed.

(** An item of the friends' list as [get_friends_watchlist] builds it
    from an entry of the feed and [enhance_friends_watchlist_metadata]
    completes it. The dictionary has the keys [title], [pubDate],
    [guid], [imdbId], [plex_author_id] and [category], and [tmdbId] once
    it is known; of these the sync reads the title, the two ids and the
    author. It has no [ratingKey]. *)
Definition friends_item (entry_title : string) (imdb : option string)
    (author : option string) (tmdb : option pyval) : movie :=
  {| title := Some entry_title; year := None; ratingKey := None;
     imdbId := imdb; tmdbId := tmdb; plex_author_id := author; id := None;
     sizeOnDisk := None; tags := None; monitored := None;
     qualityProfileId := None; rootFolderPath := None; path := None;
     minimumAvailability := None; addOptions := None |}.

End feed.

Module sync_facts.

(** [w'] comes after [w], every request sent in between being one that
    [allowed] admits after the exchanges before it. *)
Definition sending_after (allowed : list exchange → exchange → Prop)
    (w w' : world) : Prop :=
  ∃ new, trace w' = trace w ++ new
         ∧ ∀ i x, new !! i = Some x → allowed (trace w ++ take i new) x.

(** What the sync may send after the exchanges [h], over the index
    [index] of the library and the merged watchlist [items]. An addition
    is for an item the index does not resolve, with the payload made
    for it. An update is for the library movie an item resolves to,
    which lacks the watchlist tag, with the payload made for the two,
    which differs from the movie. A search is for such a movie when it
    is below the size threshold, or it follows at once an addition that
    Radarr took and is for the record Radarr answered it with. *)
Definition sync_request (cfg : config) (e : env)
    (index : list (string * movie)) (items : list movie)
    (h : list exchange) (x : exchange) : Prop :=
  match x.1 with
  | AddMovie payload =>
      ∃ m tmdb_id_int friend_tag_id,
        m ∈ items ∧ main.resolve index m = None
        ∧ int (main.tmdb_of m) = Some tmdb_id_int
        ∧ payload = main.add_payload cfg m tmdb_id_int friend_tag_id
  | PutMovie movie_id payload =>
      ∃ m radarr_movie movie_title friend_tag_id,
        m ∈ items ∧ main.resolve index m = Some radarr_movie
        ∧ (watchlist_tag_id cfg ∉ default [] (tags radarr_movie))
        ∧ id radarr_movie = Some movie_id
        ∧ title radarr_movie = Some movie_title
        ∧ main.fix_paths_for_radarr cfg
            (main.update_payload cfg m radarr_movie movie_id movie_title
               friend_tag_id) = Some payload
        ∧ differ.needs_update radarr_movie payload = true
  | TriggerSearch movie_id =>
      (∃ m radarr_movie,
         m ∈ items ∧ main.resolve index m = Some radarr_movie
         ∧ (watchlist_tag_id cfg ∉ default [] (tags radarr_movie))
         ∧ id radarr_movie = Some movie_id
         ∧ main.eligible_for_upgrade cfg radarr_movie = true)
      ∨ (∃ before payload added,
           h = before ++ [(AddMovie payload, true)]
           ∧ added_movie e before payload = Some added
           ∧ id added = Some movie_id)
  | _ => True
  end.

End sync_facts.

(** * Properties *)

(** ** Python built-ins *)

Lemma nonempty_true s : nonempty s = true ↔ s ≠ "".
Proof.
  unfold nonempty. rewrite negb_true_iff. split.
  - intros H ->. by rewrite String.eqb_refl in H.
  - intros H. by apply String.eqb_neq.
Qed.

Lemma nonempty_false s : nonempty s = false ↔ s = "".
Proof.
  unfold nonempty. rewrite negb_false_iff. apply String.eqb_eq.
Qed.

Section dict_facts.
Context {V : Type}.
Implicit Types (d : list (string * V)) (k : string) (v : V).

Lemma dict_get_set_eq k v d : dict_get k (dict_set k v d) = Some v.
Proof.
  induction d as [|[k' v'] d IH]; simpl.
  - by rewrite decide_True.
  - destruct (decide (k' = k)) as [->|Hne]; simpl.
    + by rewrite decide_True.
    + by rewrite decide_False.
Qed.

Lemma dict_get_set_ne k k' v d :
  k ≠ k' → dict_get k' (dict_set k v d) = dict_get k' d.
Proof.
  intros Hne. induction d as [|[k0 v0] d IH]; simpl.
  - by rewrite decide_False.
  - destruct (decide (k0 = k)) as [->|Hne0]; simpl.
    + by rewrite !decide_False.
    + destruct (decide (k0 = k')); [done | apply IH].
Qed.

Lemma dict_mem_true k d : dict_mem k d = true ↔ is_Some (dict_get k d).
Proof. unfold dict_mem. apply bool_decide_eq_true. Qed.

Lemma dict_mem_false k d : dict_mem k d = false ↔ dict_get k d = None.
Proof.
  unfold dict_mem. rewrite bool_decide_eq_false, <- eq_None_not_Some. done.
Qed.

Lemma dict_keys_set k v d :
  dict_keys (dict_set k v d)
  = if dict_mem k d then dict_keys d else dict_keys d ++ [k].
Proof.
  induction d as [|[k' v'] d IH].
  - done.
  - cbn [dict_set]. destruct (decide (k' = k)) as [->|Hne].
    + replace (dict_mem k ((k, v') :: d)) with true; [done|].
      symmetry. apply dict_mem_true. simpl. rewrite decide_True; eauto.
    + replace (dict_mem k ((k', v') :: d)) with (dict_mem k d).
      * unfold dict_keys in *. rewrite fmap_cons, IH.
        by destruct (dict_mem k d).
      * unfold dict_mem. simpl. by rewrite decide_False.
Qed.

Lemma dict_get_Some_keys k v d : dict_get k d = Some v → k ∈ dict_keys d.
Proof.
  unfold dict_keys. induction d as [|[k' v'] d IH]; simpl; [done|].
  destruct (decide (k' = k)) as [->|]; intros H.
  - apply list_elem_of_here.
  - apply list_elem_of_further. by apply IH.
Qed.

Lemma dict_get_None_keys k d : dict_get k d = None ↔ k ∉ dict_keys d.
Proof.
  unfold dict_keys. induction d as [|[k' v'] d IH]; simpl.
  - split; [intros _; apply not_elem_of_nil | done].
  - rewrite not_elem_of_cons. destruct (decide (k' = k)) as [->|Hne].
    + split; [done | by intros [? _]].
    + rewrite IH. split; [intros ?; split; [congruence | done] | by intros [_ ?]].
Qed.

Lemma dict_keys_NoDup_set k v d :
  NoDup (dict_keys d) → NoDup (dict_keys (dict_set k v d)).
Proof.
  intros Hd. rewrite dict_keys_set.
  destruct (dict_mem k d) eqn:Hm; [done|].
  apply dict_mem_false, dict_get_None_keys in Hm.
  apply NoDup_app. split_and!; [done | | apply NoDup_singleton].
  intros x Hx ->%list_elem_of_singleton. done.
Qed.

(** With distinct keys, an entry of the list is what [dict_get] finds. *)
Lemma dict_lookup_get d i k v :
  NoDup (dict_keys d) → d !! i = Some (k, v) → dict_get k d = Some v.
Proof.
  unfold dict_keys. revert i. induction d as [|[k' v'] d IH]; intros i Hd Hi.
  - done.
  - simpl in *. apply NoDup_cons in Hd as [Hk Hd].
    destruct i as [|i]; simpl in Hi.
    + injection Hi as -> ->. by rewrite decide_True.
    + destruct (decide (k' = k)) as [->|Hne].
      * exfalso. apply Hk. apply list_elem_of_fmap.
        exists (k, v). split; [done|]. by eapply list_elem_of_lookup_2.
      * by eapply IH.
Qed.

Lemma dict_get_lookup d k v :
  dict_get k d = Some v → ∃ i, d !! i = Some (k, v).
Proof.
  induction d as [|[k' v'] d IH]; simpl; [done|].
  destruct (decide (k' = k)) as [->|Hne].
  - intros [= ->]. by exists 0%nat.
  - intros [i Hi]%IH. by exists (S i).
Qed.

Lemma dict_values_elem d v :
  v ∈ dict_values d ↔ ∃ i k, d !! i = Some (k, v).
Proof.
  unfold dict_values. rewrite list_elem_of_fmap. split.
  - intros [[k v'] [-> [i Hi]%list_elem_of_lookup_1]]. by exists i, k.
  - intros (i & k & Hi). exists (k, v). split; [done|].
    by eapply list_elem_of_lookup_2.
Qed.

End dict_facts.

(** ** The payload differ *)

Lemma needs_update_false_iff current_movie new_payload :
  differ.needs_update current_movie new_payload = false ↔
  (∀ key, key ∈ differ.keys_to_check →
     str (get (key current_movie)) = str (get (key new_payload)))
  ∧ differ.tag_set current_movie = differ.tag_set new_payload
  ∧ differ.search_option current_movie = differ.search_option new_payload.
Proof.
  unfold differ.needs_update.
  destruct (existsb _ _) eqn:Hkeys.
  - split; [done|]. intros (Hall & _ & _).
    apply existsb_exists in Hkeys as (key & Hin & Hneq).
    apply negb_true_iff, String.eqb_neq in Hneq.
    destruct Hneq. apply Hall. by apply list_elem_of_In.
  - assert (∀ key, key ∈ differ.keys_to_check →
              str (get (key current_movie)) = str (get (key new_payload)))
      as Hall.
    { intros key Hin%list_elem_of_In.
      destruct (String.eqb (str (get (key current_movie)))
                           (str (get (key new_payload)))) eqn:Heq.
      - by apply String.eqb_eq.
      - assert (existsb (λ key, negb (String.eqb (str (get (key current_movie)))
                                                  (str (get (key new_payload)))))
                        differ.keys_to_check = true) as Hex; [|congruence].
        apply existsb_exists. exists key. by rewrite Heq. }
    destruct (bool_decide (differ.tag_set _ = _)) eqn:Htags; simpl.
    + apply bool_decide_eq_true in Htags.
      destruct (bool_decide (differ.search_option _ = _)) eqn:Hopt; simpl.
      * apply bool_decide_eq_true in Hopt. done.
      * apply bool_decide_eq_false in Hopt. split; [done | tauto].
    + apply bool_decide_eq_false in Htags. split; [done | tauto].
Qed.

(** C7. [needs_update(X, X)] is false for every record X; it is true as
    soon as one of the five compared fields differs under [str], or the
    tags differ as sets, or the [searchForMovie] option differs. *)
Theorem needs_update_reflexive_and_sensitive :
  (∀ x, differ.needs_update x x = false)
  ∧ (∀ current_movie new_payload key,
       key ∈ [monitored; qualityProfileId; rootFolderPath; path;
              minimumAvailability] →
       str (get (key current_movie)) ≠ str (get (key new_payload)) →
       differ.needs_update current_movie new_payload = true)
  ∧ (∀ current_movie new_payload,
       (list_to_set (default [] (tags current_movie)) : gset Z)
       ≠ list_to_set (default [] (tags new_payload)) →
       differ.needs_update current_movie new_payload = true)
  ∧ (∀ current_movie new_payload,
       (addOptions current_movie ≫= searchForMovie)
       ≠ (addOptions new_payload ≫= searchForMovie) →
       differ.needs_update current_movie new_payload = true).
Proof.
  split_and!.
  - intros x. by apply needs_update_false_iff.
  - intros c n key Hin Hneq. apply not_false_iff_true.
    intros (Hall & _ & _)%needs_update_false_iff. by apply Hneq, Hall.
  - intros c n Hneq. apply not_false_iff_true.
    intros (_ & Htags & _)%needs_update_false_iff. by apply Hneq.
  - intros c n Hneq. apply not_false_iff_true.
    intros (_ & _ & Hopt)%needs_update_false_iff. by apply Hneq.
Qed.

(** ** Merging the watchlists *)

Section merge_facts.
Import plex_api merge_invariants.
Local Abbreviation key := as_specified.key.

Lemma merge_personal_unfold d item :
  merge_personal d item
  = if nonempty (key item) then dict_set (key item) item d else d.
Proof. reflexivity. Qed.

Lemma primary_inv_foldl personal :
  primary_inv personal (foldl merge_personal [] personal).
Proof.
  induction personal as [|item personal IH] using rev_ind.
  - split; simpl.
    + apply NoDup_nil_2.
    + done.
    + intros l1 p l2 H. by destruct l1.
  - rewrite foldl_snoc, merge_personal_unfold.
    destruct IH as [Hnd Hsound Hlast].
    destruct (nonempty (key item)) eqn:Hk.
    + apply nonempty_true in Hk. split.
      * by apply dict_keys_NoDup_set.
      * intros k it Hget. destruct (decide (key item = k)) as [<-|Hne].
        -- rewrite dict_get_set_eq in Hget. injection Hget as <-.
           split_and!; [done | set_solver | done].
        -- rewrite dict_get_set_ne in Hget by done.
           apply Hsound in Hget as (? & ? & ?). split_and!; [done | set_solver | done].
      * intros l1 p l2 Heq Hp Hl2.
        destruct l2 as [|y l2 _] using rev_ind.
        -- apply (app_inj_tail personal l1 item p) in Heq as [-> ->].
           apply dict_get_set_eq.
        -- rewrite app_comm_cons, app_assoc in Heq.
           apply app_inj_tail in Heq as [-> ->].
           rewrite dict_get_set_ne.
           ++ apply (Hlast l1 p l2); [done | done |].
              intros x Hx. apply Hl2. set_solver.
           ++ apply Hl2. set_solver.
    + apply nonempty_false in Hk. split; [done | |].
      * intros k it Hget. apply Hsound in Hget as (? & ? & ?).
        split_and!; [done | set_solver | done].
      * intros l1 p l2 Heq Hp Hl2.
        destruct l2 as [|y l2 _] using rev_ind.
        -- apply (app_inj_tail personal l1 item p) in Heq as [-> ->]. done.
        -- rewrite app_comm_cons, app_assoc in Heq.
           apply app_inj_tail in Heq as [-> ->].
           apply (Hlast l1 p l2); [done | done |].
           intros x Hx. apply Hl2. set_solver.
Qed.

Lemma primary_kept personal p :
  p ∈ personal → key p ≠ "" →
  ∃ p', p' ∈ personal ∧ key p' = key p
        ∧ dict_get (key p) (foldl merge_personal [] personal) = Some p'.
Proof.
  intros Hin Hk.
  induction personal as [|item personal IH] using rev_ind; [set_solver|].
  rewrite foldl_snoc, merge_personal_unfold.
  destruct (decide (key item = key p)) as [Heq|Hne].
  - exists item. rewrite Heq, (proj2 (nonempty_true _) Hk), <- Heq.
    split_and!; [set_solver | done | apply dict_get_set_eq].
  - assert (p ∈ personal) as Hp by set_solver.
    destruct (IH Hp) as (p' & Hp' & Hkp' & Hget).
    exists p'. split_and!; [set_solver | done |].
    destruct (nonempty (key item)); [|done].
    by rewrite dict_get_set_ne.
Qed.

Lemma merged_inv_foldl d1 friends :
  NoDup (dict_keys d1) → merged_inv d1 friends (foldl merge_friend d1 friends).
Proof.
  intros Hd1.
  induction friends as [|f friends IH] using rev_ind.
  - split; simpl; [done | done | by left | set_solver].
  - rewrite foldl_snoc. destruct IH as [Hnd Hprim Hsound Hcompl].
    set (d := foldl merge_friend d1 friends) in *.
    unfold merge_friend.
    destruct (nonempty (normalized_imdb f)) eqn:Hk; simpl.
    + apply nonempty_true in Hk.
      destruct (dict_mem (normalized_imdb f) d) eqn:Hmem; simpl.
      * apply dict_mem_true in Hmem as [f' Hf'].
        split; [done | done | |].
        -- intros k it [?|(?&?&?&?)]%Hsound; [by left | right].
           split_and!; [done | set_solver | done | done].
        -- intros g [Hg| ->%list_elem_of_singleton]%elem_of_app Hgk;
             [by apply Hcompl | by exists f'].
      * apply dict_mem_false in Hmem. split.
        -- by apply dict_keys_NoDup_set.
        -- intros k it Hget. rewrite dict_get_set_ne; [by apply Hprim|].
           intros <-. apply Hprim in Hget. congruence.
        -- intros k it Hget.
           destruct (decide (normalized_imdb f = k)) as [<-|Hne].
           ++ rewrite dict_get_set_eq in Hget. injection Hget as <-. right.
              split_and!; [done | set_solver | done |].
              destruct (dict_get (normalized_imdb f) d1) eqn:H1; [|done].
              apply Hprim in H1. congruence.
           ++ rewrite dict_get_set_ne in Hget by done.
              apply Hsound in Hget as [?|(?&?&?&?)]; [by left | right].
              split_and!; [done | set_solver | done | done].
        -- intros g [Hg| ->%list_elem_of_singleton]%elem_of_app Hgk.
           ++ destruct (Hcompl g Hg Hgk) as [g' Hg'].
              destruct (decide (normalized_imdb f = normalized_imdb g)) as [Heq|Hne].
              ** rewrite <- Heq, dict_get_set_eq. eauto.
              ** rewrite dict_get_set_ne by done. eauto.
           ++ rewrite dict_get_set_eq. eauto.
    + apply nonempty_false in Hk. split; [done | done | |].
      * intros k it [?|(?&?&?&?)]%Hsound; [by left | right].
        split_and!; [done | set_solver | done | done].
      * intros g [Hg| ->%list_elem_of_singleton]%elem_of_app Hgk;
          [by apply Hcompl | done].
Qed.

Lemma merged_dict_inv personal friends :
  merged_inv (foldl merge_personal [] personal) friends
             (merged_dict personal friends).
Proof. apply merged_inv_foldl, primary_inv_foldl. Qed.

Lemma merge_watchlists_elem personal friends item :
  item ∈ merge_watchlists personal friends
  ↔ ∃ k, dict_get k (merged_dict personal friends) = Some item.
Proof.
  unfold merge_watchlists. rewrite dict_values_elem. split.
  - intros (i & k & Hi). exists k. eapply dict_lookup_get; [|done].
    apply merged_dict_inv.
  - intros [k (i & Hi)%dict_get_lookup]. eauto.
Qed.

End merge_facts.

(** X29. Whatever the two lists hold, each primary item is keyed by its
    normalized IMDb id, else by its rating key; each secondary item by its
    normalized IMDb id alone. Every key of the merged dictionary is non-empty and
    belongs to a primary item with that key or, when no primary item has
    it, to a secondary item with that IMDb id; a key of the primary set is
    always held by a primary item; a secondary IMDb id absent from the
    primary set is held by a secondary item. *)
Theorem merge_watchlists_keying personal friends :
  let merged := plex_api.merged_dict personal friends in
  (∀ item, item ∈ plex_api.merge_watchlists personal friends
           ↔ ∃ k, dict_get k merged = Some item)
  ∧ (∀ k item, dict_get k merged = Some item →
       k ≠ ""
       ∧ ((item ∈ personal ∧ as_specified.key item = k)
          ∨ (item ∈ friends ∧ plex_api.normalized_imdb item = k
             ∧ ∀ p, p ∈ personal → as_specified.key p ≠ k)))
  ∧ (∀ p, p ∈ personal → as_specified.key p ≠ "" →
       ∃ p', p' ∈ personal ∧ as_specified.key p' = as_specified.key p
             ∧ dict_get (as_specified.key p) merged = Some p')
  ∧ (∀ f, f ∈ friends → plex_api.normalized_imdb f ≠ "" →
       (∀ p, p ∈ personal → as_specified.key p ≠ plex_api.normalized_imdb f) →
       ∃ f', f' ∈ friends
             ∧ plex_api.normalized_imdb f' = plex_api.normalized_imdb f
             ∧ dict_get (plex_api.normalized_imdb f) merged = Some f').
Proof.
  intros merged.
  pose proof (primary_inv_foldl personal) as [Hnd1 Hsound1 Hlast1].
  pose proof (merged_dict_inv personal friends) as [Hnd Hprim Hsound Hcompl].
  fold merged in Hnd, Hprim, Hsound, Hcompl.
  split_and!.
  - intros item. apply merge_watchlists_elem.
  - intros k item Hget.
    destruct (Hsound k item Hget) as [H1|(Hk & Hin & Himdb & Hnone)].
    + apply Hsound1 in H1 as (? & ? & ?). split; [done | by left].
    + split; [done | right]. split_and!; [done | done |].
      intros p Hp Hkp. subst k.
      destruct (primary_kept personal p Hp) as (p' & _ & _ & Hp');
        [by rewrite Hkp | congruence].
  - intros p Hp Hk.
    destruct (primary_kept personal p Hp Hk) as (p' & ? & ? & Hget).
    exists p'. split_and!; [done | done | by apply Hprim].
  - intros f Hf Hk Hfree.
    destruct (Hcompl f Hf Hk) as [f' Hget]. exists f'.
    destruct (Hsound _ _ Hget) as [H1|(_ & ? & ? & _)]; [|done].
    apply Hsound1 in H1 as (_ & Hin & Hkey). by destruct (Hfree f' Hin).
Qed.

(** A worked instance of X29: a friend's item takes a free IMDb id. *)
Lemma merge_watchlists_keying_witness :
  ∃ f', f' ∈ [sample.item "B" None (Some " TT2 ") None]
        ∧ dict_get "tt2"
            (plex_api.merged_dict
               [sample.item "A" (Some "1") (Some "tt1") None]
               [sample.item "B" None (Some " TT2 ") None]) = Some f'.
Proof.
  destruct (merge_watchlists_keying
              [sample.item "A" (Some "1") (Some "tt1") None]
              [sample.item "B" None (Some " TT2 ") None])
    as (_ & _ & _ & Hfriend).
  destruct (Hfriend (sample.item "B" None (Some " TT2 ") None))
    as (f' & Hin & _ & Hget).
  - apply list_elem_of_here.
  - vm_compute. discriminate.
  - intros p ->%list_elem_of_singleton. vm_compute. discriminate.
  - exists f'. split; [exact Hin | exact Hget].
Defined.

(** The second loop looks at the IMDb id alone: a secondary item that
    had a rating key and no IMDb id would be dropped, where the wording
    keys it by the rating key. The feed gives no such item. *)
Example merge_drops_secondary_rating_key :
  as_specified.key (sample.item "B" (Some "42") None None) = "42"
  ∧ as_specified.merge [] [sample.item "B" (Some "42") None None]
    = [sample.item "B" (Some "42") None None]
  ∧ plex_api.merge_watchlists [] [sample.item "B" (Some "42") None None] = [].
Proof. split_and!; reflexivity. Qed.

Section merge_as_specified.
Import plex_api merge_invariants.
Local Abbreviation key := as_specified.key.

(** An item without a rating key has its IMDb id for key. *)
Lemma key_without_rating_key f :
  ratingKey f = None → key f = normalized_imdb f.
Proof.
  intros Hnone. unfold as_specified.key. rewrite Hnone. simpl.
  destruct (nonempty (normalized_imdb f)) eqn:Hk; [done|].
  by apply nonempty_false in Hk.
Qed.

(** On such an item the second loop of the code and the wording of the
    specification do the same. *)
Lemma merge_friend_as_specified d f :
  ratingKey f = None → merge_friend d f = as_specified.merge_secondary d f.
Proof.
  intros Hnone. unfold merge_friend, as_specified.merge_secondary.
  by rewrite (key_without_rating_key f Hnone).
Qed.

Lemma foldl_merge_friend_as_specified friends :
  (∀ f, f ∈ friends → ratingKey f = None) →
  ∀ d, foldl merge_friend d friends
       = foldl as_specified.merge_secondary d friends.
Proof.
  induction friends as [|f friends IH]; intros Hfeed d; simpl; [done|].
  rewrite merge_friend_as_specified by apply Hfeed, list_elem_of_here.
  apply IH. intros x Hx. by apply Hfeed, list_elem_of_further.
Qed.

(** C5. On the lists the sync merges (the friends' items come from the
    feed and carry no rating key) [merge_watchlists] is the merge of the
    specification: every item is keyed by its normalized IMDb id when it
    has one, else by its rating key; the output holds each key's item;
    a key that a primary item has is held by a primary item, so the
    primary source wins a collision; a secondary item is in the output
    only under a key no primary item has, and a secondary key that is
    free is taken by a secondary item; an item without any key is not
    in the output. *)
Theorem merge_watchlists_keyed_as_specified personal friends :
  (∀ f, f ∈ friends → ratingKey f = None) →
  let merged := merged_dict personal friends in
  merge_watchlists personal friends = as_specified.merge personal friends
  ∧ (∀ item, item ∈ merge_watchlists personal friends
             ↔ ∃ k, dict_get k merged = Some item)
  ∧ (∀ k item, dict_get k merged = Some item →
       k ≠ "" ∧ key item = k
       ∧ (item ∈ personal
          ∨ (item ∈ friends ∧ ∀ p, p ∈ personal → key p ≠ k)))
  ∧ (∀ p, p ∈ personal → key p ≠ "" →
       ∃ p', p' ∈ personal ∧ key p' = key p
             ∧ dict_get (key p) merged = Some p')
  ∧ (∀ f, f ∈ friends → key f ≠ "" →
       (∀ p, p ∈ personal → key p ≠ key f) →
       ∃ f', f' ∈ friends ∧ key f' = key f
             ∧ dict_get (key f) merged = Some f')
  ∧ (∀ item, item ∈ merge_watchlists personal friends → key item ≠ "").
Proof.
  intros Hfeed merged.
  pose proof (primary_inv_foldl personal) as [Hnd1 Hsound1 Hlast1].
  pose proof (merged_dict_inv personal friends) as [Hnd Hprim Hsound Hcompl].
  fold merged in Hnd, Hprim, Hsound, Hcompl.
  assert (∀ k item, dict_get k merged = Some item →
            k ≠ "" ∧ key item = k
            ∧ (item ∈ personal
               ∨ (item ∈ friends ∧ ∀ p, p ∈ personal → key p ≠ k)))
    as Hkeyed.
  { intros k item Hget.
    destruct (Hsound k item Hget) as [H1|(Hk & Hin & Himdb & Hnone)].
    - apply Hsound1 in H1 as (? & ? & ?). split_and!; [done | done | by left].
    - split_and!; [done | by rewrite key_without_rating_key by auto |].
      right. split; [done|]. intros p Hp Hkp. subst k.
      destruct (primary_kept personal p Hp) as (p' & _ & _ & Hp');
        [by rewrite Hkp | congruence]. }
  split_and!.
  - unfold merge_watchlists, as_specified.merge, merged_dict.
    by rewrite foldl_merge_friend_as_specified.
  - intros item. apply merge_watchlists_elem.
  - exact Hkeyed.
  - intros p Hp Hk.
    destruct (primary_kept personal p Hp Hk) as (p' & ? & ? & Hget).
    exists p'. split_and!; [done | done | by apply Hprim].
  - intros f Hf Hk Hfree.
    rewrite (key_without_rating_key f) in * by auto.
    destruct (Hcompl f Hf Hk) as [f' Hget]. exists f'.
    destruct (Hsound _ _ Hget) as [H1|(_ & Hin & Himdb & _)].
    + apply Hsound1 in H1 as (_ & Hin & Hkey). by destruct (Hfree f' Hin).
    + split_and!; [done | by rewrite key_without_rating_key by auto | done].
  - intros item [k Hget]%merge_watchlists_elem.
    destruct (Hkeyed k item Hget) as (Hk & <- & _). done.
Qed.

End merge_as_specified.

(** A worked instance of C5: the personal list has "tt1" and an item
    known by its rating key alone; of the feed's items one differs from
    "tt1" in case and blanks only, one takes the free id "tt2" and one
    has no id. *)
Lemma merge_watchlists_keyed_as_specified_witness :
  let personal := [sample.item "A" (Some "1") (Some "tt1") None;
                   sample.item "C" (Some "3") None None] in
  let friends := [feed.friends_item "A" (Some " TT1 ") (Some "u1") None;
                  feed.friends_item "B" (Some "tt2") (Some "u1") None;
                  feed.friends_item "D" None (Some "u2") None] in
  plex_api.merge_watchlists personal friends
  = as_specified.merge personal friends
  ∧ plex_api.merge_watchlists personal friends
    = [sample.item "A" (Some "1") (Some "tt1") None;
       sample.item "C" (Some "3") None None;
       feed.friends_item "B" (Some "tt2") (Some "u1") None].
Proof.
  intros personal friends.
  destruct (merge_watchlists_keyed_as_specified personal friends)
    as (Hsame & _).
  - intros f Hf. unfold friends in Hf.
    rewrite !elem_of_cons, elem_of_nil in Hf.
    decompose [or] Hf; subst; first [reflexivity | done].
  - split; [exact Hsame | reflexivity].
Defined.

(** C6, as the code has it. No two entries of the output share a
    non-empty normalized IMDb id. Every primary item with a key has that
    key kept by a primary item of the output, and is itself in the output
    when no later primary item has the same key. *)
Theorem merge_watchlists_unique_and_primary_kept personal friends :
  let merged_list := plex_api.merge_watchlists personal friends in
  (∀ i j x y, merged_list !! i = Some x → merged_list !! j = Some y →
     plex_api.normalized_imdb x ≠ "" →
     plex_api.normalized_imdb x = plex_api.normalized_imdb y → i = j)
  ∧ (∀ p, p ∈ personal → as_specified.key p ≠ "" →
       ∃ p', p' ∈ merged_list ∧ p' ∈ personal
             ∧ as_specified.key p' = as_specified.key p)
  ∧ (∀ l1 p l2, personal = l1 ++ p :: l2 → as_specified.key p ≠ "" →
       (∀ x, x ∈ l2 → as_specified.key x ≠ as_specified.key p) →
       p ∈ merged_list).
Proof.
  intros merged_list.
  pose proof (primary_inv_foldl personal) as [Hnd1 Hsound1 Hlast1].
  pose proof (merged_dict_inv personal friends) as [Hnd Hprim Hsound Hcompl].
  pose proof (merge_watchlists_elem personal friends) as Helem.
  assert (∀ k item,
            dict_get k (plex_api.merged_dict personal friends) = Some item →
            plex_api.normalized_imdb item ≠ "" →
            plex_api.normalized_imdb item = k) as Hkeys.
  { intros k item Hget Hx.
    destruct (Hsound k item Hget) as [H1|(_ & _ & Himdb & _)]; [|done].
    apply Hsound1 in H1 as (_ & _ & <-). unfold as_specified.key.
    by rewrite (proj2 (nonempty_true _) Hx). }
  assert (∀ i x, merged_list !! i = Some x →
            plex_api.normalized_imdb x ≠ "" →
            dict_keys (plex_api.merged_dict personal friends) !! i
            = Some (plex_api.normalized_imdb x)) as Hkey_at.
  { intros i x Hi Hx. subst merged_list.
    unfold plex_api.merge_watchlists, dict_values in Hi. unfold dict_keys.
    rewrite list_lookup_fmap in Hi. rewrite list_lookup_fmap.
    destruct (plex_api.merged_dict personal friends !! i) as [[k v]|] eqn:Hd;
      [|done].
    simpl in Hi. injection Hi as ->. simpl. f_equal.
    pose proof (dict_lookup_get _ _ _ _ Hnd Hd) as Hget.
    symmetry. by apply Hkeys. }
  split_and!.
  - intros i j x y Hi Hj Hx Hxy.
    pose proof (Hkey_at i x Hi Hx) as Hki.
    pose proof (Hkey_at j y Hj) as Hkj. rewrite <- Hxy in Hkj.
    eapply NoDup_lookup; [exact Hnd | exact Hki | by apply Hkj].
  - intros p Hp Hk.
    destruct (primary_kept personal p Hp Hk) as (p' & ? & ? & Hget).
    exists p'. split_and!; [|done|done]. apply Helem.
    exists (as_specified.key p). by apply Hprim.
  - intros l1 p l2 Heq Hk Hl2. apply Helem.
    exists (as_specified.key p). apply Hprim. by eapply Hlast1.
Qed.

(** A worked instance of C6: the later of two primary items with one
    IMDb id is in the output. *)
Lemma merge_watchlists_unique_and_primary_kept_witness :
  sample.item "A2" (Some "2") (Some "tt1") None
  ∈ plex_api.merge_watchlists
      [sample.item "A1" (Some "1") (Some "tt1") None;
       sample.item "A2" (Some "2") (Some "tt1") None] [].
Proof.
  destruct (merge_watchlists_unique_and_primary_kept
              [sample.item "A1" (Some "1") (Some "tt1") None;
               sample.item "A2" (Some "2") (Some "tt1") None] [])
    as (_ & _ & Hlast).
  apply (Hlast [sample.item "A1" (Some "1") (Some "tt1") None]
               (sample.item "A2" (Some "2") (Some "tt1") None) []).
  - reflexivity.
  - vm_compute. discriminate.
  - intros x Hx. by apply not_elem_of_nil in Hx.
Defined.

(** C6 as worded fails: of two primary items with one IMDb id the earlier
    one has a key and does not survive the merge. *)
Lemma merge_loses_earlier_primary_duplicate :
  ¬ as_specified.primary_survives plex_api.merge_watchlists.
Proof.
  intros H.
  specialize (H [sample.item "A1" (Some "1") (Some "tt1") None;
                 sample.item "A2" (Some "2") (Some "tt1") None] []
                (sample.item "A1" (Some "1") (Some "tt1") None)).
  assert (sample.item "A1" (Some "1") (Some "tt1") None
          ∈ plex_api.merge_watchlists
              [sample.item "A1" (Some "1") (Some "tt1") None;
               sample.item "A2" (Some "2") (Some "tt1") None] []) as Hin.
  { apply H; [apply list_elem_of_here | vm_compute; discriminate]. }
  vm_compute in Hin.
  apply list_elem_of_singleton in Hin. discriminate.
Qed.

(** ** The cooldown checks *)

Lemma should_trigger_search_by_age now db m r t :
  search_conditions.lookup m db = Some r →
  database.last_radarr_search r = Some (database.IsoText t) →
  search_conditions.should_trigger_search now db m
  = (7 <=? search_conditions.days_between now t).
Proof.
  intros Hr Ht. unfold search_conditions.should_trigger_search.
  by rewrite Hr, Ht.
Qed.

Lemma consider_by_age cfg e m acc w i r t :
  scheduled_upgrader.valid_id m = Some i →
  scheduled_upgrader.meets_threshold cfg m = false →
  scheduled_upgrader.db_record m (db w) = Some r →
  database.last_radarr_search r = Some (database.IsoText t) →
  (scheduled_upgrader.consider cfg e m acc w).1
  = Some (if scheduled_upgrader.searched_recently
               (clock w + Z.of_N (elapse e (clock_reads w))) t
          then acc else acc ++ [(m, default 0 (sizeOnDisk m), t)]).
Proof.
  intros Hid Hsize Hr Ht. unfold scheduled_upgrader.consider.
  rewrite Hid, Hsize.
  unfold run.bind, run.read_db, run.now, scheduled_upgrader.last_search_time.
  rewrite Hr, Ht. simpl. by destruct (scheduled_upgrader.searched_recently _ _).
Qed.

(** C2. The 7-day check denies a movie whose recorded search is 3 days
    old and admits one whose search is 8 days old; the sweep skips a
    movie searched 20 hours ago and keeps one searched 25 hours ago. *)
Theorem cooldown_checks :
  (∀ now db m r t,
     search_conditions.lookup m db = Some r →
     database.last_radarr_search r = Some (database.IsoText t) →
     now - t = 3 * search_conditions.microseconds_per_day →
     search_conditions.should_trigger_search now db m = false)
  ∧ (∀ now db m r t,
     search_conditions.lookup m db = Some r →
     database.last_radarr_search r = Some (database.IsoText t) →
     now - t = 8 * search_conditions.microseconds_per_day →
     search_conditions.should_trigger_search now db m = true)
  ∧ (∀ cfg e m acc w i r t,
     scheduled_upgrader.valid_id m = Some i →
     scheduled_upgrader.meets_threshold cfg m = false →
     scheduled_upgrader.db_record m (db w) = Some r →
     database.last_radarr_search r = Some (database.IsoText t) →
     clock w + Z.of_N (elapse e (clock_reads w)) - t
     = 20 * search_conditions.microseconds_per_hour →
     (scheduled_upgrader.consider cfg e m acc w).1 = Some acc)
  ∧ (∀ cfg e m acc w i r t,
     scheduled_upgrader.valid_id m = Some i →
     scheduled_upgrader.meets_threshold cfg m = false →
     scheduled_upgrader.db_record m (db w) = Some r →
     database.last_radarr_search r = Some (database.IsoText t) →
     clock w + Z.of_N (elapse e (clock_reads w)) - t
     = 25 * search_conditions.microseconds_per_hour →
     (scheduled_upgrader.consider cfg e m acc w).1
     = Some (acc ++ [(m, default 0 (sizeOnDisk m), t)])).
Proof.
  split_and!.
  - intros now db m r t Hr Ht Hage.
    rewrite (should_trigger_search_by_age _ _ _ _ _ Hr Ht).
    unfold search_conditions.days_between. rewrite Hage.
    rewrite Z.div_mul by done. reflexivity.
  - intros now db m r t Hr Ht Hage.
    rewrite (should_trigger_search_by_age _ _ _ _ _ Hr Ht).
    unfold search_conditions.days_between. rewrite Hage.
    rewrite Z.div_mul by done. reflexivity.
  - intros cfg e m acc w i r t Hid Hsize Hr Ht Hage.
    rewrite (consider_by_age _ _ _ _ _ _ _ _ Hid Hsize Hr Ht).
    unfold scheduled_upgrader.searched_recently. rewrite Hage. reflexivity.
  - intros cfg e m acc w i r t Hid Hsize Hr Ht Hage.
    rewrite (consider_by_age _ _ _ _ _ _ _ _ Hid Hsize Hr Ht).
    unfold scheduled_upgrader.searched_recently. rewrite Hage. reflexivity.
Qed.

(** A worked instance of C2, with a cache row searched at the instant
    1000 and the four ages of the claim. *)
Lemma cooldown_checks_witness :
  let rows := [sample_world.cache_row (Some "11") (Some "tt1") (Some "603")
                 (Some (database.IsoText 1000))] in
  let wanted := sample.item "Film" (Some "11") (Some "tt1") (Some (PStr "603")) in
  let held := sample.record 5 "Film" (Some "tt1") 603 (1024 ^ 3) [2] in
  let e := sample_world.env_of [] [] [] [] in
  search_conditions.should_trigger_search
    (1000 + 3 * search_conditions.microseconds_per_day) rows wanted = false
  ∧ search_conditions.should_trigger_search
      (1000 + 8 * search_conditions.microseconds_per_day) rows wanted = true
  ∧ (scheduled_upgrader.consider sample_world.cfg e held []
       (sample_world.world_at
          (1000 + 20 * search_conditions.microseconds_per_hour) rows)).1
    = Some []
  ∧ (scheduled_upgrader.consider sample_world.cfg e held []
       (sample_world.world_at
          (1000 + 25 * search_conditions.microseconds_per_hour) rows)).1
    = Some [(held, 1024 ^ 3, 1000)].
Proof.
  intros rows wanted held e.
  destruct cooldown_checks as (H3 & H8 & H20 & H25).
  split_and!.
  - apply (H3 _ rows wanted (sample_world.cache_row (Some "11") (Some "tt1")
                               (Some "603") (Some (database.IsoText 1000)))
              1000); [reflexivity | reflexivity | lia].
  - apply (H8 _ rows wanted (sample_world.cache_row (Some "11") (Some "tt1")
                               (Some "603") (Some (database.IsoText 1000)))
              1000); [reflexivity | reflexivity | lia].
  - apply (H20 sample_world.cfg e held [] _ 5
               (sample_world.cache_row (Some "11") (Some "tt1") (Some "603")
                  (Some (database.IsoText 1000))) 1000);
      [reflexivity | reflexivity | reflexivity | reflexivity | reflexivity].
  - apply (H25 sample_world.cfg e held [] _ 5
               (sample_world.cache_row (Some "11") (Some "tt1") (Some "603")
                  (Some (database.IsoText 1000))) 1000);
      [reflexivity | reflexivity | reflexivity | reflexivity | reflexivity].
Defined.

(** ** The tag registry and its cache *)

Lemma cache_of_lookup registry k :
  radarr_api.cache_of registry !! k
  = tag_id <$> last (filter (λ t, lower (label t) = k) registry).
Proof.
  unfold radarr_api.cache_of.
  induction registry as [|t registry IH] using rev_ind; [done|].
  rewrite foldl_snoc, filter_app, filter_cons, filter_nil.
  destruct (decide (lower (label t) = k)) as [<-|Hne].
  - by rewrite lookup_insert_eq, last_snoc.
  - rewrite lookup_insert_ne by done. by rewrite app_nil_r.
Qed.

Lemma cache_of_hit registry k :
  (∃ t, t ∈ registry ∧ lower (label t) = k) →
  ∃ t, t ∈ registry ∧ lower (label t) = k
       ∧ radarr_api.cache_of registry !! k = Some (tag_id t).
Proof.
  intros (t & Hin & Hk). rewrite cache_of_lookup.
  assert (t ∈ filter (λ t, lower (label t) = k) registry) as Hf
    by (by apply list_elem_of_filter).
  destruct (last (filter (λ t, lower (label t) = k) registry)) as [t'|] eqn:Hl.
  - exists t'. apply last_Some_elem_of, list_elem_of_filter in Hl as [? ?]. done.
  - apply last_None in Hl. rewrite Hl in Hf. by apply not_elem_of_nil in Hf.
Qed.

Lemma cache_of_miss registry k :
  (∀ t, t ∈ registry → lower (label t) ≠ k) →
  radarr_api.cache_of registry !! k = None.
Proof.
  intros Hno. rewrite cache_of_lookup.
  destruct (last _) as [t'|] eqn:Hl; [|done].
  apply last_Some_elem_of, list_elem_of_filter in Hl as [? ?].
  by destruct (Hno t').
Qed.

Lemma cached_id_cache_of registry k :
  radarr_api.cached_id (Some (radarr_api.cache_of registry)) k
  = radarr_api.cache_of registry !! k.
Proof.
  unfold radarr_api.cached_id. case_bool_decide as Hempty; [|done].
  by rewrite Hempty, lookup_empty.
Qed.

(** C10, as the code has it. With the tag cache filled from the registry
    (already, or by the
    listing this call makes), a label that matches a registered tag up to
    case yields that tag's id and no creation request; a label that
    matches none is created under its own spelling, and the cache then
    maps its lower-case form to the new id. *)
Theorem get_or_create_tag_case_insensitive e tag_name registry w :
  (tag_cache w = Some (radarr_api.cache_of registry)
   ∨ tag_cache w = None ∧ all_tags e (trace w) = Some registry) →
  let result := (radarr_api.get_or_create_tag e tag_name w).1 in
  let w' := (radarr_api.get_or_create_tag e tag_name w).2 in
  let listed := if tag_cache w is None then [(GetAllTags, true)] else [] in
  ((∃ t, t ∈ registry ∧ lower (label t) = lower tag_name) →
     (∃ t, t ∈ registry ∧ lower (label t) = lower tag_name
           ∧ result = Some (Some (tag_id t)))
     ∧ trace w' = trace w ++ listed)
  ∧ ((∀ t, t ∈ registry → lower (label t) ≠ lower tag_name) →
     let created := created_tag e (trace w ++ listed) tag_name in
     trace w' = trace w ++ listed
                ++ [(CreateTag tag_name, radarr_api.is_Some_bool created)]
     ∧ result = Some (tag_id <$> created)
     ∧ ∀ t, created = Some t →
            tag_cache w'
            = Some (<[lower tag_name := tag_id t]>
                      (radarr_api.cache_of registry))).
Proof.
  intros Hcache result w' listed.
  assert (∃ w1, trace w1 = trace w ++ listed
                ∧ tag_cache w1 = Some (radarr_api.cache_of registry)
                ∧ radarr_api.get_or_create_tag e tag_name w
                  = (match radarr_api.cache_of registry !! lower tag_name with
                     | Some i => run.ret (Some i)
                     | None => let* r := radarr_api.create_tag e tag_name in
                               run.ret (tag_id <$> r)
                     end) w1) as (w1 & Htr & Hc1 & Hrun).
  { destruct Hcache as [Hc|[Hc Hall]].
    - exists w. subst listed. rewrite Hc, app_nil_r. split_and!; [done..|].
      unfold radarr_api.get_or_create_tag, run.bind, run.get_tag_cache,
        run.ret. rewrite !Hc. by rewrite cached_id_cache_of.
    - exists ((radarr_api.get_all_tags e w).2). subst listed. rewrite Hc.
      assert (radarr_api.get_all_tags e w
              = (Some registry,
                 {| db := db w; counter_file := counter_file w;
                    counter_log := counter_log w; clock := clock w;
                    clock_reads := clock_reads w;
                    tag_cache := Some (radarr_api.cache_of registry);
                    trace := trace w ++ [(GetAllTags, true)] |})) as Hlist.
      { unfold radarr_api.get_all_tags, run.bind, run.request. cbn.
        rewrite Hall. reflexivity. }
      rewrite Hlist. split_and!; [done | done |].
      unfold radarr_api.get_or_create_tag, run.bind at 1 2,
        run.get_tag_cache at 1. rewrite Hc.
      unfold run.bind at 1. rewrite Hlist.
      unfold run.ret at 1. unfold run.bind at 1, run.get_tag_cache. cbn [tag_cache].
      by rewrite cached_id_cache_of. }
  subst result w'. rewrite Hrun. clear Hrun. split.
  - intros Hhit. apply cache_of_hit in Hhit as (t & Hin & Hk & Hget).
    rewrite Hget. simpl. split; [eauto | done].
  - intros Hmiss. apply cache_of_miss in Hmiss. rewrite Hmiss.
    unfold radarr_api.create_tag, run.bind, run.request. rewrite Htr.
    destruct (created_tag e (trace w ++ listed) tag_name) as [t|] eqn:Hcr;
      cbn; rewrite ?Hc1; cbn; rewrite ?Htr, <- ?app_assoc;
      (split_and!; [done | done | intros ? [= <-] || intros ? [=]; done]).
Qed.

(** A worked instance of C10: "friend-bob" finds the registered tag
    "Friend-Bob" through a fresh listing and creates nothing. *)
Lemma get_or_create_tag_case_insensitive_witness :
  let registry := [{| tag_id := 3; label := "Friend-Bob" |}] in
  let e := sample_world.env_of [] [] [] registry in
  let w := sample_world.world_at 0 [] in
  (radarr_api.get_or_create_tag e "friend-bob" w).1 = Some (Some 3)
  ∧ trace (radarr_api.get_or_create_tag e "friend-bob" w).2
    = [(GetAllTags, true)].
Proof.
  intros registry e w.
  destruct (get_or_create_tag_case_insensitive e "friend-bob" registry w)
    as [Hhit _].
  - right. split; reflexivity.
  - destruct Hhit as [(t & Hin & _ & Hres) Htr].
    + exists {| tag_id := 3; label := "Friend-Bob" |}.
      split; [apply list_elem_of_here | reflexivity].
    + apply list_elem_of_singleton in Hin. subst t. split; [exact Hres | exact Htr].
Defined.

(** C10 as worded fails when the listing fails: the registry holds
    "Friend-Bob", the first listing is not answered, and the call for
    "friend-bob" sends a creation request and leaves the cache unset. *)
Lemma failed_listing_creates_despite_match :
  let registry := [{| tag_id := 3; label := "Friend-Bob" |}] in
  let e := sample_faults.failing_first_listing
             (sample_world.env_of [] [] [] registry) in
  let w := sample_world.world_at 0 [] in
  let w' := (radarr_api.get_or_create_tag e "friend-bob" w).2 in
  all_tags e (trace w') = Some registry
  ∧ lower "Friend-Bob" = lower "friend-bob"
  ∧ (radarr_api.get_or_create_tag e "friend-bob" w).1 = Some (Some 7)
  ∧ trace w' = [(GetAllTags, false); (CreateTag "friend-bob", true)]
  ∧ tag_cache w' = None.
Proof. vm_compute. repeat split. Qed.

(** A worked instance of C7: a quality profile that changes from 1 to 2
    calls for an update, whichever way the ids are written. *)
Lemma needs_update_reflexive_and_sensitive_witness :
  differ.needs_update
    (sample.record 5 "Film" (Some "tt1") 603 0 [1])
    {| title := Some "Film"; year := None; ratingKey := None;
       imdbId := Some "tt1"; tmdbId := Some (PStr "603");
       plex_author_id := None; id := Some 5; sizeOnDisk := None;
       tags := Some [1]; monitored := Some (PBool true);
       qualityProfileId := Some (PStr "2");
       rootFolderPath := Some (PStr "/data/Movies/");
       path := Some (PStr "/data/Movies/Film");
       minimumAvailability := Some (PStr "released");
       addOptions := None |} = true.
Proof.
  destruct needs_update_reflexive_and_sensitive as (_ & Hfield & _ & _).
  apply (Hfield _ _ qualityProfileId).
  - apply list_elem_of_further, list_elem_of_here.
  - vm_compute. discriminate.
Defined.

(** Ids that differ only in how they are written (1 and "1") are equal
    under [str], so they alone call for no update. *)
Example needs_update_tolerates_drift :
  differ.needs_update
    (sample.record 5 "Film" (Some "tt1") 603 0 [1; 2])
    {| title := Some "Film"; year := None; ratingKey := None;
       imdbId := Some "tt1"; tmdbId := Some (PStr "603");
       plex_author_id := None; id := Some 5; sizeOnDisk := None;
       tags := Some [2; 1; 1]; monitored := Some (PStr "True");
       qualityProfileId := Some (PStr "1");
       rootFolderPath := Some (PStr "/data/Movies/");
       path := Some (PStr "/data/Movies/Film");
       minimumAvailability := Some (PStr "released");
       addOptions := Some {| searchForMovie := None |} |} = false.
Proof. vm_compute. reflexivity. Qed.

(** ** Reasoning about runs *)

Section triples.
Import run hoare.
Context {A B : Type}.

Lemma triple_ret (a : A) (P : world → Prop) Q E :
  (∀ w, P w → Q a w) → triple P (ret a) Q E.
Proof. intros H w Hw. by apply H. Qed.

Lemma triple_raise (P : world → Prop) (Q : A → world → Prop) (E : world → Prop) :
  (∀ w, P w → E w) → triple P raise Q E.
Proof. intros H w Hw. by apply H. Qed.

Lemma triple_bind (m : M A) (k : A → M B) P R Q E :
  triple P m R E → (∀ a, triple (R a) (k a) Q E) → triple P (bind m k) Q E.
Proof.
  intros Hm Hk w Hw. unfold bind. specialize (Hm w Hw).
  destruct (m w) as [[a|] w']; [by apply Hk | done].
Qed.

Lemma triple_weaken (m : M A) (P P' : world → Prop) Q Q' (E E' : world → Prop) :
  triple P' m Q' E' → (∀ w, P w → P' w) → (∀ a w, Q' a w → Q a w) →
  (∀ w, E' w → E w) → triple P m Q E.
Proof.
  intros Hm HP HQ HE w Hw. specialize (Hm w (HP w Hw)).
  destruct (m w) as [[a|] w']; [by apply HQ | by apply HE].
Qed.

End triples.

Lemma triple_for_each {X S} (body : X → S → run.M S) (I : S → world → Prop)
    (E : world → Prop) l :
  (∀ x s, x ∈ l → hoare.triple (I s) (body x s) I E) →
  ∀ s, hoare.triple (I s) (run.for_each body l s) I E.
Proof.
  induction l as [|x l IH]; intros Hbody s; simpl.
  - by apply triple_ret.
  - eapply triple_bind.
    + apply Hbody. apply list_elem_of_here.
    + intros s'. apply IH. intros y s'' Hy. apply Hbody.
      by apply list_elem_of_further.
Qed.

(** *** Calm computations *)

Lemma calmly_refl w : hoare.calmly w w.
Proof. unfold hoare.calmly. split_and!; done || lia. Qed.

Lemma calmly_trans w1 w2 w3 :
  hoare.calmly w1 w2 → hoare.calmly w2 w3 → hoare.calmly w1 w3.
Proof.
  unfold hoare.calmly. intros (?&?&?&?&?) (?&?&?&?&?).
  split_and!; try congruence. lia.
Qed.

Section calm_rules.
Import run hoare.
Context {A B : Type}.

Lemma calm_ret (a : A) : calm (ret a).
Proof. intros w. apply calmly_refl. Qed.

Lemma calm_raise : calm (@raise A).
Proof. intros w. apply calmly_refl. Qed.

Lemma calm_item (o : option A) : calm (item o).
Proof. destruct o; [apply calm_ret | apply calm_raise]. Qed.

Lemma calm_bind (m : M A) (k : A → M B) :
  calm m → (∀ a, calm (k a)) → calm (bind m k).
Proof.
  intros Hm Hk w. unfold bind. specialize (Hm w).
  destruct (m w) as [[a|] w']; simpl in *; [|done].
  eapply calmly_trans; [exact Hm | apply Hk].
Qed.

Lemma calm_read_db (f : list database.row → A) : calm (read_db f).
Proof. intros w. apply calmly_refl. Qed.

Lemma calm_request (c : call) (answer : list exchange → A) usable :
  (∀ i, c ≠ TriggerSearch i) → calm (request c answer usable).
Proof.
  intros Hc w. unfold calmly, request, attempted, granted; simpl.
  rewrite !List.filter_app, !length_app; simpl.
  destruct c as [| | | |i| |]; [| | | |by destruct (Hc i)| |]; simpl.
  all: rewrite ?Nat.add_0_r; split_and!; done || lia.
Qed.

End calm_rules.

Lemma calm_with_db f : hoare.calm (run.with_db f).
Proof. intros w. unfold hoare.calmly; simpl. split_and!; done || lia. Qed.

Lemma calm_read_counter : hoare.calm run.read_counter.
Proof. intros w. apply calmly_refl. Qed.

Lemma calm_get_tag_cache : hoare.calm run.get_tag_cache.
Proof. intros w. apply calmly_refl. Qed.

Lemma calm_set_tag_cache c : hoare.calm (run.set_tag_cache c).
Proof. intros w. unfold hoare.calmly; simpl. split_and!; done || lia. Qed.

Lemma calm_now e : hoare.calm (run.now e).
Proof. intros w. unfold hoare.calmly; simpl. split_and!; done || lia. Qed.

Lemma calm_for_each {X S} (body : X → S → run.M S) l s :
  (∀ x s, hoare.calm (body x s)) → hoare.calm (run.for_each body l s).
Proof.
  intros Hbody. revert s. induction l as [|x l IH]; intros s; simpl.
  - apply calm_ret.
  - apply calm_bind; [apply Hbody | apply IH].
Qed.

(** Break a goal [calm m] down along the structure of [m]. *)
Ltac calm_step :=
  lazymatch goal with
  | |- hoare.calm (run.ret _) => apply calm_ret
  | |- hoare.calm run.raise => apply calm_raise
  | |- hoare.calm (run.item _) => apply calm_item
  | |- hoare.calm (run.bind _ _) => apply calm_bind; [|intros ?]
  | |- hoare.calm (run.read_db _) => apply calm_read_db
  | |- hoare.calm (run.with_db _) => apply calm_with_db
  | |- hoare.calm run.read_counter => apply calm_read_counter
  | |- hoare.calm run.get_tag_cache => apply calm_get_tag_cache
  | |- hoare.calm (run.set_tag_cache _) => apply calm_set_tag_cache
  | |- hoare.calm (run.now _) => apply calm_now
  | |- hoare.calm (run.request _ _ _) => apply calm_request; by intros ?
  | |- hoare.calm (run.for_each _ _ _) => apply calm_for_each; intros ? ?
  | |- hoare.calm (match ?x with _ => _ end) => destruct x
  end.

Ltac calm := repeat calm_step.

Lemma calm_test_connection e : hoare.calm (radarr_api.test_connection e).
Proof. unfold radarr_api.test_connection. calm. Qed.

Lemma calm_get_all_movies e : hoare.calm (radarr_api.get_all_movies e).
Proof. unfold radarr_api.get_all_movies. calm. Qed.

Lemma calm_build_radarr_index e : hoare.calm (radarr_api.build_radarr_index e).
Proof.
  unfold radarr_api.build_radarr_index. calm. apply calm_get_all_movies.
Qed.

Lemma calm_add_movie e payload : hoare.calm (radarr_api.add_movie e payload).
Proof. unfold radarr_api.add_movie. calm. Qed.

Lemma calm_update_movie e i payload :
  hoare.calm (radarr_api.update_movie e i payload).
Proof. unfold radarr_api.update_movie. calm. Qed.

Lemma calm_get_or_create_tag e tag_name :
  hoare.calm (radarr_api.get_or_create_tag e tag_name).
Proof.
  unfold radarr_api.get_or_create_tag, radarr_api.get_all_tags,
    radarr_api.create_tag. calm.
Qed.

Lemma calm_read_daily_search_count e :
  hoare.calm (effects.read_daily_search_count e).
Proof. unfold effects.read_daily_search_count. calm. Qed.

Lemma calm_mark_movie_as_searched e m :
  hoare.calm (effects.mark_movie_as_searched e m).
Proof. unfold effects.mark_movie_as_searched. calm. Qed.

Lemma calm_mark_movie_as_processed e m :
  hoare.calm (effects.mark_movie_as_processed e m).
Proof. unfold effects.mark_movie_as_processed. calm. Qed.

Lemma calm_friend_tag cfg e m : hoare.calm (main.friend_tag cfg e m).
Proof.
  unfold main.friend_tag. calm. apply calm_get_or_create_tag.
Qed.

Lemma calm_update_existing e dry_run radarr_movie i payload :
  hoare.calm (main.update_existing e dry_run radarr_movie i payload).
Proof.
  unfold main.update_existing. calm.
  - apply calm_update_movie.
  - apply calm_mark_movie_as_processed.
Qed.

Lemma calm_clear_tag cfg e dry_run m u :
  hoare.calm (scheduled_upgrader.clear_tag cfg e dry_run m u).
Proof.
  unfold scheduled_upgrader.clear_tag, scheduled_upgrader.remove_tag_from_movie.
  calm.
  - apply calm_update_movie.
  - apply calm_mark_movie_as_processed.
Qed.

Lemma calm_consider cfg e m acc :
  hoare.calm (scheduled_upgrader.consider cfg e m acc).
Proof. unfold scheduled_upgrader.consider. calm. Qed.

(** ** Invariants of the two loops *)

(** An assertion on the loop variables and the world that calm steps
    keep, that holds on exit by an exception as [E], and that a search
    made within the limits re-establishes, is an invariant of the sync
    loop. *)
Section sync_invariant.
Import run hoare.
Variables (cfg : config) (e : env).
Variables (I : counters → world → Prop) (E : world → Prop).
Hypothesis I_calm : ∀ c w w', I c w → calmly w w' → I c w'.
Hypothesis I_exit : ∀ c w, I c w → E w.
Hypothesis I_search : ∀ marked movie_id c,
  main.limit_reached cfg c = false →
  triple (I c) (main.search_and_record e marked movie_id c) I E.

Lemma triple_calm {A} (m : M A) c : calm m → triple (I c) m (λ _, I c) E.
Proof.
  intros Hm w Hw. specialize (Hm w).
  destruct (m w) as [[a|] w']; simpl in *.
  - by eapply I_calm.
  - eapply I_exit, I_calm; eauto.
Qed.

Lemma triple_keep c : triple (I c) (ret c) I E.
Proof. by apply triple_ret. Qed.

Lemma handle_new_inv dry_run m friend_tag_id c :
  triple (I c) (main.handle_new cfg e dry_run m friend_tag_id c) I E.
Proof.
  unfold main.handle_new.
  destruct (negb _); [apply triple_keep|].
  destruct (int _); [|apply triple_keep].
  destruct dry_run; [apply triple_keep|].
  eapply triple_bind; [apply triple_calm, calm_add_movie|].
  intros [added|]; [|apply triple_keep].
  eapply triple_bind; [apply triple_calm, calm_mark_movie_as_processed|].
  intros ?. destruct (main.limit_reached cfg c) eqn:Hlimit; [apply triple_keep|].
  eapply triple_bind; [apply triple_calm, calm_item|].
  intros added_id. by apply I_search.
Qed.

Lemma search_existing_inv dry_run eligible m movie_id c :
  triple (I c) (main.search_existing cfg e dry_run eligible m movie_id c) I E.
Proof.
  unfold main.search_existing.
  destruct (negb dry_run && eligible); [|apply triple_keep].
  eapply triple_bind; [apply triple_calm, calm_read_db|].
  intros [|]; [apply triple_keep|].
  destruct (main.limit_reached cfg c) eqn:Hlimit; [apply triple_keep|].
  by apply I_search.
Qed.

Lemma handle_existing_inv dry_run m radarr_movie friend_tag_id c :
  triple (I c)
    (main.handle_existing cfg e dry_run m radarr_movie friend_tag_id c) I E.
Proof.
  unfold main.handle_existing.
  eapply triple_bind; [apply triple_calm, calm_item|]. intros movie_title.
  eapply triple_bind; [apply triple_calm, calm_item|]. intros movie_id.
  eapply triple_bind; [apply triple_calm, calm_item|]. intros payload.
  eapply triple_bind; [apply triple_calm, calm_update_existing|]. intros ?.
  apply search_existing_inv.
Qed.

Lemma process_movie_inv dry_run radarr_index m c :
  triple (I c) (main.process_movie cfg e dry_run radarr_index m c) I E.
Proof.
  unfold main.process_movie.
  eapply triple_bind; [apply triple_calm, calm_with_db|]. intros ?.
  eapply triple_bind; [apply triple_calm, calm_friend_tag|].
  intros friend_tag_id.
  destruct (main.resolve _ _) as [radarr_movie|]; [|apply handle_new_inv].
  case_bool_decide; [|apply handle_existing_inv].
  eapply triple_bind; [apply triple_calm, calm_item|]. intros ?.
  apply triple_keep.
Qed.

Lemma sync_loop_inv dry_run radarr_index l c :
  triple (I c)
    (for_each (main.process_movie cfg e dry_run radarr_index) l c) I E.
Proof. apply triple_for_each. intros. apply process_movie_inv. Qed.

End sync_invariant.

(** The same for the search loop of the sweep, where a search is made
    whenever the daily limit is not reached and a dry run counts without
    searching. *)
Section sweep_invariant.
Import run hoare.
Variables (cfg : config) (e : env).
Variables (I : counters → world → Prop) (E : world → Prop).
Hypothesis I_search : ∀ marked movie_id c,
  reached (max_daily_searches cfg) (daily_search_count c) = false →
  triple (I c) (main.search_and_record e marked movie_id c) I E.
Hypothesis I_counted : ∀ c w,
  I c w → I {| run_search_count := run_search_count c + 1;
               daily_search_count := daily_search_count c |} w.

Lemma search_loop_inv dry_run per_run_search_limit l :
  ∀ i c, triple (I c)
      (scheduled_upgrader.search_loop cfg e dry_run per_run_search_limit i l c)
      I E.
Proof.
  induction l as [|[[m size] last] l IH]; intros i c; simpl.
  - by apply triple_ret.
  - destruct (per_run_search_limit <=? i); [by apply triple_ret|].
    destruct (reached _ _) eqn:Hdaily; [by apply triple_ret|].
    destruct dry_run.
    + eapply triple_weaken; [apply IH | | done | done].
      intros w Hw. by apply I_counted.
    + eapply triple_bind; [by apply I_search|]. intros c'. apply IH.
Qed.

End sweep_invariant.

(** ** Search admission *)

Lemma date_of_mono t1 t2 :
  t1 ≤ t2 → search_conditions.date_of t1 ≤ search_conditions.date_of t2.
Proof.
  intros H. unfold search_conditions.date_of.
  apply Z.div_le_mono; [done | done].
Qed.

(** What a recorded search does to the world. *)
Lemma record_search_effect e marked c w :
  ∃ t1 t2 w',
    main.record_search e marked c w = (Some (searched c), w')
    ∧ clock w ≤ t1 ≤ t2 ∧ clock w' = t2 ∧ trace w' = trace w
    ∧ counter_file w'
      = Some (search_conditions.date_of t1,
              search_conditions.read_daily_search_count
                (search_conditions.date_of t2) (counter_file w) + 1)
    ∧ counter_log w'
      = counter_log w
        ++ [(search_conditions.date_of t1,
             search_conditions.read_daily_search_count
               (search_conditions.date_of t2) (counter_file w) + 1)].
Proof.
  unfold main.record_search, effects.mark_movie_as_searched,
    effects.increment_daily_search_count, effects.read_daily_search_count,
    run.bind, run.now, run.with_db, run.read_counter, run.write_counter,
    run.ret; simpl.
  exists (clock w + Z.of_N (elapse e (clock_reads w))
          + Z.of_N (elapse e (S (clock_reads w)))),
         (clock w + Z.of_N (elapse e (clock_reads w))
          + Z.of_N (elapse e (S (clock_reads w)))
          + Z.of_N (elapse e (S (S (clock_reads w))))).
  eexists. split; [reflexivity|]. simpl.
  split_and!; [lia | lia | done | done | done | done].
Qed.

(** What a search request does to the trace. *)
Lemma trigger_search_effect e movie_id w :
  ∃ r w', radarr_api.trigger_search e movie_id w = (Some r, w')
          ∧ trace w' = trace w ++ [(TriggerSearch movie_id, r)]
          ∧ counter_file w' = counter_file w
          ∧ counter_log w' = counter_log w ∧ clock w' = clock w.
Proof.
  unfold radarr_api.trigger_search, run.request. eexists _, _.
  split; [reflexivity|]. simpl. done.
Qed.

Lemma attempted_snoc tr x :
  hoare.attempted (tr ++ [x])
  = hoare.attempted tr + (if hoare.attempted_search x then 1 else 0).
Proof.
  unfold hoare.attempted. rewrite List.filter_app, length_app. simpl.
  destruct (hoare.attempted_search x); simpl; lia.
Qed.

Lemma granted_snoc tr x :
  hoare.granted (tr ++ [x])
  = hoare.granted tr + (if hoare.granted_search x then 1 else 0).
Proof.
  unfold hoare.granted. rewrite List.filter_app, length_app. simpl.
  destruct (hoare.granted_search x); simpl; lia.
Qed.

(** *** The limit of one run *)

Section per_run.
Import run hoare.
Variables (cfg : config) (e : env) (limit : Z) (g0 : Z).
Hypothesis Hlimit : searches_per_run cfg = Some limit.

Local Abbreviation run_inv := (jobs.run_inv limit g0).
Local Abbreviation run_exit := (jobs.run_exit limit g0).

Lemma run_inv_calm c w w' : run_inv c w → calmly w w' → run_inv c w'.
Proof.
  unfold jobs.run_inv. intros [? ?] (_ & _ & _ & _ & Hg). rewrite Hg. done.
Qed.

Lemma run_inv_exit c w : run_inv c w → run_exit w.
Proof. unfold jobs.run_inv, jobs.run_exit. lia. Qed.

Lemma run_inv_search marked movie_id c :
  main.limit_reached cfg c = false →
  triple (run_inv c) (main.search_and_record e marked movie_id c)
         run_inv run_exit.
Proof.
  intros Hreached w [Hg Hc]. unfold main.search_and_record, bind.
  destruct (trigger_search_effect e movie_id w) as (r & w1 & -> & Htr & _).
  unfold main.limit_reached in Hreached. rewrite Hlimit in Hreached.
  apply orb_false_iff in Hreached as [_ Hrun]. simpl in Hrun.
  apply Z.leb_gt in Hrun.
  destruct r.
  - destruct (record_search_effect e marked c w1)
      as (t1 & t2 & w2 & -> & _ & _ & Htr2 & _).
    unfold jobs.run_inv. rewrite Htr2, Htr, granted_snoc. simpl. lia.
  - unfold ret, run_inv. rewrite Htr, granted_snoc. simpl. lia.
Qed.

Lemma process_watchlist_within_run_limit dry_run w :
  g0 = granted (trace w) →
  run_exit (main.process_watchlist cfg e dry_run w).2.
Proof.
  intros Hg0.
  assert (triple (λ w', calmly w w') (main.process_watchlist cfg e dry_run)
                 (λ _, run_exit) run_exit) as Hrun.
  { assert (∀ w', calmly w w' → run_inv {| run_search_count := 0;
                                           daily_search_count := 0 |} w')
      as Hstart.
    { intros w' (_ & _ & _ & _ & Hg). unfold jobs.run_inv. simpl. lia. }
    assert (∀ {A} (m : M A), calm m →
              triple (λ w', calmly w w') m (λ _ w', calmly w w') run_exit)
      as Hcalm.
    { intros A m Hm w' Hw'. specialize (Hm w').
      destruct (m w') as [[a|] w'']; simpl in *.
      - by eapply calmly_trans.
      - eapply run_inv_exit, Hstart, calmly_trans; eauto. }
    unfold main.process_watchlist.
    eapply triple_bind; [apply Hcalm, calm_test_connection|].
    intros [|]; simpl.
    2:{ apply triple_ret. intros w' Hw'. by eapply run_inv_exit, Hstart. }
    eapply triple_bind; [apply Hcalm, calm_with_db|]. intros ?.
    eapply triple_bind; [apply Hcalm, calm_build_radarr_index|].
    intros radarr_index.
    eapply triple_bind; [apply Hcalm, calm_read_daily_search_count|].
    intros daily.
    eapply triple_bind.
    - eapply triple_weaken.
      + apply (sync_loop_inv cfg e run_inv run_exit run_inv_calm run_inv_exit
                 run_inv_search).
      + intros w' (_ & _ & _ & _ & Hg). unfold jobs.run_inv. simpl. lia.
      + intros c w' Hc. exact Hc.
      + done.
    - intros c w' Hc. unfold effects.save_daily_search_count, bind, now,
        write_counter. simpl. by eapply run_inv_exit. }
  specialize (Hrun w (calmly_refl w)).
  destruct (main.process_watchlist cfg e dry_run w) as [[[]|] w']; done.
Qed.

End per_run.
Lemma search_and_record_effect e marked movie_id c w :
  ∃ c' w', main.search_and_record e marked movie_id c w = (Some c', w')
    ∧ hoare.attempted (trace w') = hoare.attempted (trace w) + 1
    ∧ hoare.granted (trace w) ≤ hoare.granted (trace w')
      ≤ hoare.granted (trace w) + 1.
Proof.
  unfold main.search_and_record, run.bind.
  destruct (trigger_search_effect e movie_id w) as (r & w1 & -> & Htr & _).
  destruct r.
  - destruct (record_search_effect e marked c w1)
      as (t1 & t2 & w2 & -> & _ & _ & Htr2 & _).
    eexists _, _. split; [reflexivity|].
    rewrite Htr2, Htr, attempted_snoc, granted_snoc. simpl. lia.
  - eexists _, _. split; [reflexivity|].
    rewrite Htr, attempted_snoc, granted_snoc. simpl. lia.
Qed.

(** The search loop of the sweep requests at most as many searches as the
    limit leaves from [i] on, and always returns. *)
Lemma search_loop_within_limit cfg e dry_run limit l :
  ∀ i c w,
    ∃ c' w',
      scheduled_upgrader.search_loop cfg e dry_run limit i l c w = (Some c', w')
      ∧ hoare.attempted (trace w') - hoare.attempted (trace w)
        ≤ Z.max 0 (limit - i)
      ∧ hoare.granted (trace w') - hoare.granted (trace w)
        ≤ Z.max 0 (limit - i).
Proof.
  induction l as [|[[m size] last] l IH]; intros i c w; simpl.
  - eexists _, _. split; [reflexivity|]. lia.
  - destruct (limit <=? i) eqn:Hi.
    { eexists _, _. split; [reflexivity|]. lia. }
    apply Z.leb_gt in Hi.
    destruct (reached _ _).
    { eexists _, _. split; [reflexivity|]. lia. }
    destruct dry_run.
    + destruct (IH (i + 1) {| run_search_count := run_search_count c + 1;
                              daily_search_count := daily_search_count c |} w)
        as (c' & w' & -> & ? & ?).
      eexists _, _. split; [reflexivity|]. lia.
    + unfold run.bind.
      destruct (search_and_record_effect e m (default 0 (id m)) c w)
        as (c1 & w1 & -> & ? & ?).
      destruct (IH (i + 1) c1 w1) as (c' & w' & -> & ? & ?).
      eexists _, _. split; [reflexivity|]. lia.
Qed.

Lemma sweep_exit_calm limit w w' :
  hoare.calmly w w' →
  jobs.sweep_exit limit (hoare.attempted (trace w)) (hoare.granted (trace w)) w'.
Proof.
  intros (_ & _ & _ & Ha & Hg). unfold jobs.sweep_exit. rewrite Ha, Hg. lia.
Qed.

Lemma job_upgrade_within_run_limit cfg e dry_run limit w :
  searches_per_run cfg = Some limit →
  jobs.sweep_exit limit (hoare.attempted (trace w)) (hoare.granted (trace w))
    (scheduled_upgrader.job_upgrade cfg e dry_run w).2.
Proof.
  intros Hlimit.
  set (exit := jobs.sweep_exit limit (hoare.attempted (trace w))
                 (hoare.granted (trace w))).
  assert (∀ {A} (m : run.M A), hoare.calm m →
            hoare.triple (λ w', hoare.calmly w w') m
                         (λ _ w', hoare.calmly w w') exit) as Hcalm.
  { intros A m Hm w' Hw'. specialize (Hm w').
    destruct (m w') as [[a|] w'']; simpl in *.
    - by eapply calmly_trans.
    - eapply sweep_exit_calm, calmly_trans; eauto. }
  assert (hoare.triple (λ w', hoare.calmly w w')
            (scheduled_upgrader.sweep cfg e dry_run) (λ _, exit) exit)
    as Hbody.
  { unfold scheduled_upgrader.sweep. rewrite Hlimit.
    eapply triple_bind; [apply Hcalm, calm_get_all_movies|].
    intros all_radarr_movies.
    destruct (List.filter _ all_radarr_movies) as [|m0 ms] eqn:Hfilter.
    { apply triple_ret. intros w' Hw'. by apply sweep_exit_calm. }
    eapply triple_bind.
    { apply Hcalm, calm_for_each. intros. apply calm_clear_tag. }
    intros ?.
    eapply triple_bind; [apply Hcalm, calm_read_daily_search_count|].
    intros daily.
    eapply triple_bind.
    { apply Hcalm, calm_for_each. intros. apply calm_consider. }
    intros found.
    intros w1 Hw1. unfold run.item, run.bind, run.ret.
    match goal with
    | |- context [scheduled_upgrader.search_loop ?a ?b ?c ?d ?i ?l ?s w1] =>
        destruct (search_loop_within_limit a b c d l i s w1)
          as (c' & w2 & -> & Ha & Hg)
    end.
    simpl. destruct Hw1 as (_ & _ & _ & Ha1 & Hg1).
    unfold exit, jobs.sweep_exit. simpl. lia. }
  unfold scheduled_upgrader.job_upgrade, run.catch. simpl.
  specialize (Hbody w (calmly_refl w)).
  by destruct (scheduled_upgrader.sweep cfg e dry_run w) as [[[]|] w'].
Qed.
(** *** The limit of one day *)

Section per_day.
Import run hoare search_conditions.
Variables (cfg : config) (limit : Z).
Hypothesis Hlimit : max_daily_searches cfg = Some limit.
Hypothesis Hpos : 0 ≤ limit.

Lemma counter_ok_calm w w' :
  jobs.counter_ok limit w → calmly w w' → jobs.counter_ok limit w'.
Proof.
  unfold jobs.counter_ok. intros [Hfile Hlog] (Hf & Hl & Hclock & _).
  rewrite Hf, Hl. split; [|done].
  destruct (counter_file w) as [[date count]|]; [|done].
  destruct Hfile as [Hdate Hcount]. split; [|done].
  etrans; [exact Hdate | by apply date_of_mono].
Qed.

Lemma daily_inv_calm c w w' :
  jobs.daily_inv limit c w → calmly w w' → jobs.daily_inv limit c w'.
Proof.
  intros (Hok & Hc & Hrel) Hcalm.
  split; [by eapply counter_ok_calm|]. split; [done|].
  destruct Hcalm as (Hf & _ & Hclock & _). rewrite Hf.
  intros date count Hfile Hdate. apply (Hrel date count Hfile).
  destruct Hok as [Hfile_ok _]. rewrite Hfile in Hfile_ok.
  destruct Hfile_ok as [Hle _].
  pose proof (date_of_mono _ _ Hclock). lia.
Qed.

Lemma daily_inv_exit c w : jobs.daily_inv limit c w → jobs.counter_ok limit w.
Proof. by intros (? & _). Qed.

Lemma daily_inv_counted c w :
  jobs.daily_inv limit c w →
  jobs.daily_inv limit {| run_search_count := run_search_count c + 1;
                          daily_search_count := daily_search_count c |} w.
Proof. done. Qed.

(** The count read back is never above the one the run carries. *)
Lemma read_within_run c w t :
  jobs.daily_inv limit c w → clock w ≤ t →
  0 ≤ read_daily_search_count (date_of t) (counter_file w)
    ≤ daily_search_count c.
Proof.
  intros ([Hfile _] & Hc & Hrel) Ht. unfold read_daily_search_count.
  destruct (counter_file w) as [[date count]|] eqn:Hf; [|lia].
  destruct Hfile as [Hdate Hcount].
  destruct (date =? date_of t) eqn:Heq; [|lia].
  apply Z.eqb_eq in Heq. split; [lia|]. apply (Hrel date count eq_refl).
  pose proof (date_of_mono _ _ Ht). lia.
Qed.

Lemma daily_inv_search e marked movie_id c :
  reached (max_daily_searches cfg) (daily_search_count c) = false →
  triple (jobs.daily_inv limit c) (main.search_and_record e marked movie_id c)
         (jobs.daily_inv limit) (jobs.counter_ok limit).
Proof.
  rewrite Hlimit. simpl. intros Hbelow%Z.leb_gt w Hw.
  unfold main.search_and_record, bind.
  destruct (trigger_search_effect e movie_id w)
    as (r & w1 & -> & _ & Hf1 & Hl1 & Hc1).
  assert (jobs.daily_inv limit c w1) as Hw1.
  { destruct Hw as ([Hfile Hlog] & Hc & Hrel).
    unfold jobs.daily_inv, jobs.counter_ok. rewrite Hf1, Hl1, Hc1. done. }
  destruct r; [|exact Hw1].
  destruct (record_search_effect e marked c w1)
    as (t1 & t2 & w2 & -> & Ht & Hclock & _ & Hfile2 & Hlog2).
  pose proof (read_within_run c w1 t2 Hw1 ltac:(lia)) as Hread.
  destruct Hw1 as ([_ Hlog] & Hc & _).
  unfold jobs.daily_inv, jobs.counter_ok.
  rewrite Hfile2, Hlog2, Hclock. simpl.
  assert (search_conditions.date_of t1 ≤ search_conditions.date_of t2)
    by (apply date_of_mono; lia).
  split; [split; [lia|]|split; [lia|]].
  - apply Forall_app. split; [done|]. apply Forall_singleton. simpl. lia.
  - intros date count [= <- <-] _. lia.
Qed.

Lemma daily_inv_search_sync e marked movie_id c :
  main.limit_reached cfg c = false →
  triple (jobs.daily_inv limit c) (main.search_and_record e marked movie_id c)
         (jobs.daily_inv limit) (jobs.counter_ok limit).
Proof.
  unfold main.limit_reached. intros [? _]%orb_false_iff.
  by apply daily_inv_search.
Qed.

(** Calm steps keep the file sound, whatever their outcome. *)
Lemma counter_ok_step {A} (m : M A) :
  calm m →
  triple (jobs.counter_ok limit) m (λ _, jobs.counter_ok limit)
         (jobs.counter_ok limit).
Proof.
  intros Hm w Hw. specialize (Hm w).
  destruct (m w) as [[a|] w']; by eapply counter_ok_calm.
Qed.

(** Reading the count opens the run's invariant. *)
Lemma read_daily_opens e :
  triple (jobs.counter_ok limit) (effects.read_daily_search_count e)
    (λ daily, jobs.daily_inv limit {| run_search_count := 0;
                                      daily_search_count := daily |})
    (jobs.counter_ok limit).
Proof.
  intros w [Hfile Hlog].
  unfold effects.read_daily_search_count, bind, now, read_counter, ret. simpl.
  set (t := clock w + Z.of_N (elapse e (clock_reads w))).
  assert (clock w ≤ t) as Ht by (unfold t; lia).
  pose proof (date_of_mono _ _ Ht) as Hd.
  unfold jobs.daily_inv, jobs.counter_ok, read_daily_search_count. simpl.
  destruct (counter_file w) as [[date count]|]; simpl.
  - destruct Hfile as [Hdate Hcount].
    destruct (date =? date_of t) eqn:Heq.
    + split_and!; try done; try lia. intros ? ? [= <- <-] _. lia.
    + apply Z.eqb_neq in Heq.
      split_and!; try done; try lia. intros ? ? [= <- <-] ?. lia.
  - split_and!; try done; lia.
Qed.

(** Saving the count the run carries closes it. *)
Lemma save_daily_closes e c :
  triple (jobs.daily_inv limit c)
    (effects.save_daily_search_count e (daily_search_count c))
    (λ _, jobs.counter_ok limit) (jobs.counter_ok limit).
Proof.
  intros w ([Hfile Hlog] & Hc & _).
  unfold effects.save_daily_search_count, bind, now, write_counter. simpl.
  unfold jobs.counter_ok. simpl. split; [lia|].
  apply Forall_app. split; [done|]. apply Forall_singleton. simpl. lia.
Qed.

Lemma process_watchlist_keeps_counter e dry_run w :
  jobs.counter_ok limit w →
  jobs.counter_ok limit (main.process_watchlist cfg e dry_run w).2.
Proof.
  intros Hw.
  assert (triple (jobs.counter_ok limit) (main.process_watchlist cfg e dry_run)
                 (λ _, jobs.counter_ok limit) (jobs.counter_ok limit)) as Hrun.
  { unfold main.process_watchlist.
    eapply triple_bind; [apply counter_ok_step, calm_test_connection|].
    intros [|]; simpl; [|by apply triple_ret].
    eapply triple_bind; [apply counter_ok_step, calm_with_db|]. intros ?.
    eapply triple_bind; [apply counter_ok_step, calm_build_radarr_index|].
    intros radarr_index.
    eapply triple_bind; [apply read_daily_opens|]. intros daily.
    eapply triple_bind.
    - apply (sync_loop_inv cfg e (jobs.daily_inv limit) (jobs.counter_ok limit)
               daily_inv_calm daily_inv_exit
               (daily_inv_search_sync e)).
    - intros c. apply save_daily_closes. }
  specialize (Hrun w Hw).
  by destruct (main.process_watchlist cfg e dry_run w) as [[[]|] w'].
Qed.

Lemma job_upgrade_keeps_counter e dry_run w :
  jobs.counter_ok limit w →
  jobs.counter_ok limit (scheduled_upgrader.job_upgrade cfg e dry_run w).2.
Proof.
  intros Hw.
  assert (triple (jobs.counter_ok limit) (scheduled_upgrader.sweep cfg e dry_run)
                 (λ _, jobs.counter_ok limit) (jobs.counter_ok limit)) as Hrun.
  { unfold scheduled_upgrader.sweep.
    eapply triple_bind; [apply counter_ok_step, calm_get_all_movies|].
    intros all_radarr_movies.
    destruct (List.filter _ all_radarr_movies) as [|m0 ms];
      [by apply triple_ret|].
    eapply triple_bind.
    { apply counter_ok_step, calm_for_each. intros. apply calm_clear_tag. }
    intros ?.
    eapply triple_bind; [apply read_daily_opens|]. intros daily.
    eapply triple_bind.
    { apply (triple_calm (jobs.daily_inv limit) (jobs.counter_ok limit)
               daily_inv_calm daily_inv_exit).
      apply calm_for_each. intros. apply calm_consider. }
    intros found.
    eapply triple_bind.
    { apply (triple_calm (jobs.daily_inv limit) (jobs.counter_ok limit)
               daily_inv_calm daily_inv_exit), calm_item. }
    intros per_run_search_limit.
    eapply triple_bind.
    - apply (search_loop_inv cfg e (jobs.daily_inv limit)
               (jobs.counter_ok limit) (daily_inv_search e) daily_inv_counted).
    - intros c. apply save_daily_closes. }
  unfold scheduled_upgrader.job_upgrade, catch. simpl.
  specialize (Hrun w Hw).
  by destruct (scheduled_upgrader.sweep cfg e dry_run w) as [[[]|] w'].
Qed.

Lemma run_jobs_keep_counter js w :
  jobs.counter_ok limit w → jobs.counter_ok limit (jobs.run_jobs cfg js w).
Proof.
  unfold jobs.run_jobs. revert w.
  induction js as [|j js IH]; intros w Hw; simpl; [done|].
  apply IH. destruct j as [dry_run e|dry_run e]; simpl.
  - by apply process_watchlist_keeps_counter.
  - by apply job_upgrade_keeps_counter.
Qed.

End per_day.

(** C1, as the code has it. When the per-run limit is set, the searches
    that one sync run gets Radarr to take, and the searches that one
    sweep requests at all, number at most that limit (none when it is
    below one). When the daily limit is set and the counter file starts
    out sound for it, it stays so through any sequence of runs of the two
    jobs on that file: its count, and every count ever written to it, is
    at most the limit. *)
Theorem search_admission_within_limits cfg :
  (∀ limit e dry_run w,
     searches_per_run cfg = Some limit →
     hoare.granted (trace (main.process_watchlist cfg e dry_run w).2)
     - hoare.granted (trace w) ≤ Z.max 0 limit)
  ∧ (∀ limit e dry_run w,
     searches_per_run cfg = Some limit →
     hoare.attempted (trace (scheduled_upgrader.job_upgrade cfg e dry_run w).2)
     - hoare.attempted (trace w) ≤ Z.max 0 limit
     ∧ hoare.granted (trace (scheduled_upgrader.job_upgrade cfg e dry_run w).2)
       - hoare.granted (trace w) ≤ Z.max 0 limit)
  ∧ (∀ limit js w,
     max_daily_searches cfg = Some limit → 0 ≤ limit →
     jobs.counter_ok limit w →
     jobs.counter_ok limit (jobs.run_jobs cfg js w)).
Proof.
  split_and!.
  - intros limit e dry_run w Hlimit.
    by apply (process_watchlist_within_run_limit cfg e limit _ Hlimit).
  - intros limit e dry_run w Hlimit.
    by apply job_upgrade_within_run_limit.
  - intros limit js w Hlimit Hpos. by apply run_jobs_keep_counter.
Qed.

(** A worked instance of C1: five new movies against a limit of three
    searches a run, then a sweep and a second sync on the same file
    against a limit of five a day. *)
Lemma search_admission_within_limits_witness :
  let e1 := sample_world.env_of [] sample_runs.five_new [] [] in
  let e2 := sample_world.env_of sample_runs.library [] [] [] in
  let w0 := sample_world.world_at sample_runs.in_2026 [] in
  hoare.granted (trace (main.process_watchlist sample_world.cfg e1 false w0).2)
  - hoare.granted (trace w0) ≤ Z.max 0 3
  ∧ jobs.counter_ok 5
      (jobs.run_jobs sample_world.cfg
         [jobs.Sync false e1; jobs.Sweep false e2; jobs.Sync false e1] w0).
Proof.
  intros e1 e2 w0.
  destruct (search_admission_within_limits sample_world.cfg)
    as (Hsync & _ & Hday).
  split.
  - apply Hsync. reflexivity.
  - apply Hday.
    + reflexivity.
    + lia.
    + split; [exact I | apply Forall_nil_2].
Defined.

(** C1 as worded fails for the sync: it counts a search when Radarr
    takes it, so with a Radarr that refuses every search the run of five
    new movies sends five search requests against a limit of three a
    run, none of them counted. *)
Lemma refused_searches_are_not_counted :
  let e := sample_faults.refusing_searches
             (sample_world.env_of [] sample_runs.five_new [] []) in
  let w0 := sample_world.world_at sample_runs.in_2026 [] in
  let w' := (main.process_watchlist sample_world.cfg e false w0).2 in
  searches_per_run sample_world.cfg = Some 3
  ∧ hoare.attempted (trace w') - hoare.attempted (trace w0) = 5
  ∧ hoare.granted (trace w') - hoare.granted (trace w0) = 0
  ∧ counter_file w' = Some (search_conditions.date_of sample_runs.in_2026, 0).
Proof. vm_compute. repeat split. Qed.

(** What those runs do, computed: the sync takes three searches for its
    five additions; the sweep, moments later, clears a tag and searches
    nothing; the second sync, which again finds Radarr empty, takes the
    two searches the day has left. *)
Example three_runs_computed :
  let e1 := sample_world.env_of [] sample_runs.five_new [] [] in
  let e2 := sample_world.env_of sample_runs.library [] [] [] in
  let w0 := sample_world.world_at sample_runs.in_2026 [] in
  let w1 := jobs.run_jobs sample_world.cfg [jobs.Sync false e1] w0 in
  let w2 := jobs.run_jobs sample_world.cfg [jobs.Sweep false e2] w1 in
  let w3 := jobs.run_jobs sample_world.cfg [jobs.Sync false e1] w2 in
  hoare.granted (trace w1) = 3
  ∧ hoare.granted (trace w2) = 3
  ∧ hoare.granted (trace w3) = 5
  ∧ counter_file w3 = Some (search_conditions.date_of sample_runs.in_2026, 5)
  ∧ (counter_log w3).*2 = [1; 2; 3; 3; 3; 4; 5; 5].
Proof. vm_compute. repeat split. Qed.

(** ** The upgrade tag *)

Lemma Qltb_true a b : Qltb a b = true ↔ (a < b)%Q.
Proof.
  unfold Qltb. rewrite negb_true_iff. split.
  - intros H. apply Qnot_le_lt. intros Hle.
    apply Qle_bool_iff in Hle. congruence.
  - intros H. apply not_true_is_false. intros Hle%Qle_bool_iff.
    by apply (Qlt_not_le _ _ H).
Qed.

Lemma bytes_per_gb_pos : (0 < inject_Z bytes_per_gb)%Q.
Proof. reflexivity. Qed.

Lemma size_in_gb_lt size_bytes g :
  (main.movie_size_gb size_bytes < g)%Q
  ↔ (inject_Z size_bytes < g * inject_Z bytes_per_gb)%Q.
Proof.
  assert (main.movie_size_gb size_bytes
          == inject_Z size_bytes / inject_Z bytes_per_gb)%Q as ->.
  { unfold main.movie_size_gb. destruct (size_bytes =? 0) eqn:H0; [|reflexivity].
    apply Z.eqb_eq in H0. subst. reflexivity. }
  split.
  - intros H.
    apply (Qmult_lt_r _ _ (inject_Z bytes_per_gb) bytes_per_gb_pos) in H.
    assert (inject_Z size_bytes / inject_Z bytes_per_gb
            * inject_Z bytes_per_gb == inject_Z size_bytes)%Q as Heq
      by (field; by intros [=]).
    by rewrite Heq in H.
  - intros H. apply Qlt_shift_div_r; [apply bytes_per_gb_pos | done].
Qed.

Lemma eligible_iff_below cfg radarr_movie :
  main.eligible_for_upgrade cfg radarr_movie = true
  ↔ as_specified.below_threshold cfg (default 0 (sizeOnDisk radarr_movie)).
Proof.
  unfold main.eligible_for_upgrade, as_specified.below_threshold.
  rewrite Qltb_true. apply size_in_gb_lt.
Qed.

Lemma meets_iff_not_below cfg m :
  scheduled_upgrader.meets_threshold cfg m = true
  ↔ ¬ as_specified.below_threshold cfg (default 0 (sizeOnDisk m)).
Proof.
  unfold scheduled_upgrader.meets_threshold, scheduled_upgrader.min_size_bytes,
    as_specified.below_threshold.
  rewrite Qle_bool_iff. split.
  - intros Hle Hlt. by apply (Qlt_not_le _ _ Hlt).
  - apply Qnot_lt_le.
Qed.

Lemma elem_of_filter_bool {X} (f : X → bool) (l : list X) x :
  x ∈ List.filter f l ↔ x ∈ l ∧ f x = true.
Proof. rewrite !list_elem_of_In. apply filter_In. Qed.

Lemma friend_tag_added (tags2 : list Z) friend_tag_id t :
  main.tag_given friend_tag_id ≠ Some t →
  t ∈ match main.tag_given friend_tag_id with
      | Some i => if bool_decide (i ∈ tags2) then tags2 else tags2 ++ [i]
      | None => tags2
      end
  ↔ t ∈ tags2.
Proof.
  intros Hfriend. destruct (main.tag_given friend_tag_id) as [i|]; [|done].
  case_bool_decide; [done|].
  rewrite elem_of_app, list_elem_of_singleton.
  split; [intros [?| ->]; [done | by destruct Hfriend] | by left].
Qed.

Lemma upgrade_tag_in_payload cfg radarr_movie friend_tag_id :
  main.tag_given friend_tag_id ≠ Some (plex_upgrade_tag cfg) →
  plex_upgrade_tag cfg ∈ main.payload_tags cfg radarr_movie friend_tag_id
  ↔ main.eligible_for_upgrade cfg radarr_movie = true.
Proof.
  intros Hfriend. unfold main.payload_tags. cbv zeta.
  rewrite friend_tag_added by done.
  destruct (main.eligible_for_upgrade cfg radarr_movie).
  - rewrite elem_of_remove_dups, elem_of_app, list_elem_of_singleton.
    split; [done | by right].
  - rewrite elem_of_filter_bool, Z.eqb_refl. split; [by intros [_ ?] | done].
Qed.

Lemma watchlist_tag_in_payload cfg radarr_movie friend_tag_id :
  watchlist_tag_id cfg ≠ plex_upgrade_tag cfg →
  watchlist_tag_id cfg ∈ main.payload_tags cfg radarr_movie friend_tag_id.
Proof.
  intros Hne. unfold main.payload_tags. cbv zeta.
  assert (watchlist_tag_id cfg
          ∈ remove_dups (default [] (tags radarr_movie)
                         ++ [watchlist_tag_id cfg])) as H1.
  { rewrite elem_of_remove_dups, elem_of_app, list_elem_of_singleton.
    by right. }
  assert (∀ tags2 : list Z, watchlist_tag_id cfg ∈ tags2 →
            watchlist_tag_id cfg
            ∈ match main.tag_given friend_tag_id with
              | Some i => if bool_decide (i ∈ tags2) then tags2
                          else tags2 ++ [i]
              | None => tags2
              end) as Hfriend.
  { intros tags2 H2. destruct (main.tag_given friend_tag_id) as [i|]; [|done].
    case_bool_decide; [done|]. rewrite elem_of_app. by left. }
  apply Hfriend.
  destruct (main.eligible_for_upgrade cfg radarr_movie).
  - rewrite elem_of_remove_dups, elem_of_app. by left.
  - rewrite elem_of_filter_bool. split; [done|].
    by apply negb_true_iff, Z.eqb_neq.
Qed.

Lemma fix_paths_keeps_tags cfg m payload :
  main.fix_paths_for_radarr cfg m = Some payload → tags payload = tags m.
Proof.
  unfold main.fix_paths_for_radarr.
  destruct (default (PStr "") (path m)) as [|b|z|p]; simpl.
  - by intros [= <-].
  - destruct b; [done | by intros [= <-]].
  - destruct (negb (z =? 0)); [done | by intros [= <-]].
  - destruct (negb (nonempty p)); [by intros [= <-]|].
    destruct (main.movies_part _ _); by intros [= <-].
Qed.

(** A record without the watchlist tag is always sent for update. *)
Lemma update_is_due cfg m radarr_movie movie_id movie_title friend_tag_id
    payload :
  watchlist_tag_id cfg ≠ plex_upgrade_tag cfg →
  watchlist_tag_id cfg ∉ default [] (tags radarr_movie) →
  main.fix_paths_for_radarr cfg
    (main.update_payload cfg m radarr_movie movie_id movie_title friend_tag_id)
  = Some payload →
  differ.needs_update radarr_movie payload = true.
Proof.
  intros Hne Hnot Hfix.
  apply not_false_iff_true. intros (_ & Heq & _)%needs_update_false_iff.
  unfold differ.tag_set in Heq.
  apply fix_paths_keeps_tags in Hfix. rewrite Hfix in Heq. simpl in Heq.
  apply Hnot.
  apply (elem_of_list_to_set (C := gset Z)). rewrite Heq.
  apply elem_of_list_to_set. by apply watchlist_tag_in_payload.
Qed.
Lemma search_existing_trace cfg e dry_run eligible m movie_id c w :
  ∃ rest, trace (main.search_existing cfg e dry_run eligible m movie_id c w).2
          = trace w ++ rest.
Proof.
  unfold main.search_existing.
  destruct (negb dry_run && eligible); [|by exists []; rewrite app_nil_r].
  unfold run.bind, run.read_db.
  destruct (main.searched_before m (db w)); [by exists []; rewrite app_nil_r|].
  destruct (main.limit_reached cfg c); [by exists []; rewrite app_nil_r|].
  unfold main.search_and_record, run.bind.
  destruct (trigger_search_effect e movie_id w) as (r & w1 & -> & Htr & _).
  destruct r.
  - destruct (record_search_effect e m c w1)
      as (t1 & t2 & w2 & -> & _ & _ & Htr2 & _).
    simpl. rewrite Htr2, Htr. eauto.
  - simpl. rewrite Htr. eauto.
Qed.

Lemma mark_movie_as_processed_trace e m w :
  ∃ w', effects.mark_movie_as_processed e m w = (Some tt, w')
        ∧ trace w' = trace w.
Proof.
  unfold effects.mark_movie_as_processed, run.bind, run.now, run.with_db.
  eexists. split; reflexivity.
Qed.

Lemma update_existing_effect e radarr_movie movie_id payload w :
  differ.needs_update radarr_movie payload = true →
  ∃ w', main.update_existing e false radarr_movie movie_id payload w
        = (Some tt, w')
        ∧ trace w' = trace w ++ [(PutMovie movie_id payload,
                                  put_movie e (trace w) movie_id payload)].
Proof.
  intros Hdue. unfold main.update_existing. rewrite Hdue. simpl.
  unfold run.bind, radarr_api.update_movie, run.request.
  destruct (put_movie e (trace w) movie_id payload).
  - match goal with
    | |- context [effects.mark_movie_as_processed e radarr_movie ?w1] =>
        destruct (mark_movie_as_processed_trace e radarr_movie w1)
          as (w2 & -> & Htr2)
    end.
    eexists. split; [reflexivity|]. by rewrite Htr2.
  - eexists. split; reflexivity.
Qed.

(** C4, as the code has it. For a resolved record that lacks the
    watchlist tag, the tags of the update payload contain the upgrade
    tag exactly when the size in bytes is strictly below the threshold
    in bytes, and that payload is the one sent; for an upgrade-tagged
    record the sweep sends the record without the tag exactly when the
    size is not below the threshold; a size equal to the threshold is
    not eligible. *)
Theorem upgrade_tag_by_size cfg :
  (∀ radarr_movie friend_tag_id,
     main.tag_given friend_tag_id ≠ Some (plex_upgrade_tag cfg) →
     plex_upgrade_tag cfg ∈ main.payload_tags cfg radarr_movie friend_tag_id
     ↔ as_specified.below_threshold cfg
         (default 0 (sizeOnDisk radarr_movie)))
  ∧ (∀ e m radarr_movie friend_tag_id c w movie_title movie_id payload,
       watchlist_tag_id cfg ≠ plex_upgrade_tag cfg →
       watchlist_tag_id cfg ∉ default [] (tags radarr_movie) →
       title radarr_movie = Some movie_title →
       id radarr_movie = Some movie_id →
       main.fix_paths_for_radarr cfg
         (main.update_payload cfg m radarr_movie movie_id movie_title
                              friend_tag_id) = Some payload →
       tags payload = Some (main.payload_tags cfg radarr_movie friend_tag_id)
       ∧ ∃ rest,
           trace (main.handle_existing cfg e false m radarr_movie
                                       friend_tag_id c w).2
           = trace w
             ++ ((PutMovie movie_id payload,
                  put_movie e (trace w) movie_id payload) :: rest))
  ∧ (∀ e m movie_id w,
       scheduled_upgrader.valid_id m = Some movie_id →
       scheduled_upgrader.has_upgrade_tag cfg m = true →
       let cleared :=
         scheduled_upgrader.set_tags
           (List.filter (λ t, negb (t =? plex_upgrade_tag cfg))
                        (default [] (tags m))) m in
       (¬ as_specified.below_threshold cfg (default 0 (sizeOnDisk m)) →
          (plex_upgrade_tag cfg ∉ default [] (tags cleared))
          ∧ trace (scheduled_upgrader.clear_tag cfg e false m tt w).2
            = trace w ++ [(PutMovie movie_id cleared,
                           put_movie e (trace w) movie_id cleared)])
       ∧ (as_specified.below_threshold cfg (default 0 (sizeOnDisk m)) →
          scheduled_upgrader.clear_tag cfg e false m tt w = (Some tt, w)))
  ∧ (∀ radarr_movie,
       min_file_size_gb cfg = 4%Q →
       sizeOnDisk radarr_movie = Some (4 * 1024 ^ 3) →
       main.eligible_for_upgrade cfg radarr_movie = false
       ∧ scheduled_upgrader.meets_threshold cfg radarr_movie = true).
Proof.
  split_and!.
  - intros radarr_movie friend_tag_id Hfriend.
    rewrite upgrade_tag_in_payload by done. apply eligible_iff_below.
  - intros e m radarr_movie friend_tag_id c w movie_title movie_id payload
      Hne Hnot Htitle Hid Hfix.
    split.
    { by rewrite (fix_paths_keeps_tags _ _ _ Hfix). }
    unfold main.handle_existing. rewrite Htitle, Hid.
    cbn [run.item]. unfold run.bind at 1 2. cbn [run.ret]. rewrite Hfix.
    unfold run.bind at 1. cbn [run.item run.ret].
    destruct (update_existing_effect e radarr_movie movie_id payload w)
      as (w1 & Hupd & Htr1).
    { by eapply update_is_due. }
    unfold run.bind. rewrite Hupd.
    destruct (search_existing_trace cfg e false
                (main.eligible_for_upgrade cfg radarr_movie) m movie_id c w1)
      as [rest ->].
    rewrite Htr1, <- app_assoc. simpl. eauto.
  - intros e m movie_id w Hid Htag cleared. split.
    + intros Hmeets%meets_iff_not_below. split.
      * unfold cleared. simpl. rewrite elem_of_filter_bool, Z.eqb_refl.
        by intros [_ ?].
      * unfold scheduled_upgrader.clear_tag. rewrite Hid, Hmeets, Htag. simpl.
        unfold run.bind, scheduled_upgrader.remove_tag_from_movie,
          radarr_api.update_movie, run.request. fold cleared.
        destruct (put_movie e (trace w) movie_id cleared); [|done].
        match goal with
        | |- context [effects.mark_movie_as_processed e m ?w1] =>
            destruct (mark_movie_as_processed_trace e m w1) as (w2 & -> & Htr2)
        end.
        simpl. by rewrite Htr2.
    + intros Hbelow. unfold scheduled_upgrader.clear_tag. rewrite Hid.
      destruct (scheduled_upgrader.meets_threshold cfg m) eqn:Hmeets; [|done].
      by apply meets_iff_not_below in Hmeets.
  - intros radarr_movie Hgb Hsize. split.
    + apply not_true_is_false. intros Hbelow%eligible_iff_below.
      unfold as_specified.below_threshold in Hbelow.
      rewrite Hgb, Hsize in Hbelow. by vm_compute in Hbelow.
    + apply meets_iff_not_below. unfold as_specified.below_threshold.
      rewrite Hgb, Hsize. by vm_compute.
Qed.
(** A worked instance of C4: with a threshold of 4 GB a record without a
    file gets the upgrade tag 2, and one of exactly 4 GB is not eligible. *)
Lemma upgrade_tag_by_size_witness :
  2 ∈ main.payload_tags sample_world.cfg
        (sample.record 5 "A" (Some "tt1") 101 0 []) None
  ∧ main.eligible_for_upgrade sample_world.cfg sample_runs.at_threshold = false
  ∧ scheduled_upgrader.meets_threshold sample_world.cfg sample_runs.at_threshold
    = true.
Proof.
  destruct (upgrade_tag_by_size sample_world.cfg) as (Htag & _ & _ & Hedge).
  split.
  - apply (Htag (sample.record 5 "A" (Some "tt1") 101 0 []) None).
    + discriminate.
    + reflexivity.
  - apply (Hedge sample_runs.at_threshold); reflexivity.
Defined.

(** C4 as worded fails for a record that already has the watchlist tag:
    its size is below the threshold and it has no upgrade tag, yet the
    sync skips it and sends nothing, so the tag is not added. *)
Lemma upgrade_tag_not_added_when_reconciled :
  let e := sample_world.env_of [sample_runs.reconciled] [sample_runs.wanted]
             [] [] in
  let w0 := sample_world.world_at sample_runs.in_2026 [] in
  as_specified.below_threshold sample_world.cfg
    (default 0 (sizeOnDisk sample_runs.reconciled))
  ∧ (plex_upgrade_tag sample_world.cfg
     ∉ default [] (tags sample_runs.reconciled))
  ∧ trace (main.process_watchlist sample_world.cfg e false w0).2
    = [(SystemStatus, true); (GetAllMovies, true)].
Proof.
  split_and!.
  - reflexivity.
  - intros H. apply list_elem_of_singleton in H. discriminate.
  - vm_compute. reflexivity.
Qed.

(** ** Data-integrity faults *)

Lemma registry_only_refl w : hoare.registry_only w w.
Proof. split; [done|]. exists []. by rewrite app_nil_r. Qed.

Lemma registry_only_trans w1 w2 w3 :
  hoare.registry_only w1 w2 → hoare.registry_only w2 w3 →
  hoare.registry_only w1 w3.
Proof.
  intros [Hdb1 (new1 & Htr1 & Hnew1)] [Hdb2 (new2 & Htr2 & Hnew2)].
  split; [congruence|]. exists (new1 ++ new2).
  split; [by rewrite Htr2, Htr1, app_assoc | by apply Forall_app].
Qed.

Lemma lookup_only_ret {A} (a : A) : hoare.lookup_only (run.ret a).
Proof. intros w. split; [by eexists | apply registry_only_refl]. Qed.

Lemma lookup_only_bind {A B} (m : run.M A) (k : A → run.M B) :
  hoare.lookup_only m → (∀ a, hoare.lookup_only (k a)) →
  hoare.lookup_only (run.bind m k).
Proof.
  intros Hm Hk w. unfold run.bind. destruct (Hm w) as [[a Ha] Hw].
  destruct (m w) as [r w1]. simpl in *. subst r.
  destruct (Hk a w1) as [? ?]. split; [done|].
  by eapply registry_only_trans.
Qed.

Lemma lookup_only_get_tag_cache : hoare.lookup_only run.get_tag_cache.
Proof. intros w. split; [by eexists | apply registry_only_refl]. Qed.

Lemma lookup_only_set_tag_cache c : hoare.lookup_only (run.set_tag_cache c).
Proof.
  intros w. split; [by eexists|]. split; [done|]. exists [].
  by rewrite app_nil_r.
Qed.

Lemma lookup_only_request {A} (c : call) (answer : list exchange → A) usable :
  hoare.tag_call (c, true) = true →
  hoare.lookup_only (run.request c answer usable).
Proof.
  intros Hc w. split; [by eexists|]. split; [done|]. eexists. split; [done|].
  apply Forall_singleton. by destruct c.
Qed.

Ltac lookup_only_step :=
  lazymatch goal with
  | |- hoare.lookup_only (run.ret _) => apply lookup_only_ret
  | |- hoare.lookup_only (run.bind _ _) => apply lookup_only_bind; [|intros ?]
  | |- hoare.lookup_only run.get_tag_cache => apply lookup_only_get_tag_cache
  | |- hoare.lookup_only (run.set_tag_cache _) => apply lookup_only_set_tag_cache
  | |- hoare.lookup_only (run.request _ _ _) => by apply lookup_only_request
  | |- hoare.lookup_only (match ?x with _ => _ end) => destruct x
  end.

(** Looking up the attribution tag always returns and sends nothing but
    requests to the tag registry. *)
Lemma lookup_only_friend_tag cfg e m : hoare.lookup_only (main.friend_tag cfg e m).
Proof.
  unfold main.friend_tag, radarr_api.get_or_create_tag,
    radarr_api.get_all_tags, radarr_api.create_tag.
  repeat lookup_only_step.
Qed.

Lemma handle_new_skips cfg e dry_run m friend_tag_id c w :
  main.tmdb_of m = "" ∨ int (main.tmdb_of m) = None →
  main.handle_new cfg e dry_run m friend_tag_id c w = (Some c, w).
Proof.
  unfold main.handle_new. intros [->| ->]; [done|].
  by destruct (negb _).
Qed.




(** ** One search per item in the sync path *)

Section cache_rows.
Import database identifiers.

Lemma update_first_app_l p f (before after : list row) :
  (∀ x, x ∈ before → p x = false) →
  update_first p f (before ++ after) = before ++ update_first p f after.
Proof.
  induction before as [|x before IH]; intros Hnone; simpl; [done|].
  rewrite (Hnone x) by apply list_elem_of_here.
  f_equal. apply IH. intros y Hy. apply Hnone. by apply list_elem_of_further.
Qed.

Lemma existsb_app_l p (before after : list row) :
  (∀ x, x ∈ before → p x = false) →
  existsb p (before ++ after) = existsb p after.
Proof.
  intros Hnone. rewrite existsb_app.
  replace (existsb p before) with false; [done|].
  symmetry. apply not_true_is_false. intros (x & Hx & Hp)%existsb_exists.
  apply list_elem_of_In in Hx. rewrite (Hnone x Hx) in Hp. done.
Qed.

Lemma find_app_l p (before after : list row) :
  (∀ x, x ∈ before → p x = false) →
  List.find p (before ++ after) = List.find p after.
Proof.
  induction before as [|x before IH]; intros Hnone; simpl; [done|].
  rewrite (Hnone x) by apply list_elem_of_here.
  apply IH. intros y Hy. apply Hnone. by apply list_elem_of_further.
Qed.

(** A table with a row that satisfies [p] splits at the first such row. *)
Lemma first_match p (rows : list row) :
  existsb p rows = true →
  ∃ before r after, rows = before ++ r :: after
                    ∧ (∀ x, x ∈ before → p x = false) ∧ p r = true.
Proof.
  induction rows as [|x rows IH]; simpl; [done|].
  destruct (p x) eqn:Hx.
  - intros _. exists [], x, rows. split_and!; [done | | done].
    intros y Hy. by apply not_elem_of_nil in Hy.
  - intros (before & r & after & -> & Hnone & Hr)%IH.
    exists (x :: before), r, after. split_and!; [done | | done].
    intros y [->|Hy]%elem_of_cons; [done | by apply Hnone].
Qed.

Lemma no_match p (rows : list row) :
  existsb p rows = false → ∀ x, x ∈ rows → p x = false.
Proof.
  intros Hnone x Hx. apply not_true_is_false. intros Hp.
  assert (existsb p rows = true); [|congruence].
  apply existsb_exists. exists x. split; [by apply list_elem_of_In | done].
Qed.

(** What the lookup of the sync reads. *)
Lemma searched_before_record_find m rows :
  main.searched_before_record m rows
  = match looked_up m with
    | (None, None, None) => None
    | (rk, imdb, tmdb) => List.find (matches rk imdb tmdb) rows
    end.
Proof.
  unfold main.searched_before_record, looked_up, get_plex_metadata.
  destruct (nonempty (main.imdb_of m)); [done|].
  destruct (nonempty (main.tmdb_of m)); [done|].
  destruct (nonempty (or_empty (ratingKey m))); [|done].
  simpl. by destruct (clean (ratingKey m)).
Qed.

Section canonical_item.
Variable m : movie.
Hypothesis Hcanonical : canonical m.

Local Abbreviation p :=
  (matches (stored m).1.1 (stored m).1.2 (stored m).2).
Local Abbreviation q :=
  (matches (looked_up m).1.1 (looked_up m).1.2 (looked_up m).2).

Lemma looked_up_some : looked_up m ≠ (None, None, None).
Proof.
  unfold canonical in Hcanonical.
  destruct (stored m) as [[[rk|] [imdb|]] [tmdb|]];
    try (rewrite Hcanonical; discriminate). done.
Qed.

Lemma looked_up_is_stored x : q x = true → p x = true.
Proof.
  unfold canonical in *.
  destruct (stored m) as [[[rk|] [imdb|]] [tmdb|]];
    try rewrite Hcanonical; try done; unfold matches; simpl;
    destruct (rating_key x), (imdb_id x), (tmdb_id x); simpl;
    rewrite ?orb_false_r; try done;
    intros H; rewrite H, ?orb_true_r; done.
Qed.

(** A row that a stored identifier matches answers the lookup once it
    carries the item's IMDb and TMDB ids. *)
Lemma rewritten_row_answers r title0 year0 searched processed :
  p r = true →
  q {| rating_key := rating_key r; imdb_id := or_none (imdbId m);
       tmdb_id := tmdb_text (tmdbId m); row_title := title0;
       row_year := year0; last_radarr_search := searched;
       last_processed := processed |} = true.
Proof.
  unfold canonical, stored in *. simpl.
  destruct (or_none (ratingKey m)) as [rk|],
           (or_none (imdbId m)) as [imdb|],
           (tmdb_text (tmdbId m)) as [tmdb|];
    try rewrite Hcanonical; try done; unfold matches; simpl;
    rewrite ?String.eqb_refl, ?orb_true_r; try done.
  destruct (rating_key r), (imdb_id r), (tmdb_id r); simpl;
    rewrite ?orb_false_r; done.
Qed.

Lemma new_row_answers title0 year0 searched processed :
  q {| rating_key := or_none (ratingKey m); imdb_id := or_none (imdbId m);
       tmdb_id := tmdb_text (tmdbId m); row_title := title0;
       row_year := year0; last_radarr_search := searched;
       last_processed := processed |} = true.
Proof.
  unfold canonical, stored in *. simpl.
  destruct (or_none (ratingKey m)) as [rk|],
           (or_none (imdbId m)) as [imdb|],
           (tmdb_text (tmdbId m)) as [tmdb|];
    try rewrite Hcanonical; try done; unfold matches; simpl;
    rewrite ?String.eqb_refl, ?orb_true_r; done.
Qed.

Lemma searched_first_found rows :
  searched_first m (looked_up m) rows → main.searched_before m rows = true.
Proof.
  intros (before & r & after & -> & Hnone & Hr & Hts).
  unfold main.searched_before. rewrite searched_before_record_find.
  pose proof looked_up_some as Hsome.
  assert (List.find q (before ++ r :: after) = Some r) as Hfind.
  { rewrite find_app_l.
    - simpl. by rewrite Hr.
    - intros x Hx. apply not_true_is_false. intros Hq%looked_up_is_stored.
      by rewrite (Hnone x Hx) in Hq. }
  destruct (looked_up m) as [[[rk|] [imdb|]] [tmdb|]]; simpl in *;
    try done; rewrite Hfind; by apply bool_decide_eq_true.
Qed.

Lemma mark_searched_first t rows :
  searched_first m (looked_up m) (mark_movie_as_searched t m rows).
Proof.
  unfold mark_movie_as_searched.
  change (matches (or_none (ratingKey m)) (or_none (imdbId m))
                  (tmdb_text (tmdbId m))) with p.
  destruct (existsb p rows) eqn:Hex.
  - apply first_match in Hex as (before & r & after & -> & Hnone & Hr).
    rewrite update_first_app_l by done. cbn [update_first]. rewrite Hr.
    eexists before, _, after. split_and!; [done | done | | by eexists].
    by apply rewritten_row_answers.
  - eexists rows, _, []. split_and!; [done | | | by eexists].
    + by apply no_match.
    + apply new_row_answers.
Qed.

Lemma save_keeps_searched_first rows :
  searched_first m (looked_up m) rows →
  searched_first m (looked_up m) (save_plex_metadata m rows).
Proof.
  intros (before & r & after & -> & Hnone & Hr & Hts).
  unfold save_plex_metadata.
  set (conflict := λ x, col_eq (rating_key x) (or_none (ratingKey m))).
  assert (∀ x, conflict x = true → p x = true) as Hconflict.
  { intros x Hx. unfold matches, stored. simpl.
    unfold conflict in Hx. by rewrite Hx. }
  assert (∀ x, x ∈ before → conflict x = false) as Hfree.
  { intros x Hx. apply not_true_is_false. intros Hc%Hconflict.
    by rewrite (Hnone x Hx) in Hc. }
  rewrite existsb_app_l by done. rewrite update_first_app_l by done.
  cbn [existsb update_first].
  destruct (conflict r) eqn:Hcr; cbn [orb].
  - eexists before, _, after. split_and!; [done | done | | done].
    apply rewritten_row_answers. by apply Hconflict.
  - destruct (existsb conflict after).
    + eexists before, r, _. split_and!; done.
    + rewrite <- app_assoc. simpl.
      eexists before, r, _. split_and!; done.
Qed.

End canonical_item.
End cache_rows.
Lemma search_and_record_db e m movie_id c w :
  search_command e (trace w) movie_id = true →
  ∃ t, (main.search_and_record e m movie_id c w).1 = Some (searched c)
       ∧ db (main.search_and_record e m movie_id c w).2
         = database.mark_movie_as_searched t m (db w).
Proof.
  intros Htaken.
  unfold main.search_and_record, run.bind, radarr_api.trigger_search,
    run.request. rewrite Htaken.
  unfold main.record_search, effects.mark_movie_as_searched,
    effects.increment_daily_search_count, effects.read_daily_search_count,
    run.bind, run.now, run.with_db, run.read_counter, run.write_counter,
    run.ret. simpl. eauto.
Qed.

Section add_branch.
Import run cache_view.

Lemma blind_ret {A} (a : A) : blind (ret a).
Proof. by intros w1 w2 H. Qed.

Lemma blind_raise {A} : blind (@raise A).
Proof. by intros w1 w2 H. Qed.

Lemma blind_item {A} (o : option A) : blind (item o).
Proof. destruct o; [apply blind_ret | apply blind_raise]. Qed.

Lemma blind_bind {A B} (m : M A) (k : A → M B) :
  blind m → (∀ a, blind (k a)) → blind (bind m k).
Proof.
  intros Hm Hk w1 w2 H. unfold bind. destruct (Hm w1 w2 H) as [Heq Hagree].
  destruct (m w1) as [[a1|] w1'], (m w2) as [[a2|] w2'];
    simpl in *; simplify_eq; [by apply Hk | done].
Qed.

Lemma blind_request {A} c (answer : list exchange → A) usable :
  blind (request c answer usable).
Proof.
  intros w1 w2 (?&?&?&?&?&Htrace). unfold request. simpl.
  rewrite Htrace. by split_and!.
Qed.

Lemma blind_with_db f : blind (with_db f).
Proof. intros w1 w2 (?&?&?&?&?&?). unfold with_db. simpl. by split_and!. Qed.

Lemma blind_now e : blind (now e).
Proof.
  intros w1 w2 (?&?&Hclock&Hreads&?&?). unfold now. simpl.
  rewrite Hclock, Hreads. by split_and!.
Qed.

Lemma blind_read_counter : blind read_counter.
Proof. intros w1 w2 (Hfile&?&?&?&?&?). unfold read_counter. simpl.
  rewrite Hfile. by split_and!. Qed.

Lemma blind_write_counter date count : blind (write_counter date count).
Proof.
  intros w1 w2 (?&Hlog&?&?&?&?). unfold write_counter. simpl.
  rewrite Hlog. by split_and!.
Qed.

End add_branch.

Ltac blind_step :=
  lazymatch goal with
  | |- cache_view.blind (run.ret _) => apply blind_ret
  | |- cache_view.blind run.raise => apply blind_raise
  | |- cache_view.blind (run.item _) => apply blind_item
  | |- cache_view.blind (run.bind _ _) => apply blind_bind; [|intros ?]
  | |- cache_view.blind (run.request _ _ _) => apply blind_request
  | |- cache_view.blind (run.with_db _) => apply blind_with_db
  | |- cache_view.blind (run.now _) => apply blind_now
  | |- cache_view.blind run.read_counter => apply blind_read_counter
  | |- cache_view.blind (run.write_counter _ _) => apply blind_write_counter
  | |- cache_view.blind (if ?b then _ else _) => destruct b
  | |- cache_view.blind (match ?o with Some _ => _ | None => _ end) =>
      destruct o
  end.

(** The branch for a movie that Radarr does not have never reads the
    cache table. *)
Lemma blind_handle_new cfg e dry_run m friend_tag_id c :
  cache_view.blind (main.handle_new cfg e dry_run m friend_tag_id c).
Proof.
  unfold main.handle_new, radarr_api.add_movie,
    effects.mark_movie_as_processed, main.search_and_record,
    radarr_api.trigger_search, main.record_search,
    effects.mark_movie_as_searched, effects.increment_daily_search_count,
    effects.read_daily_search_count.
  repeat blind_step.
Qed.




(** Over two runs the branch for a movie that Radarr has may search
    the same item twice. Radarr lists the movie under "TT1" and the item
    has "tt1": the second run updates the record again,
    [mark_movie_as_processed] rewrites the row's IMDb id as Radarr
    spells it, and the lookup by "tt1" no longer finds the row. *)
Example second_sync_searches_again :
  let library := [sample.record 5 "A" (Some "TT1") 101 0 []] in
  let e := sample_world.env_of library [sample_runs.wanted] [] [] in
  let w0 := sample_world.world_at sample_runs.in_2026 [] in
  let w1 := (main.process_watchlist sample_world.cfg e false w0).2 in
  let w2 := (main.process_watchlist sample_world.cfg e false w1).2 in
  main.searched_before sample_runs.wanted (db w1) = true
  ∧ List.filter hoare.attempted_search (trace w1) = [(TriggerSearch 5, true)]
  ∧ List.filter hoare.attempted_search (trace w2)
    = [(TriggerSearch 5, true); (TriggerSearch 5, true)].
Proof. vm_compute. repeat split. Qed.

(** ** The job lock *)

Section lock_steps.
Import watchlist_scheduler lock_facts.
Variable lock_timeout : Z.

Lemma process_of_set_eq p pr k s : process_of (set_process p pr k s) p = pr.
Proof. unfold process_of, set_process. simpl. by rewrite lookup_insert_eq. Qed.

Lemma process_of_set_ne p q pr k s :
  p ≠ q → process_of (set_process p pr k s) q = process_of s q.
Proof.
  intros Hne. unfold process_of, set_process. simpl.
  by rewrite lookup_insert_ne.
Qed.

Lemma process_of_enter_eq p func_name s :
  process_of (enter p func_name s) p
  = {| active_locks := active_locks (process_of s p);
       at_ := AtOpen func_name |}.
Proof. apply process_of_set_eq. Qed.

Lemma process_of_enter_ne p q func_name s :
  p ≠ q → process_of (enter p func_name s) q = process_of s q.
Proof. apply process_of_set_ne. Qed.

(** A step of [p] leaves the other processes as they are. *)
Lemma step_other p q s :
  p ≠ q → process_of (step lock_timeout p s) q = process_of s q.
Proof.
  intros Hne. unfold step.
  destruct (at_ (process_of s p)); try done;
    try destruct (open_w _ _); try destruct (flock_ex_nb _ _);
    by rewrite process_of_set_ne.
Qed.

(** Each step takes a call one step further. *)
Lemma step_remaining p s :
  remaining (at_ (process_of (step lock_timeout p s) p))
  = pred (remaining (at_ (process_of s p))).
Proof.
  unfold step.
  destruct (at_ (process_of s p)) eqn:Hat; try (by rewrite Hat);
    try destruct (open_w _ _); try destruct (flock_ex_nb _ _);
    by rewrite process_of_set_eq.
Qed.

Lemma step_other_remaining p q s :
  p ≠ q →
  remaining (at_ (process_of (step lock_timeout p s) q))
  = remaining (at_ (process_of s q)).
Proof. intros Hne. by rewrite step_other. Qed.

(** *** The kernel stays tidy *)

Lemma tidy_open_w func_name k :
  tidy_kernel k → tidy_kernel (open_w func_name k).2.
Proof.
  intros [Hdir Hlock]. unfold open_w.
  destruct (directory k !! func_name) as [i|] eqn:Hname; simpl.
  - split; simpl; [done|]. intros j h Hj.
    destruct (Hlock j h Hj). lia.
  - split; simpl.
    + intros name i. rewrite lookup_insert.
      case_decide; [intros [= <-]; lia|]. intros Hi%Hdir. lia.
    + intros j h Hj. destruct (Hlock j h Hj). lia.
Qed.

Lemma tidy_unlock fd k : tidy_kernel k → tidy_kernel (unlock fd k).
Proof.
  intros [Hdir Hlock]. unfold unlock.
  destruct (holder k !! inode fd) as [h|]; [|done].
  case_decide; [|done]. split; simpl; [done|].
  intros j h' Hj. apply lookup_delete_Some in Hj as [_ Hj]. by apply Hlock.
Qed.

Lemma tidy_remove func_name k : tidy_kernel k → tidy_kernel (remove func_name k).
Proof.
  intros [Hdir Hlock]. split; simpl; [|done].
  intros name i Hi. apply lookup_delete_Some in Hi as [_ Hi]. by eapply Hdir.
Qed.

(** *** A refused call *)

Lemma process_of_wait d s p :
  process_of (perform lock_timeout s (Wait d)) p = process_of s p.
Proof. done. Qed.

(** A call that finds the lock held by [h], the clock moving on by
    [d1], [d2] and [d3] between its four steps. The age it computes is
    the time since its own [open]. *)
Lemma refused_call p func_name d1 d2 d3 s i h :
  directory (os s) !! func_name = Some i →
  holder (os s) !! i = Some h →
  (h < next_description (os s))%nat →
  let s' := interleave lock_timeout (unhurried p d1 d2 d3)
                       (enter p func_name s) in
  at_ (process_of s' p)
  = Returned false
      (if lock_timeout <? Z.of_N d1 + Z.of_N d2 + Z.of_N d3
       then LogStale else LogAlreadyRunning)
  ∧ mtime (os s') !! i = Some (time (os s))
  ∧ time (os s') = time (os s) + (Z.of_N d1 + Z.of_N d2 + Z.of_N d3)
  ∧ holder (os s') !! i = Some h
  ∧ directory (os s') !! func_name = Some i
  ∧ active_locks (process_of s' p) = active_locks (process_of s p).
Proof.
  intros Hname Hheld Hold. unfold unhurried, interleave. cbn [foldl].
  set (fd := {| description := next_description (os s); inode := i |}).
  set (locks := active_locks (process_of s p)).
  set (s0 := enter p func_name s).
  assert (∃ s1, perform lock_timeout s0 (Run p) = s1
                ∧ directory (os s1) = directory (os s)
                ∧ holder (os s1) = holder (os s)
                ∧ mtime (os s1) !! i = Some (time (os s))
                ∧ time (os s1) = time (os s)
                ∧ process_of s1 p
                  = {| active_locks := locks; at_ := AtFlock func_name fd |})
    as (s1 & -> & Hdir1 & Hhold1 & Hm1 & Ht1 & Hp1).
  { eexists. split; [reflexivity|]. unfold perform, step, s0.
    rewrite process_of_enter_eq. cbn [at_ active_locks].
    unfold open_w. cbn [os enter set_process]. rewrite Hname.
    cbn [os set_process directory holder mtime time].
    rewrite lookup_insert_eq. split_and!; try done.
    apply process_of_set_eq. }
  set (s1' := perform lock_timeout s1 (Wait d1)).
  assert (∃ s2, perform lock_timeout s1' (Run p) = s2
                ∧ directory (os s2) = directory (os s)
                ∧ holder (os s2) = holder (os s)
                ∧ mtime (os s2) !! i = Some (time (os s))
                ∧ time (os s2) = time (os s) + Z.of_N d1
                ∧ process_of s2 p
                  = {| active_locks := locks; at_ := AtClose func_name fd |})
    as (s2 & -> & Hdir2 & Hhold2 & Hm2 & Ht2 & Hp2).
  { eexists. split; [reflexivity|]. change (perform lock_timeout s1' (Run p)) with (step lock_timeout p s1').
    unfold step, s1'. rewrite process_of_wait, Hp1. cbn [at_ active_locks].
    unfold flock_ex_nb. cbn [perform os pass_time holder inode fd].
    rewrite Hhold1, Hheld. rewrite decide_False by (simpl; lia).
    cbn [perform os set_process pass_time directory holder mtime time].
    rewrite Ht1. split_and!; try done. apply process_of_set_eq. }
  set (s2' := perform lock_timeout s2 (Wait d2)).
  assert (∃ s3, perform lock_timeout s2' (Run p) = s3
                ∧ directory (os s3) = directory (os s)
                ∧ holder (os s3) = holder (os s)
                ∧ mtime (os s3) !! i = Some (time (os s))
                ∧ time (os s3) = time (os s) + Z.of_N d1 + Z.of_N d2
                ∧ process_of s3 p
                  = {| active_locks := locks; at_ := AtStat func_name |})
    as (s3 & -> & Hdir3 & Hhold3 & Hm3 & Ht3 & Hp3).
  { eexists. split; [reflexivity|]. change (perform lock_timeout s2' (Run p)) with (step lock_timeout p s2').
    unfold step, s2'. rewrite process_of_wait, Hp2. cbn [at_ active_locks].
    unfold unlock. cbn [perform os pass_time holder inode fd].
    rewrite Hhold2, Hheld. rewrite decide_False by (simpl; lia).
    cbn [perform os set_process pass_time directory holder mtime time].
    rewrite Ht2. split_and!; try done. apply process_of_set_eq. }
  set (s3' := perform lock_timeout s3 (Wait d3)).
  change (perform lock_timeout s3' (Run p)) with (step lock_timeout p s3').
  unfold step, s3'.
  rewrite process_of_wait, Hp3. cbn [at_ active_locks].
  rewrite process_of_set_eq.
  cbn [perform os set_process pass_time directory holder mtime time at_
       active_locks].
  rewrite Hhold3, Hdir3, Ht3. split_and!; try done; [|lia].
  unfold refusal_line. cbn [directory mtime time pass_time].
  rewrite Hdir3, Hname, Hm3. simpl.
  lazymatch goal with
  | |- Returned false (if lock_timeout <? ?age then _ else _) = _ =>
      replace age with (Z.of_N d1 + Z.of_N d2 + Z.of_N d3)
        by (unfold Datatypes.id; lia)
  end.
  done.
Qed.

(** *** A call after a release *)

(** The four steps of a call that finds no lock file. *)
Lemma call_on_fresh_file p func_name s :
  tidy_kernel (os s) →
  directory (os s) !! func_name = None →
  (with_job_lock lock_timeout p func_name s).1 = true.
Proof.
  intros [Hdir Hlock] Hname. unfold with_job_lock. cbn [fst snd].
  set (fd := {| description := next_description (os s);
                inode := next_inode (os s) |}).
  set (locks := active_locks (process_of s p)).
  set (k1 := {| directory := <[func_name := next_inode (os s)]>
                               (directory (os s));
                mtime := <[next_inode (os s) := time (os s)]> (mtime (os s));
                holder := holder (os s);
                next_inode := S (next_inode (os s));
                next_description := S (next_description (os s));
                time := time (os s) |}).
  assert (holder (os s) !! next_inode (os s) = None) as Hfree.
  { destruct (holder (os s) !! next_inode (os s)) as [h|] eqn:Hh; [|done].
    destruct (Hlock _ _ Hh). lia. }
  set (k2 := {| directory := directory k1; mtime := mtime k1;
                holder := <[inode fd := description fd]> (holder k1);
                next_inode := next_inode k1;
                next_description := next_description k1; time := time k1 |}).
  assert (flock_ex_nb fd k1 = Some k2) as Hgot.
  { unfold flock_ex_nb. simpl. by rewrite Hfree. }
  set (s0 := enter p func_name s).
  assert (∃ s1, step lock_timeout p s0 = s1 ∧ os s1 = k1
                ∧ process_of s1 p
                  = {| active_locks := locks; at_ := AtFlock func_name fd |})
    as (s1 & -> & Hos1 & Hp1).
  { eexists. split; [reflexivity|]. unfold step, s0.
    rewrite process_of_enter_eq. cbn [at_ active_locks].
    unfold open_w. cbn [os enter set_process]. rewrite Hname.
    split; [done | apply process_of_set_eq]. }
  assert (∃ s2, step lock_timeout p s1 = s2 ∧ os s2 = k2
                ∧ process_of s2 p
                  = {| active_locks := locks; at_ := AtWrite func_name fd |})
    as (s2 & -> & Hos2 & Hp2).
  { eexists. split; [reflexivity|]. unfold step.
    rewrite Hp1, Hos1. cbn [at_ active_locks]. rewrite Hgot.
    split; [done | apply process_of_set_eq]. }
  assert (∃ s3, step lock_timeout p s2 = s3
                ∧ process_of s3 p
                  = {| active_locks := locks; at_ := AtStore func_name fd |})
    as (s3 & -> & Hp3).
  { eexists. split; [reflexivity|]. unfold step.
    rewrite Hp2. cbn [at_ active_locks]. apply process_of_set_eq. }
  unfold step. rewrite Hp3. cbn [at_ active_locks].
  by rewrite process_of_set_eq.
Qed.

Lemma call_after_release p q func_name s :
  tidy_kernel (os s) →
  (with_job_lock lock_timeout q func_name (release_job_lock p func_name s)).1
  = true.
Proof.
  intros Htidy. apply call_on_fresh_file.
  - unfold release_job_lock.
    destruct (active_locks (process_of s p) !! func_name); simpl;
      by auto using tidy_remove, tidy_unlock.
  - unfold release_job_lock.
    destruct (active_locks (process_of s p) !! func_name); simpl;
      apply lookup_delete_eq.
Qed.

(** *** Two calls at once *)

Section two_calls.
Variables (func_name : string) (first_new : nat).
Local Abbreviation fresh := (lock_facts.fresh func_name first_new).
Local Abbreviation pending := (lock_facts.pending func_name first_new).
Local Abbreviation winning := (lock_facts.winning func_name).
Local Abbreviation losing := (lock_facts.losing func_name first_new).
Local Abbreviation leads := (lock_facts.leads func_name first_new).
Local Abbreviation contest := (lock_facts.contest func_name first_new).

Local Abbreviation later := (lock_facts.later func_name).

(** Case analysis on the status a call is known to be in. *)
Ltac by_status H :=
  inversion H;
  repeat match goal with
         | Heq : _ = at_ (process_of _ _) |- _ =>
             symmetry in Heq; rewrite ?Heq in *
         end.

Lemma fresh_later k k' fd : later k k' → fresh k fd → fresh k' fd.
Proof. intros [Hdir Hnext] [[??] ?]. split; [lia | auto]. Qed.

Lemma pending_later k k' st : later k k' → pending k st → pending k' st.
Proof.
  intros Hlater [|fd Hfd]; constructor. by eapply fresh_later.
Qed.

Lemma losing_later k k' st : later k k' → losing k st → losing k' st.
Proof.
  intros Hlater [fd Hfd| |line]; constructor. by eapply fresh_later.
Qed.

Lemma fresh_same_inode k fd fd' : fresh k fd → fresh k fd' → inode fd = inode fd'.
Proof. intros [_ H1] [_ H2]. congruence. Qed.

Lemma leads_in_hand s x y fd :
  leads s x y →
  in_hand (at_ (process_of s x)) = Some fd
  ∨ in_hand (at_ (process_of s y)) = Some fd →
  fresh (os s) fd.
Proof.
  intros (fd0 & Hfd0 & _ & Hwin & Hother & _) [Hx|Hy].
  - by_status Hwin; simpl in Hx; by simplify_eq.
  - destruct Hother as [Hother|Hother]; by_status Hother; simpl in Hy;
      by simplify_eq.
Qed.

(** The file object a call has in hand was opened by it. *)
Lemma contest_in_hand p q s x fd :
  contest p q s → x = p ∨ x = q →
  in_hand (at_ (process_of s x)) = Some fd → fresh (os s) fd.
Proof.
  intros [_ _ _ _ Hphase] Hx Hfd.
  destruct Hphase as [(Hp & Hq & _)|[Hlead|Hlead]].
  - assert (pending (os s) (at_ (process_of s x))) as Hpending
      by (by destruct Hx as [->| ->]).
    by_status Hpending; simpl in Hfd; by simplify_eq.
  - eapply leads_in_hand; [done|]. destruct Hx as [->| ->]; auto.
  - eapply leads_in_hand; [done|]. destruct Hx as [->| ->]; auto.
Qed.

Lemma contest_sym p q s : contest p q s → contest q p s.
Proof.
  intros [Htidy Hnew Hold Hapart Hphase]. split; try done.
  - intros x fd Hx. apply Hold. tauto.
  - intros fd fd' H1 H2 Heq. by eapply Hapart.
  - destruct Hphase as [(?&?&?)|[?|?]]; auto.
Qed.

Lemma later_wait k d : later k (pass_time d k).
Proof. by split. Qed.

Lemma contest_wait p q s d :
  contest p q s → contest p q (perform lock_timeout s (Wait d)).
Proof.
  intros [[Hdir Hlock] Hnew Hold Hapart Hphase]. split; try done.
  pose proof (later_wait (os s) d) as Hlater.
  destruct Hphase as [(Hp & Hq & Hfree)|[Hlead|Hlead]]; [left|right..].
  - split_and!; [by eapply pending_later..|done].
  - left. destruct Hlead as (fd & ? & ? & ? & Hother & ?). exists fd.
    split_and!; try done.
    destruct Hother; [left; by eapply pending_later
                     |right; by eapply losing_later].
  - right. destruct Hlead as (fd & ? & ? & ? & Hother & ?). exists fd.
    split_and!; try done.
    destruct Hother; [left; by eapply pending_later
                     |right; by eapply losing_later].
Qed.


Lemma tidy_next_inode_free k :
  tidy_kernel k → holder k !! next_inode k = None.
Proof.
  intros [_ Hlock]. destruct (holder k !! next_inode k) as [h|] eqn:Hh; [|done].
  destruct (Hlock _ _ Hh). lia.
Qed.

(** What [open] returns. *)
Lemma open_w_spec n k :
  description (open_w n k).1 = next_description k
  ∧ next_description (open_w n k).2 = S (next_description k)
  ∧ directory (open_w n k).2 !! n = Some (inode (open_w n k).1)
  ∧ holder (open_w n k).2 = holder k
  ∧ (∀ i, directory k !! n = Some i → inode (open_w n k).1 = i)
  ∧ (directory k !! n = None → inode (open_w n k).1 = next_inode k).
Proof.
  unfold open_w. destruct (directory k !! n) as [i|] eqn:Hn; simpl;
    split_and!; try done; try congruence.
  by rewrite lookup_insert_eq.
Qed.

Lemma step_open p s n :
  at_ (process_of s p) = AtOpen n →
  step lock_timeout p s
  = set_process p {| active_locks := active_locks (process_of s p);
                     at_ := AtFlock n (open_w n (os s)).1 |}
                (open_w n (os s)).2 s.
Proof. intros Hat. unfold step. rewrite Hat. by destruct (open_w n (os s)). Qed.

(** Rewriting with what is known of a system after a step of [p]. *)
Ltac settle :=
  unfold lock_facts.leads, free;
  rewrite ?process_of_set_eq, ?process_of_set_ne by done;
  cbn [os set_process at_ active_locks in_hand].

Lemma contest_named p q s n :
  contest p q s →
  at_ (process_of s p) = AtOpen n → n = func_name.
Proof.
  intros [_ _ _ _ Hphase] Hat. rewrite Hat in Hphase.
  destruct Hphase
    as [(Hp & _)|[(fd & _ & _ & Hp & _)|(fd & _ & _ & _ & [Hp|Hp] & _)]];
    inversion Hp; congruence.
Qed.

Lemma contest_step_open p q s n :
  p ≠ q → contest p q s → at_ (process_of s p) = AtOpen n →
  contest p q (step lock_timeout p s).
Proof.
  intros Hne C Hat. rewrite (step_open _ _ _ Hat).
  assert (n = func_name) as -> by by eapply contest_named.
  assert (∀ fd, in_hand (at_ (process_of s q)) = Some fd → fresh (os s) fd)
    as Hq_hand by (intros; eapply contest_in_hand; eauto).
  destruct (open_w_spec func_name (os s))
    as (Hd & Hnext & Hdir & Hholder & Hsome & Hnone).
  pose proof (tidy_open_w func_name _ (contest_kernel _ _ _ _ _ C)) as Htidy'.
  destruct C as [Htidy Hnew Hold Hapart Hphase].
  set (fd := (open_w func_name (os s)).1) in *.
  set (k' := (open_w func_name (os s)).2) in *.
  assert (later (os s) k') as Hlater.
  { split; [|lia]. intros i Hi. rewrite Hdir. f_equal. by apply Hsome. }
  assert (fresh k' fd) as Hfd by (split; [lia|done]).
  split.
  - done.
  - settle. lia.
  - intros x fd0 [->| ->]; settle.
    + intros _. apply Hold; [auto|]. by rewrite Hat.
    + apply Hold; auto.
  - settle. intros fd1 fd2 [= <-] Hfd2%Hq_hand. destruct Hfd2. lia.
  - settle. destruct Hphase as [(Hp & Hq & Hfree)|[Hlead|Hlead]].
    + left. split_and!.
      * by constructor.
      * by eapply pending_later.
      * intros i Hi. rewrite Hholder. rewrite Hdir in Hi. injection Hi as <-.
        destruct (directory (os s) !! func_name) as [j|] eqn:Hj.
        -- rewrite (Hsome _ eq_refl). by apply Hfree.
        -- rewrite Hnone by done. by apply tidy_next_inode_free.
    + destruct Hlead as (fd0 & _ & _ & Hwin & _). rewrite Hat in Hwin.
      inversion Hwin.
    + right; right.
      destruct Hlead as (fd0 & Hfd0 & Hheld & Hwin & Hother & Hdiff).
      exists fd0. split_and!.
      * by eapply fresh_later.
      * by rewrite Hholder.
      * done.
      * left. by constructor.
      * intros fd' [= <-]. destruct Hfd0 as [[? ?] ?]. lia.
Qed.


Lemma step_flock p s n fd :
  at_ (process_of s p) = AtFlock n fd →
  step lock_timeout p s
  = match flock_ex_nb fd (os s) with
    | Some k' =>
        set_process p {| active_locks := active_locks (process_of s p);
                         at_ := AtWrite n fd |} k' s
    | None =>
        set_process p {| active_locks := active_locks (process_of s p);
                         at_ := AtClose n fd |} (os s) s
    end.
Proof. intros Hat. unfold step. by rewrite Hat. Qed.

Lemma step_write p s n fd :
  at_ (process_of s p) = AtWrite n fd →
  step lock_timeout p s
  = set_process p {| active_locks := active_locks (process_of s p);
                     at_ := AtStore n fd |} (write_stamp fd (os s)) s.
Proof. intros Hat. unfold step. by rewrite Hat. Qed.

Lemma step_store p s n fd :
  at_ (process_of s p) = AtStore n fd →
  step lock_timeout p s
  = set_process p {| active_locks := <[n := fd]> (active_locks (process_of s p));
                     at_ := Returned true LogAcquired |}
                (match active_locks (process_of s p) !! n with
                 | Some old => unlock old (os s)
                 | None => os s
                 end) s.
Proof. intros Hat. unfold step. by rewrite Hat. Qed.

Lemma step_close p s n fd :
  at_ (process_of s p) = AtClose n fd →
  step lock_timeout p s
  = set_process p {| active_locks := active_locks (process_of s p);
                     at_ := AtStat n |} (unlock fd (os s)) s.
Proof. intros Hat. unfold step. by rewrite Hat. Qed.

Lemma step_stat p s n :
  at_ (process_of s p) = AtStat n →
  step lock_timeout p s
  = set_process p {| active_locks := active_locks (process_of s p);
                     at_ := Returned false
                              (refusal_line lock_timeout n (os s)) |}
                (os s) s.
Proof. intros Hat. unfold step. by rewrite Hat. Qed.

Lemma contest_step_flock p q s n fd :
  p ≠ q → contest p q s → at_ (process_of s p) = AtFlock n fd →
  contest p q (step lock_timeout p s).
Proof.
  intros Hne C Hat. rewrite (step_flock _ _ _ _ Hat).
  assert (fresh (os s) fd) as Hfd
    by (eapply contest_in_hand; [done|by left|by rewrite Hat]).
  destruct C as [Htidy Hnew Hold Hapart Hphase].
  assert (n = func_name) as ->.
  { destruct Hphase
      as [(Hp & _)|[(fd0 & _ & _ & Hp & _)|(fd0 & _ & _ & _ & [Hp|Hp] & _)]];
      inversion Hp; congruence. }
  unfold flock_ex_nb.
  destruct Hphase as [(Hp & Hq & Hfree)|[Hlead|Hlead]].
  - rewrite (Hfree (inode fd)) by apply Hfd.
    split.
    + destruct Htidy as [Hdir Hlock]. split; simpl; [done|].
      intros j h. rewrite lookup_insert. case_decide; [|by apply Hlock].
      intros [= <-]. subst j. destruct Hfd as [[? ?] Hi]. split; [|done].
      by eapply Hdir.
    + by settle.
    + intros x fd0 [->| ->]; settle.
      * intros _. apply Hold; [auto|]. by rewrite Hat.
      * apply Hold; auto.
    + settle. intros fd1 fd2 [= <-] H2. apply Hapart; [by rewrite Hat|done].
    + right; left. settle. exists fd. split_and!.
      * by destruct Hfd.
      * simpl. by rewrite lookup_insert_eq.
      * constructor.
      * left. eapply pending_later; [|done]. by split.
      * intros fd' Hfd' Heq. eapply Hapart; [by rewrite Hat|done..].
  - destruct Hlead as (fd0 & _ & _ & Hwin & _). rewrite Hat in Hwin.
    inversion Hwin.
  - destruct Hlead as (fd0 & Hfd0 & Hheld & Hwin & Hother & Hdiff).
    rewrite (fresh_same_inode _ _ _ Hfd Hfd0), Hheld.
    rewrite decide_False
      by (intros Heq; eapply Hdiff; [by rewrite Hat|done]).
    split.
    + done.
    + by settle.
    + intros x fd1 [->| ->]; settle.
      * intros _. apply Hold; [auto|]. by rewrite Hat.
      * apply Hold; auto.
    + settle. intros fd1 fd2 [= <-] H2. apply Hapart; [by rewrite Hat|done].
    + right; right. settle. exists fd0. split_and!; try done.
      * right. by constructor.
      * intros fd' [= <-]. apply Hdiff. by rewrite Hat.
Qed.


(** A call past [flock] with the lock holds it. *)
Lemma contest_winner p q s n fd :
  contest p q s →
  at_ (process_of s p) = AtWrite n fd ∨ at_ (process_of s p) = AtStore n fd →
  n = func_name
  ∧ fresh (os s) fd
  ∧ holder (os s) !! inode fd = Some (description fd)
  ∧ (pending (os s) (at_ (process_of s q))
     ∨ losing (os s) (at_ (process_of s q)))
  ∧ ∀ fd', in_hand (at_ (process_of s q)) = Some fd' →
           description fd' ≠ description fd.
Proof.
  intros [_ _ _ _ Hphase] Hat.
  destruct Hphase
    as [(Hp & _)|[(fd0 & ? & ? & Hp & ? & ?)|(fd0 & _ & _ & _ & [Hp|Hp] & _)]];
    inversion Hp; destruct Hat as [Hat|Hat];
    match goal with
    | Heq : _ = at_ (process_of s p) |- _ => rewrite Hat in Heq
    end; by simplify_eq.
Qed.

(** A call past [flock] without the lock was refused by the other. *)
Lemma contest_loser p q s n :
  contest p q s →
  (∃ fd, at_ (process_of s p) = AtClose n fd)
  ∨ at_ (process_of s p) = AtStat n →
  n = func_name ∧ leads s q p.
Proof.
  intros [_ _ _ _ Hphase] Hat.
  destruct Hphase as [(Hp & _)|[(fd0 & ? & ? & Hp & ? & ?)|Hlead]].
  - inversion Hp; destruct Hat as [[fd9 ?]|?]; congruence.
  - inversion Hp; destruct Hat as [[fd9 ?]|?]; congruence.
  - split; [|done]. destruct Hlead as (fd0 & _ & _ & _ & [Hp|Hp] & _);
      inversion Hp; destruct Hat as [[fd9 ?]|?]; congruence.
Qed.

Lemma contest_step_write p q s n fd :
  p ≠ q → contest p q s → at_ (process_of s p) = AtWrite n fd →
  contest p q (step lock_timeout p s).
Proof.
  intros Hne C Hat. rewrite (step_write _ _ _ _ Hat).
  destruct (contest_winner p q s n fd C) as (-> & Hfd & Hheld & Hq & Hdiff);
    [auto|].
  destruct C as [Htidy Hnew Hold Hapart _].
  assert (later (os s) (write_stamp fd (os s))) as Hlater by by split.
  split.
  - by destruct Htidy.
  - by settle.
  - intros x fd1 [->| ->]; settle.
    + intros _. apply Hold; [auto|]. by rewrite Hat.
    + apply Hold; auto.
  - settle. intros fd1 fd2 [= <-] H2. apply Hapart; [by rewrite Hat|done].
  - right; left. settle. exists fd. split_and!.
    + by eapply fresh_later.
    + done.
    + constructor.
    + destruct Hq; [left; by eapply pending_later
                   |right; by eapply losing_later].
    + done.
Qed.

Lemma contest_step_store p q s n fd :
  p ≠ q → contest p q s → at_ (process_of s p) = AtStore n fd →
  contest p q (step lock_timeout p s).
Proof.
  intros Hne C Hat. rewrite (step_store _ _ _ _ Hat).
  destruct (contest_winner p q s n fd C) as (-> & Hfd & Hheld & Hq & Hdiff);
    [auto|].
  destruct C as [Htidy Hnew Hold Hapart _].
  set (k' := match active_locks (process_of s p) !! func_name with
             | Some old => unlock old (os s)
             | None => os s
             end).
  assert (tidy_kernel k') as Htidy'.
  { unfold k'. destruct (_ !! func_name); [by apply tidy_unlock|done]. }
  assert (directory k' = directory (os s)
          ∧ next_description k' = next_description (os s)
          ∧ holder k' !! inode fd = Some (description fd))
    as (Hdir & Hnext & Hheld').
  { unfold k'. destruct (_ !! func_name) as [old|] eqn:Hentry; [|done].
    assert (description old < first_new)%nat as Hlt.
    { eapply (Hold p); [auto| |done]. by rewrite Hat. }
    unfold unlock. destruct (holder (os s) !! inode old) as [h|] eqn:Hh; [|done].
    case_decide as Hd; [|done]. simpl. split_and!; try done.
    rewrite lookup_delete_ne; [done|]. intros Heq. rewrite Heq in Hh.
    destruct Hfd as [[? ?] ?]. simplify_eq. lia. }
  assert (later (os s) k') as Hlater.
  { split; [by rewrite Hdir | by rewrite Hnext]. }
  split.
  - done.
  - settle. by rewrite Hnext.
  - intros x fd1 [->| ->]; settle.
    + intros Hnot. by destruct (Hnot LogAcquired).
    + apply Hold; auto.
  - settle. done.
  - right; left. settle. exists fd. split_and!.
    + by eapply fresh_later.
    + done.
    + constructor. by rewrite lookup_insert_eq.
    + destruct Hq; [left; by eapply pending_later
                   |right; by eapply losing_later].
    + done.
Qed.

Lemma contest_step_close p q s n fd :
  p ≠ q → contest p q s → at_ (process_of s p) = AtClose n fd →
  contest p q (step lock_timeout p s).
Proof.
  intros Hne C Hat. rewrite (step_close _ _ _ _ Hat).
  destruct (contest_loser p q s n C) as (-> & Hlead); [eauto|].
  assert (fresh (os s) fd) as Hfd
    by (eapply contest_in_hand; [done|by left|by rewrite Hat]).
  destruct C as [Htidy Hnew Hold Hapart _].
  destruct Hlead as (fd0 & Hfd0 & Hheld & Hwin & Hother & Hdiff).
  assert (unlock fd (os s) = os s) as ->.
  { unfold unlock. rewrite (fresh_same_inode _ _ _ Hfd Hfd0), Hheld.
    rewrite decide_False; [done|].
    intros Heq; eapply Hdiff; [by rewrite Hat|done]. }
  split.
  - done.
  - by settle.
  - intros x fd1 [->| ->]; settle.
    + intros _. apply Hold; [auto|]. by rewrite Hat.
    + apply Hold; auto.
  - settle. done.
  - right; right. settle. exists fd0. split_and!; try done.
    right. constructor.
Qed.

Lemma contest_step_stat p q s n :
  p ≠ q → contest p q s → at_ (process_of s p) = AtStat n →
  contest p q (step lock_timeout p s).
Proof.
  intros Hne C Hat. rewrite (step_stat _ _ _ Hat).
  destruct (contest_loser p q s n C) as (-> & Hlead); [eauto|].
  destruct C as [Htidy Hnew Hold Hapart _].
  destruct Hlead as (fd0 & Hfd0 & Hheld & Hwin & Hother & Hdiff).
  split.
  - done.
  - by settle.
  - intros x fd1 [->| ->]; settle.
    + intros _. apply Hold; [auto|]. by rewrite Hat.
    + apply Hold; auto.
  - settle. done.
  - right; right. settle. exists fd0. split_and!; try done.
    right. constructor.
Qed.

(** Every step of one of the two calls keeps the contest as it is
    described. *)
Lemma contest_step p q s :
  p ≠ q → contest p q s → contest p q (step lock_timeout p s).
Proof.
  intros Hne C. destruct (at_ (process_of s p)) eqn:Hat.
  - unfold step. by rewrite Hat.
  - by eapply contest_step_open.
  - by eapply contest_step_flock.
  - by eapply contest_step_write.
  - by eapply contest_step_store.
  - by eapply contest_step_close.
  - by eapply contest_step_stat.
  - unfold step. by rewrite Hat.
Qed.

Lemma contest_perform p q s ev :
  p ≠ q → (∀ x, ev = Run x → x = p ∨ x = q) →
  contest p q s → contest p q (perform lock_timeout s ev).
Proof.
  intros Hne Hev C. destruct ev as [x|d]; [|by apply contest_wait].
  destruct (Hev x eq_refl) as [->| ->]; simpl.
  - by apply contest_step.
  - apply contest_sym, contest_step; [done|]. by apply contest_sym.
Qed.

Lemma contest_interleave p q schedule s :
  p ≠ q → (∀ x, Run x ∈ schedule → x = p ∨ x = q) →
  contest p q s → contest p q (interleave lock_timeout schedule s).
Proof.
  intros Hne. revert s. unfold interleave.
  induction schedule as [|ev schedule IH]; intros s Hev C; [done|].
  simpl. apply IH.
  - intros x Hx. apply Hev. by right.
  - apply contest_perform; [done| |done]. intros x ->. apply Hev. by left.
Qed.

(** Two calls entering at a time the lock is free. *)
Lemma contest_start p q s :
  p ≠ q → tidy s → lock_facts.free func_name s →
  first_new = next_description (os s) →
  contest p q (enter q func_name (enter p func_name s)).
Proof.
  intros Hne [Htidy Hfds] Hfree ->.
  assert (process_of (enter q func_name (enter p func_name s)) p
          = {| active_locks := active_locks (process_of s p);
               at_ := AtOpen func_name |}) as Hp.
  { rewrite process_of_enter_ne by done. apply process_of_enter_eq. }
  assert (process_of (enter q func_name (enter p func_name s)) q
          = {| active_locks := active_locks (process_of s q);
               at_ := AtOpen func_name |}) as Hq.
  { rewrite process_of_enter_eq. by rewrite process_of_enter_ne. }
  split; rewrite ?Hp, ?Hq; simpl.
  - done.
  - done.
  - intros x fd [->| ->]; rewrite ?Hp, ?Hq; simpl; intros _ Hfd;
      by eapply Hfds.
  - done.
  - left. split_and!; [constructor..|done].
Qed.

(** When both calls have returned, one has the lock and the other was
    refused. *)
Lemma contest_end p q s :
  contest p q s →
  remaining (at_ (process_of s p)) = 0%nat →
  remaining (at_ (process_of s q)) = 0%nat →
  ∃ x y fd lx ly,
    (x = p ∧ y = q ∨ x = q ∧ y = p)
    ∧ at_ (process_of s x) = Returned true lx
    ∧ at_ (process_of s y) = Returned false ly
    ∧ active_locks (process_of s x) !! func_name = Some fd
    ∧ directory (os s) !! func_name = Some (inode fd)
    ∧ holder (os s) !! inode fd = Some (description fd).
Proof.
  intros [_ _ _ _ Hphase] Hp Hq.
  assert (∀ x y, leads s x y →
                 remaining (at_ (process_of s x)) = 0%nat →
                 remaining (at_ (process_of s y)) = 0%nat →
                 ∃ fd lx ly,
                   at_ (process_of s x) = Returned true lx
                   ∧ at_ (process_of s y) = Returned false ly
                   ∧ active_locks (process_of s x) !! func_name = Some fd
                   ∧ directory (os s) !! func_name = Some (inode fd)
                   ∧ holder (os s) !! inode fd = Some (description fd))
    as Hleads.
  { intros x y (fd & [_ Hdir] & Hheld & Hwin & Hother & _) Hx Hy.
    inversion Hwin as [Heq|Heq|lx Hentry Heq]; rewrite <- Heq in Hx;
      try discriminate Hx.
    destruct Hother as [Hother|Hother].
    { inversion Hother as [Heq'|? ? Heq']; rewrite <- Heq' in Hy;
        discriminate Hy. }
    inversion Hother as [? ? Heq'|Heq'|ly Heq']; rewrite <- Heq' in Hy;
      try discriminate Hy.
    by exists fd, lx, ly. }
  destruct Hphase as [(Hpending & _)|[Hlead|Hlead]].
  - inversion Hpending as [Heq|? ? Heq]; rewrite <- Heq in Hp; discriminate Hp.
  - destruct (Hleads p q Hlead Hp Hq) as (fd & lx & ly & ?).
    exists p, q, fd, lx, ly. auto.
  - destruct (Hleads q p Hlead Hq Hp) as (fd & lx & ly & ?).
    exists q, p, fd, lx, ly. auto.
Qed.

End two_calls.

(** A call is over once the schedule gave it four turns. *)
Lemma interleave_remaining p schedule s :
  remaining (at_ (process_of (interleave lock_timeout schedule s) p))
  = (remaining (at_ (process_of s p)) - turns p schedule)%nat.
Proof.
  revert s. unfold interleave, turns.
  induction schedule as [|ev schedule IH]; intros s; simpl; [lia|].
  rewrite IH. destruct ev as [x|d]; simpl.
  - case_bool_decide as Hx; simpl.
    + subst x. rewrite step_remaining. lia.
    + by rewrite step_other_remaining.
  - done.
Qed.
End lock_steps.

Import watchlist_scheduler.

Lemma tidy_boot : lock_facts.tidy lock_facts.boot.
Proof.
  split; [split|]; simpl.
  - intros name i Hi. by rewrite lookup_empty in Hi.
  - intros i h Hi. by rewrite lookup_empty in Hi.
  - intros p name fd Hfd. unfold process_of in Hfd. simpl in Hfd.
    rewrite lookup_empty in Hfd. simpl in Hfd. by rewrite lookup_empty in Hfd.
Qed.

Lemma free_boot func_name : lock_facts.free func_name lock_facts.boot.
Proof. intros i Hi. simpl in Hi. by rewrite lookup_empty in Hi. Qed.

(** [tidy_kernel] in a form that can be computed on a given kernel. *)
Lemma tidy_kernel_checked k :
  map_Forall (λ _ i, (i < next_inode k)%nat) (directory k) →
  map_Forall (λ i h, (i < next_inode k)%nat ∧ (h < next_description k)%nat)
             (holder k) →
  lock_facts.tidy_kernel k.
Proof.
  intros Hdir Hlock. split; [intros name i Hi | intros i h Hi].
  - by apply (Hdir name i).
  - by apply (Hlock i h).
Qed.

(** C9. The failing input: process 1 takes the lock of the upgrade job
    and holds it; a year later, the timeout being 7200, process 2 asks
    for it. The lock file was last written when the lock was taken, so
    it is far older than the timeout when the call begins. The call is
    refused and the lock stays, but its own [open(lock_file, 'w')] has
    made the file new: the age it reads is nothing and the line it logs
    is the already-running one, not the staleness warning. *)
Lemma year_old_lock_is_reported_as_running :
  let name := "upgrade_job"%string in
  let held := (watchlist_scheduler.with_job_lock 7200 1%nat name
                 lock_facts.boot).2 in
  let old := watchlist_scheduler.interleave 7200 [Wait 31536000] held in
  let r := watchlist_scheduler.with_job_lock 7200 2%nat name old in
  (directory (os old) !! name = Some 0%nat
   ∧ holder (os old) !! 0%nat = Some 0%nat
   ∧ mtime (os old) !! 0%nat = Some 0
   ∧ time (os old) = 31536000)
  ∧ r.1 = false
  ∧ at_ (process_of r.2 2%nat) = Returned false LogAlreadyRunning
  ∧ mtime (os r.2) !! 0%nat = Some 31536000
  ∧ holder (os r.2) !! 0%nat = Some 0%nat.
Proof. vm_compute. repeat split. Qed.

(** X26. For each job name, two calls of [with_job_lock] that start
    while the lock is free and whose system calls interleave in any
    order end with one of them returning [True] and the other [False];
    the one that returned [True] holds the lock: its file object is
    entered under the name of the job, the lock file names its inode
    and the kernel's lock on that inode is its own. *)
Theorem two_calls_one_winner lock_timeout func_name p q s schedule :
  p ≠ q → lock_facts.tidy s → lock_facts.free func_name s →
  (∀ x, Run x ∈ schedule → x = p ∨ x = q) →
  (4 ≤ lock_facts.turns p schedule)%nat →
  (4 ≤ lock_facts.turns q schedule)%nat →
  let s' := watchlist_scheduler.interleave lock_timeout schedule
              (enter q func_name (enter p func_name s)) in
  ∃ x y fd lx ly,
    (x = p ∧ y = q ∨ x = q ∧ y = p)
    ∧ at_ (process_of s' x) = Returned true lx
    ∧ at_ (process_of s' y) = Returned false ly
    ∧ active_locks (process_of s' x) !! func_name = Some fd
    ∧ directory (os s') !! func_name = Some (inode fd)
    ∧ holder (os s') !! inode fd = Some (description fd).
Proof.
  intros Hne Htidy Hfree Hsched Hp Hq s'.
  assert (lock_facts.contest func_name (next_description (os s)) p q s')
    as C.
  { apply contest_interleave; [done..|]. by apply contest_start. }
  eapply contest_end; [done|..]; unfold s';
    rewrite interleave_remaining.
  - rewrite process_of_enter_ne, process_of_enter_eq by done. simpl. lia.
  - rewrite process_of_enter_eq. simpl. lia.
Qed.

(** A worked instance of X26: two processes started on a fresh machine
    take turns, process 1 moving first, the clock moving in between. *)
Lemma two_calls_one_winner_witness :
  let name := "upgrade_job"%string in
  let s' := watchlist_scheduler.interleave 7200
              [Run 1%nat; Run 2%nat; Run 1%nat; Wait 5; Run 2%nat;
               Run 1%nat; Run 2%nat; Run 1%nat; Run 2%nat]
              (enter 2%nat name (enter 1%nat name lock_facts.boot)) in
  ∃ x y fd lx ly,
    (x = 1%nat ∧ y = 2%nat ∨ x = 2%nat ∧ y = 1%nat)
    ∧ at_ (process_of s' x) = Returned true lx
    ∧ at_ (process_of s' y) = Returned false ly
    ∧ active_locks (process_of s' x) !! name = Some fd
    ∧ directory (os s') !! name = Some (inode fd)
    ∧ holder (os s') !! inode fd = Some (description fd).
Proof.
  intros name s'.
  apply (two_calls_one_winner 7200 name 1%nat 2%nat lock_facts.boot).
  - lia.
  - exact tidy_boot.
  - exact (free_boot name).
  - intros x Hx. rewrite !elem_of_cons, elem_of_nil in Hx.
    decompose [or] Hx; simplify_eq; first [done | auto].
  - vm_compute. lia.
  - vm_compute. lia.
Defined.

(** X28. A call that finds the lock held returns [False] and leaves the
    lock, the lock file's name and its own entries as they were. Its
    own [open] has set the modification time of the lock file to the
    time of the call, so the age it compares with the timeout is the
    time the call itself has taken since: it logs the staleness warning
    exactly when that exceeds the timeout, however old the lock file
    was. *)
Theorem refused_call_age lock_timeout p func_name d1 d2 d3 s i h :
  directory (os s) !! func_name = Some i →
  holder (os s) !! i = Some h →
  (h < next_description (os s))%nat →
  let s' := watchlist_scheduler.interleave lock_timeout
              (lock_facts.unhurried p d1 d2 d3) (enter p func_name s) in
  at_ (process_of s' p)
  = Returned false
      (if lock_timeout <? Z.of_N d1 + Z.of_N d2 + Z.of_N d3
       then LogStale else LogAlreadyRunning)
  ∧ mtime (os s') !! i = Some (time (os s))
  ∧ time (os s') = time (os s) + (Z.of_N d1 + Z.of_N d2 + Z.of_N d3)
  ∧ holder (os s') !! i = Some h
  ∧ directory (os s') !! func_name = Some i
  ∧ active_locks (process_of s' p) = active_locks (process_of s p).
Proof. apply refused_call. Qed.

(** A worked instance of X28: process 1 holds the lock; the call of
    process 2 takes 7201 between its [close] and its [stat], against a
    timeout of 7200, and logs the staleness warning. *)
Lemma refused_call_age_witness :
  let name := "upgrade_job"%string in
  let held := (watchlist_scheduler.with_job_lock 7200 1%nat name
                 lock_facts.boot).2 in
  let s' := watchlist_scheduler.interleave 7200
              (lock_facts.unhurried 2%nat 0 0 7201) (enter 2%nat name held) in
  at_ (process_of s' 2%nat) = Returned false LogStale
  ∧ holder (os s') !! 0%nat = Some 0%nat.
Proof.
  intros name held s'.
  destruct (refused_call_age 7200 2%nat name 0 0 7201 held 0%nat 0%nat)
    as (Hat & _ & _ & Hheld & _).
  - vm_compute. reflexivity.
  - vm_compute. reflexivity.
  - vm_compute. lia.
  - split; [exact Hat | exact Hheld].
Defined.

(** ** The cache table *)

Section cache_table.
Import database cache_facts.

Lemma update_first_length p f (db : list row) :
  length (update_first p f db) = length db.
Proof.
  induction db as [|r db IH]; simpl; [done|].
  destruct (p r); simpl; by rewrite ?IH.
Qed.

Lemma update_first_fmap {A} (col : row → A) p f (db : list row) :
  (∀ r, col (f r) = col r) →
  col <$> update_first p f db = col <$> db.
Proof.
  intros Hcol. induction db as [|r db IH]; [done|]. cbn [update_first].
  destruct (p r); rewrite !fmap_cons, ?Hcol, ?IH; done.
Qed.

Lemma update_first_omap {A} (col : row → option A) p f (db : list row) :
  (∀ r, col (f r) = col r) →
  omap col (update_first p f db) = omap col db.
Proof.
  intros Hcol. induction db as [|r db IH]; [done|]. cbn [update_first].
  destruct (p r); csimpl; rewrite ?Hcol, ?IH; done.
Qed.

Lemma keeps_update_first {A} (col : row → A) p f (db : list row) :
  (∀ r, col (f r) = col r) → keeps col db (update_first p f db).
Proof.
  intros Hcol. split; [rewrite update_first_length; lia|].
  rewrite <- (update_first_length p f db), firstn_all.
  by apply update_first_fmap.
Qed.

Lemma keeps_snoc {A} (col : row → A) (db : list row) r :
  keeps col db (db ++ [r]).
Proof.
  split; [rewrite length_app; simpl; lia|].
  by rewrite take_app_length.
Qed.

(** No row has the rating key of a row about to be inserted. *)
Lemma fresh_rating_key (p : row → bool) rk (db : list row) :
  existsb p db = false →
  (∀ r, col_eq (rating_key r) rk = true → p r = true) →
  ∀ k, rk = Some k → k ∉ omap rating_key db.
Proof.
  intros Hnone Hp k -> Hin.
  apply list_elem_of_omap in Hin as (r & Hr & Hk).
  assert (p r = true) as Hpr.
  { apply Hp. unfold col_eq. rewrite Hk. apply String.eqb_refl. }
  assert (existsb p db = true) as Hex.
  { apply existsb_exists. exists r. split; [by apply list_elem_of_In|done]. }
  congruence.
Qed.

Lemma unique_keys_snoc (db : list row) r :
  unique_keys db →
  (∀ k, rating_key r = Some k → k ∉ omap rating_key db) →
  unique_keys (db ++ [r]).
Proof.
  unfold unique_keys. intros Hdb Hnew. rewrite omap_app. simpl.
  destruct (rating_key r) as [k|] eqn:Hk; simpl; [|by rewrite app_nil_r].
  apply NoDup_app. split_and!; [done| |apply NoDup_singleton].
  intros x Hx ->%list_elem_of_singleton. by eapply Hnew.
Qed.

(** X1. The three writers of the cache table keep the rating keys
    unique: from a table in which no two rows share a rating key,
    [save_plex_metadata], [mark_movie_as_searched] and
    [mark_movie_as_processed] each give such a table again, so none of
    their statements can fail on the UNIQUE constraint. *)
Theorem writers_keep_rating_keys_unique m t db :
  unique_keys db →
  unique_keys (save_plex_metadata m db)
  ∧ unique_keys (mark_movie_as_searched t m db)
  ∧ unique_keys (mark_movie_as_processed t m db).
Proof.
  intros Hdb. split_and!.
  - unfold save_plex_metadata.
    destruct (existsb _ db) eqn:Hex.
    + unfold unique_keys. by rewrite update_first_omap.
    + apply unique_keys_snoc; [done|]. simpl. intros k Hk.
      eapply fresh_rating_key; [exact Hex| |exact Hk].
      intros r Hr. exact Hr.
  - unfold mark_movie_as_searched.
    destruct (existsb _ db) eqn:Hex.
    + unfold unique_keys. by rewrite update_first_omap.
    + apply unique_keys_snoc; [done|]. simpl. intros k Hk.
      eapply fresh_rating_key; [done| |done].
      intros r Hr. unfold matches. by rewrite Hr.
  - unfold mark_movie_as_processed.
    destruct (existsb _ db) eqn:Hex.
    + unfold unique_keys. by rewrite update_first_omap.
    + apply unique_keys_snoc; [done|]. simpl. intros k Hk.
      eapply fresh_rating_key; [done| |done].
      intros r Hr. unfold matches. by rewrite Hr.
Qed.

(** A worked instance of X1: a table of one row, and a movie with a
    rating key of its own. *)
Lemma writers_keep_rating_keys_unique_witness :
  let db := [sample_world.cache_row (Some "1") (Some "tt1") None None] in
  unique_keys (save_plex_metadata sample_runs.wanted db)
  ∧ unique_keys (mark_movie_as_searched 5 sample_runs.wanted db)
  ∧ unique_keys (mark_movie_as_processed 5 sample_runs.wanted db).
Proof.
  intros db. apply writers_keep_rating_keys_unique.
  unfold unique_keys. simpl. apply NoDup_singleton.
Defined.

(** X2. No writer deletes or moves a row or changes a rating key, and
    each adds at most one row, at the end. [save_plex_metadata] leaves
    both timestamp columns of the rows as they are,
    [mark_movie_as_searched] the column [last_processed] and
    [mark_movie_as_processed] the column [last_radarr_search]. *)
Theorem writers_keep_rows m t db :
  (keeps rating_key db (save_plex_metadata m db)
   ∧ keeps last_radarr_search db (save_plex_metadata m db)
   ∧ keeps last_processed db (save_plex_metadata m db))
  ∧ (keeps rating_key db (mark_movie_as_searched t m db)
     ∧ keeps last_processed db (mark_movie_as_searched t m db))
  ∧ (keeps rating_key db (mark_movie_as_processed t m db)
     ∧ keeps last_radarr_search db (mark_movie_as_processed t m db)).
Proof.
  unfold save_plex_metadata, mark_movie_as_searched, mark_movie_as_processed.
  split_and!; destruct (existsb _ db);
    first [by apply keeps_update_first | apply keeps_snoc].
Qed.


Lemma find_update_first p f (db : list row) :
  (∀ r, p (f r) = p r) →
  List.find p (update_first p f db) = f <$> List.find p db.
Proof.
  intros Hp. induction db as [|r db IH]; simpl; [done|].
  destruct (p r) eqn:Hr; simpl.
  - by rewrite Hp, Hr.
  - by rewrite Hr.
Qed.

Lemma find_ext (p q : row → bool) (db : list row) :
  (∀ r, p r = q r) → List.find p db = List.find q db.
Proof.
  intros Hpq. induction db as [|r db IH]; simpl; [done|].
  by rewrite Hpq, IH.
Qed.

Lemma col_eq_none col : col_eq col None = false.
Proof. by destruct col. Qed.

Lemma clean_stripped s : s ≠ "" → strip s = s → clean (Some s) = Some s.
Proof.
  intros Hs Hstrip. unfold clean. rewrite Hstrip.
  by rewrite (proj2 (nonempty_true s) Hs).
Qed.

(** The lookup by a rating key that is written as it is stored. *)
Lemma get_by_rating_key rk db :
  rk ≠ "" → strip rk = rk →
  get_plex_metadata (Some rk) None None db
  = List.find (λ r, col_eq (rating_key r) (Some rk)) db.
Proof.
  intros Hrk Hstrip. unfold get_plex_metadata. rewrite clean_stripped by done.
  simpl. apply find_ext. intros r. unfold matches.
  by rewrite !col_eq_none, !orb_false_r.
Qed.

(** X3. Saving an item and looking it up by its rating key gives the
    item back: the row found bears the rating key, the identifiers,
    title and year as [save_plex_metadata] stores them, and the two
    timestamps of the row that had the rating key before, or none when
    there was no such row. The rating key is non-empty and has no blanks
    around it. *)
Theorem save_then_get m db rk :
  ratingKey m = Some rk → rk ≠ "" → strip rk = rk →
  ∃ r, get_plex_metadata (Some rk) None None (save_plex_metadata m db) = Some r
       ∧ rating_key r = Some rk
       ∧ imdb_id r = or_none (imdbId m)
       ∧ tmdb_id r = tmdb_text (tmdbId m)
       ∧ row_title r = title_of m
       ∧ row_year r = year_of m
       ∧ last_radarr_search r
         = get_plex_metadata (Some rk) None None db ≫= last_radarr_search
       ∧ last_processed r
         = get_plex_metadata (Some rk) None None db ≫= last_processed.
Proof.
  intros Hkey Hrk Hstrip. rewrite !get_by_rating_key by done.
  unfold save_plex_metadata. rewrite Hkey. simpl.
  rewrite (proj2 (nonempty_true rk) Hrk).
  set (p := λ r, col_eq (rating_key r) (Some rk)).
  destruct (existsb p db) eqn:Hex.
  - rewrite find_update_first by done.
    destruct (first_match p db Hex) as (before & r0 & after & -> & Hnone & Hr0).
    rewrite find_app_l by done. simpl. rewrite Hr0. simpl.
    eexists. split; [reflexivity|]. simpl. split_and!; try done.
    unfold p, col_eq in Hr0. destruct (rating_key r0) as [k|]; [|done].
    by apply String.eqb_eq in Hr0 as ->.
  - rewrite find_app_l by by apply no_match.
    assert (List.find p db = None) as ->.
    { destruct (List.find p db) as [r|] eqn:Hfind; [|done].
      apply find_some in Hfind as [Hin Hr].
      rewrite (no_match p db Hex r) in Hr; [done|]. by apply list_elem_of_In. }
    simpl. unfold p at 1. simpl. rewrite String.eqb_refl.
    eexists. split; [reflexivity|]. by simpl.
Qed.

(** A worked instance of X3: the first wanted movie, saved into an empty
    table. *)
Lemma save_then_get_witness :
  ∃ r, get_plex_metadata (Some "1") None None
         (save_plex_metadata sample_runs.wanted []) = Some r
       ∧ imdb_id r = Some "tt1" ∧ tmdb_id r = Some "101".
Proof.
  destruct (save_then_get sample_runs.wanted [] "1")
    as (r & Hr & _ & Himdb & Htmdb & _); [reflexivity | discriminate | reflexivity |].
  exists r. split; [exact Hr|]. split; [exact Himdb | exact Htmdb].
Defined.

(** X4. An item that has a rating key is saved once however often
    [save_plex_metadata] runs on it; an item without one (an item of the
    friends' feed) matches no row and is inserted as a new row by every
    save. *)
Theorem save_again m db :
  (is_Some (or_none (ratingKey m)) →
   save_plex_metadata m (save_plex_metadata m db) = save_plex_metadata m db)
  ∧ (or_none (ratingKey m) = None →
     ∃ r, save_plex_metadata m db = db ++ [r]
          ∧ save_plex_metadata m (save_plex_metadata m db) = db ++ [r; r]).
Proof.
  split.
  - intros [rk Hrk]. unfold save_plex_metadata. rewrite Hrk.
    set (p := λ r, col_eq (rating_key r) (Some rk)).
    set (f := λ r, {| rating_key := rating_key r;
                      imdb_id := or_none (imdbId m);
                      tmdb_id := tmdb_text (tmdbId m);
                      row_title := title_of m; row_year := year_of m;
                      last_radarr_search := last_radarr_search r;
                      last_processed := last_processed r |}).
    destruct (existsb p db) eqn:Hex.
    + destruct (first_match p db Hex)
        as (before & r0 & after & -> & Hnone & Hr0).
      rewrite update_first_app_l by done. simpl. rewrite Hr0.
      rewrite existsb_app_l by done. simpl.
      replace (p (f r0)) with true by done. simpl.
      rewrite update_first_app_l by done. simpl.
      by replace (p (f r0)) with true by done.
    + rewrite existsb_app_l by by apply no_match.
      simpl. unfold p at 1. simpl. rewrite String.eqb_refl. simpl.
      rewrite update_first_app_l by by apply no_match.
      simpl. unfold p at 1. simpl. by rewrite String.eqb_refl.
  - intros Hnone. unfold save_plex_metadata. rewrite Hnone.
    assert (∀ rows, existsb (λ r, col_eq (rating_key r) None) rows = false)
      as Hfree.
    { intros rows. induction rows as [|r rows IH]; simpl; [done|].
      by rewrite col_eq_none. }
    rewrite !Hfree. eexists. split; [reflexivity|].
    by rewrite <- app_assoc.
Qed.

(** A worked instance of X4: the first wanted movie has the rating key
    1; an item of the feed has none. *)
Lemma save_again_witness :
  save_plex_metadata sample_runs.wanted
    (save_plex_metadata sample_runs.wanted [])
  = save_plex_metadata sample_runs.wanted []
  ∧ length (save_plex_metadata (sample.item "F" None (Some "tt9") None)
              (save_plex_metadata (sample.item "F" None (Some "tt9") None) []))
    = 2%nat.
Proof.
  split.
  - apply (save_again sample_runs.wanted []). by eexists.
  - destruct (save_again (sample.item "F" None (Some "tt9") None) [])
      as [_ Hnew].
    destruct (Hnew eq_refl) as (r & _ & ->). reflexivity.
Defined.

(** X5. [get_plex_metadata] answers with the first row, in the order of
    insertion, of which one column equals the identifier supplied for it
    (blanks around the identifiers stripped), and with nothing exactly
    when no row is such; identifiers that are all missing, empty or
    blank find nothing. *)
Theorem get_plex_metadata_first rk imdb tmdb db :
  match get_plex_metadata rk imdb tmdb db with
  | Some r =>
      ∃ before after,
        db = before ++ r :: after
        ∧ matches (clean rk) (clean imdb) (clean tmdb) r = true
        ∧ ∀ x, x ∈ before →
               matches (clean rk) (clean imdb) (clean tmdb) x = false
  | None =>
      ∀ x, x ∈ db → matches (clean rk) (clean imdb) (clean tmdb) x = false
  end.
Proof.
  assert (∀ p (rows : list row),
            match List.find p rows with
            | Some r => ∃ before after, rows = before ++ r :: after
                          ∧ p r = true ∧ ∀ x, x ∈ before → p x = false
            | None => ∀ x, x ∈ rows → p x = false
            end) as Hfind.
  { intros p rows. induction rows as [|x rows IH]; simpl.
    - intros x Hx. by apply not_elem_of_nil in Hx.
    - destruct (p x) eqn:Hx.
      + exists [], rows. split_and!; [done..|].
        intros y Hy. by apply not_elem_of_nil in Hy.
      + destruct (List.find p rows) as [r|].
        * destruct IH as (before & after & -> & Hr & Hnone).
          exists (x :: before), after. split_and!; [done..|].
          intros y [->|Hy]%elem_of_cons; [done | by apply Hnone].
        * intros y [->|Hy]%elem_of_cons; [done | by apply IH]. }
  unfold get_plex_metadata.
  destruct (clean rk) as [k|] eqn:Hrk; [apply Hfind|].
  destruct (clean imdb) as [i|] eqn:Himdb; [apply Hfind|].
  destruct (clean tmdb) as [t|] eqn:Htmdb; [apply Hfind|].
  intros x _. unfold matches. by rewrite !col_eq_none.
Qed.

End cache_table.
(** ** The cooldown of a week and the daily counter *)

Section week_and_counter.
Import database search_conditions.

Lemma days_between_week now t :
  (7 <=? days_between now t) = true ↔ 7 * microseconds_per_day ≤ now - t.
Proof.
  unfold days_between. rewrite Z.leb_le.
  assert (0 < microseconds_per_day) as Hpos by done.
  split.
  - intros H. apply (Z.mul_le_mono_nonneg_l _ _ microseconds_per_day) in H;
      [|lia].
    pose proof (Z.mul_div_le (now - t) microseconds_per_day Hpos). lia.
  - intros H. apply Z.div_le_lower_bound; lia.
Qed.

(** X6. [should_trigger_search] denies a movie exactly when the cache
    has a record of it whose last-search text parses to an instant less
    than seven times 24 hours back (an instant in the future counts as
    such); it admits in every other case. A movie that is admitted stays
    admitted as time goes on, the table being the same. *)
Theorem should_trigger_search_week :
  (∀ now db m,
     should_trigger_search now db m = false
     ↔ ∃ r t, lookup m db = Some r
              ∧ last_radarr_search r = Some (IsoText t)
              ∧ now - t < 7 * microseconds_per_day)
  ∧ (∀ now now' db m,
       now ≤ now' →
       should_trigger_search now db m = true →
       should_trigger_search now' db m = true).
Proof.
  assert (∀ now db m,
            should_trigger_search now db m = false
            ↔ ∃ r t, lookup m db = Some r
                     ∧ last_radarr_search r = Some (IsoText t)
                     ∧ now - t < 7 * microseconds_per_day) as Hdeny.
  { intros now db m. unfold should_trigger_search. split.
    - destruct (lookup m db) as [r|]; [|done].
      destruct (last_radarr_search r) as [[t|]|] eqn:Hlast; [|done..].
      intros Hweek. exists r, t. split_and!; [done..|].
      destruct (decide (7 * microseconds_per_day ≤ now - t)) as [Hle|]; [|lia].
      apply days_between_week in Hle. congruence.
    - intros (r & t & -> & -> & Hlt).
      apply not_true_is_false. rewrite days_between_week. lia. }
  split; [exact Hdeny|].
  intros now now' db m Hlater Hadmit.
  apply not_false_is_true. intros (r & t & Hr & Ht & Hlt)%Hdeny.
  assert (should_trigger_search now db m = false); [|congruence].
  apply Hdeny. exists r, t. split_and!; [done..|lia].
Qed.

(** A worked instance of X6: a movie without a record is admitted now
    and a day later. *)
Lemma should_trigger_search_week_witness :
  should_trigger_search (sample_runs.in_2026 + microseconds_per_day) []
    sample_runs.wanted = true.
Proof.
  destruct should_trigger_search_week as [_ Hlater].
  apply (Hlater sample_runs.in_2026).
  - unfold microseconds_per_day. lia.
  - reflexivity.
Defined.

(** X7. [increment_daily_search_count] returns one more than the count
    it reads (the count of the file when the file bears the date of that
    reading, else 0) and leaves the file holding what it returns, under
    the date it took when it began; a later reading of the same file
    gives that number back on that date and 0 on any other. *)
Theorem increment_then_read e w :
  ∃ k d w1,
    effects.increment_daily_search_count e w = (Some k, w1)
    ∧ k = read_daily_search_count (date_of (clock w1)) (counter_file w) + 1
    ∧ counter_file w1 = Some (d, k)
    ∧ date_of (clock w) ≤ d ≤ date_of (clock w1)
    ∧ ∀ w2, counter_file w2 = counter_file w1 →
            ∃ w3, effects.read_daily_search_count e w2
                  = (Some (if d =? date_of (clock w3) then k else 0), w3).
Proof.
  unfold effects.increment_daily_search_count,
    effects.read_daily_search_count, run.bind, run.now, run.read_counter,
    run.write_counter, run.ret. simpl.
  eexists _, _, _. split; [reflexivity|]. simpl. split_and!; [done..| | |].
  - apply date_of_mono. lia.
  - apply date_of_mono. lia.
  - intros w2 Hfile. exists (run.now e w2).2. simpl. by rewrite Hfile.
Qed.

End week_and_counter.

(** ** The index of the library *)

Section library_index.
Import radarr_api.

Lemma index_movie_unfold index m :
  index_movie index m
  = if nonempty (index_key m) then dict_set (index_key m) m index else index.
Proof. reflexivity. Qed.

(** What holds of the dictionary [build_radarr_index] builds. *)
Lemma radarr_index_inv movies :
  let index := foldl index_movie [] movies in
  NoDup (dict_keys index)
  ∧ (∀ k m, dict_get k index = Some m →
            k ≠ "" ∧ m ∈ movies ∧ index_key m = k)
  ∧ (∀ l1 m l2, movies = l1 ++ m :: l2 → index_key m ≠ "" →
                (∀ x, x ∈ l2 → index_key x ≠ index_key m) →
                dict_get (index_key m) index = Some m).
Proof.
  induction movies as [|item movies IH] using rev_ind; simpl.
  - split_and!; [apply NoDup_nil_2 | done |].
    intros l1 m l2 H. by destruct l1.
  - rewrite foldl_snoc, index_movie_unfold.
    destruct IH as (Hnd & Hsound & Hlast).
    destruct (nonempty (index_key item)) eqn:Hk.
    + apply nonempty_true in Hk. split_and!.
      * by apply dict_keys_NoDup_set.
      * intros k it Hget. destruct (decide (index_key item = k)) as [<-|Hne].
        -- rewrite dict_get_set_eq in Hget. injection Hget as <-.
           split_and!; [done | set_solver | done].
        -- rewrite dict_get_set_ne in Hget by done.
           apply Hsound in Hget as (? & ? & ?).
           split_and!; [done | set_solver | done].
      * intros l1 p l2 Heq Hp Hl2.
        destruct l2 as [|y l2 _] using rev_ind.
        -- apply (app_inj_tail movies l1 item p) in Heq as [-> ->].
           apply dict_get_set_eq.
        -- rewrite app_comm_cons, app_assoc in Heq.
           apply app_inj_tail in Heq as [-> ->].
           rewrite dict_get_set_ne.
           ++ apply (Hlast l1 p l2); [done | done |].
              intros x Hx. apply Hl2. set_solver.
           ++ apply Hl2. set_solver.
    + split_and!; [done | |].
      * intros k it Hget. apply Hsound in Hget as (? & ? & ?).
        split_and!; [done | set_solver | done].
      * intros l1 p l2 Heq Hp Hl2.
        destruct l2 as [|y l2 _] using rev_ind.
        -- apply (app_inj_tail movies l1 item p) in Heq as [-> ->].
           apply nonempty_false in Hk. done.
        -- rewrite app_comm_cons, app_assoc in Heq.
           apply app_inj_tail in Heq as [-> ->].
           apply (Hlast l1 p l2); [done | done |].
           intros x Hx. apply Hl2. set_solver.
Qed.

(** X8. [build_radarr_index] indexes the library by normalized IMDb id
    (trimmed, lower case): no key is empty or occurs twice, each entry
    is a movie of the library under its own id, a movie without an IMDb
    id is left out, and of the movies that share an id the last one
    listed is the one the index answers with. A failed request gives the
    empty index. *)
Theorem build_radarr_index_last_wins e w :
  let movies := default [] (all_movies e (trace w)) in
  ∃ index w',
    build_radarr_index e w = (Some index, w')
    ∧ NoDup (dict_keys index)
    ∧ (∀ k m, dict_get k index = Some m →
              k ≠ "" ∧ m ∈ movies ∧ index_key m = k)
    ∧ (∀ l1 m l2, movies = l1 ++ m :: l2 → index_key m ≠ "" →
                  (∀ x, x ∈ l2 → index_key x ≠ index_key m) →
                  dict_get (index_key m) index = Some m).
Proof.
  intros movies. eexists _, _. split; [reflexivity|].
  apply radarr_index_inv.
Qed.

(** X9. The movie the sync resolves a watchlist item to is a movie of
    the indexed library that has an IMDb id: it has the item's IMDb id
    when the item has one, and else the item's TMDB id. So a library
    movie without an IMDb id is never matched, not even by its TMDB
    id. *)
Theorem resolve_sound movies item found :
  main.resolve (foldl index_movie [] movies) item = Some found →
  found ∈ movies
  ∧ index_key found ≠ ""
  ∧ (main.imdb_of item ≠ "" → index_key found = main.imdb_of item)
  ∧ (main.imdb_of item = "" →
     main.tmdb_of item ≠ ""
     ∧ main.same_tmdb (main.tmdb_of item) found = true).
Proof.
  destruct (radarr_index_inv movies) as (Hnd & Hsound & _).
  set (index := foldl index_movie [] movies) in *.
  unfold main.resolve.
  destruct (nonempty (main.imdb_of item)) eqn:Himdb.
  - apply nonempty_true in Himdb.
    intros (Hk & Hin & Hkey)%Hsound. split_and!; [done|congruence|done|done].
  - apply nonempty_false in Himdb.
    destruct (nonempty (main.tmdb_of item)) eqn:Htmdb; [|done].
    apply nonempty_true in Htmdb.
    intros [Hin Hsame]%find_some.
    apply list_elem_of_In, dict_values_elem in Hin as (i & k & Hi).
    apply (dict_lookup_get _ _ _ _ Hnd), Hsound in Hi as (Hk & Hin & Hkey).
    split_and!; [done | congruence | done | done].
Qed.

(** A worked instance of X9: the sample library, and an item that has
    the IMDb id of its second record, written in capitals. *)
Lemma resolve_sound_witness :
  let item := sample.item "B" None (Some " TT2 ") None in
  let found := sample.record 6 "B" (Some "tt2") 102 (5 * 1024 ^ 3) [2] in
  found ∈ sample_runs.library ∧ index_key found = main.imdb_of item.
Proof.
  intros item found.
  destruct (resolve_sound sample_runs.library item found)
    as (Hin & _ & Hkey & _); [reflexivity|].
  split; [exact Hin | apply Hkey; discriminate].
Defined.

End library_index.
(** ** The tag cache over several calls *)

Section tag_calls.
Import run radarr_api.
Variable e : env.

(** A label the cache holds is answered from it, with no request. *)
Lemma get_or_create_tag_hit tag_name c i w :
  tag_cache w = Some c →
  cached_id (Some c) (lower tag_name) = Some i →
  get_or_create_tag e tag_name w = (Some (Some i), w).
Proof.
  intros Hcache Hhit. unfold get_or_create_tag, bind, get_tag_cache, ret.
  rewrite Hcache. simpl. by rewrite Hcache, Hhit.
Qed.

Lemma cached_id_insert c k i : cached_id (Some (<[k := i]> c)) k = Some i.
Proof.
  unfold cached_id. rewrite bool_decide_eq_false_2.
  - apply lookup_insert_eq.
  - apply insert_non_empty.
Qed.

(** What a call of [get_or_create_tag] from a cache that is set does. *)
Lemma get_or_create_tag_cached tag_name c w :
  tag_cache w = Some c →
  match cached_id (Some c) (lower tag_name) with
  | Some i => get_or_create_tag e tag_name w = (Some (Some i), w)
  | None =>
      match created_tag e (trace w) tag_name with
      | Some t =>
          ∃ w', get_or_create_tag e tag_name w = (Some (Some (tag_id t)), w')
                ∧ tag_cache w' = Some (<[lower tag_name := tag_id t]> c)
                ∧ trace w' = trace w ++ [(CreateTag tag_name, true)]
                ∧ db w' = db w
      | None =>
          ∃ w', get_or_create_tag e tag_name w = (Some None, w')
                ∧ tag_cache w' = Some c
                ∧ trace w' = trace w ++ [(CreateTag tag_name, false)]
                ∧ db w' = db w
      end
  end.
Proof.
  intros Hcache.
  destruct (cached_id (Some c) (lower tag_name)) as [i|] eqn:Hhit.
  { by apply get_or_create_tag_hit with c. }
  unfold get_or_create_tag, create_tag, bind, get_tag_cache, set_tag_cache,
    request, ret.
  rewrite Hcache. simpl. rewrite Hcache, Hhit. simpl.
  destruct (created_tag e (trace w) tag_name) as [t|]; simpl.
  - rewrite Hcache. simpl. eexists. split; [reflexivity|]. by simpl.
  - eexists. split; [reflexivity|]. by simpl.
Qed.

(** X10. Once [get_or_create_tag] has returned an id and the tag cache
    is set, asking again for the label, in whatever case it is written,
    returns the same id with no request and no other effect. (The cache
    is unset only when it was unset before and the listing failed.) *)
Theorem get_or_create_tag_again tag_name i w w' :
  get_or_create_tag e tag_name w = (Some (Some i), w') →
  is_Some (tag_cache w') →
  ∀ other, lower other = lower tag_name →
           get_or_create_tag e other w' = (Some (Some i), w').
Proof.
  intros Hcall [c' Hc'] other Hother.
  apply get_or_create_tag_hit with c'; [done|]. rewrite Hother.
  destruct (tag_cache w) as [c|] eqn:Hcache.
  - pose proof (get_or_create_tag_cached tag_name c w Hcache) as Hstep.
    destruct (cached_id (Some c) (lower tag_name)) as [j|] eqn:Hhit.
    + rewrite Hstep in Hcall. injection Hcall as -> <-.
      rewrite Hcache in Hc'. by injection Hc' as <-.
    + destruct (created_tag e (trace w) tag_name) as [t|].
      * destruct Hstep as (w1 & Hw1 & Hcache1 & _).
        rewrite Hw1 in Hcall. injection Hcall as <- <-.
        rewrite Hcache1 in Hc'. injection Hc' as <-. apply cached_id_insert.
      * destruct Hstep as (w1 & Hw1 & _). rewrite Hw1 in Hcall. done.
  - unfold get_or_create_tag, get_all_tags, bind, get_tag_cache at 1, request,
      ret in Hcall.
    rewrite Hcache in Hcall. simpl in Hcall.
    destruct (all_tags e (trace w)) as [tags|] eqn:Hlist; simpl in Hcall.
    + set (w0 := {| db := db w; counter_file := counter_file w;
                    counter_log := counter_log w; clock := clock w;
                    clock_reads := clock_reads w;
                    tag_cache := Some (cache_of tags);
                    trace := trace w ++ [(GetAllTags, true)] |}) in *.
      pose proof (get_or_create_tag_cached tag_name (cache_of tags) w0 eq_refl)
        as Hstep.
      assert (get_or_create_tag e tag_name w0 = (Some (Some i), w')) as Hcall0.
      { rewrite <- Hcall. unfold get_or_create_tag, bind, get_tag_cache, ret.
        done. }
      destruct (cached_id (Some (cache_of tags)) (lower tag_name))
        as [j|] eqn:Hhit.
      * rewrite Hstep in Hcall0. injection Hcall0 as -> <-.
        simpl in Hc'. by injection Hc' as <-.
      * destruct (created_tag e (trace w0) tag_name) as [t|].
        -- destruct Hstep as (w1 & Hw1 & Hcache1 & _).
           rewrite Hw1 in Hcall0. injection Hcall0 as <- <-.
           rewrite Hcache1 in Hc'. injection Hc' as <-.
           apply cached_id_insert.
        -- destruct Hstep as (w1 & Hw1 & _). rewrite Hw1 in Hcall0. done.
    + rewrite Hcache in Hcall. simpl in Hcall.
      unfold create_tag, bind, request, get_tag_cache, ret in Hcall.
      simpl in Hcall.
      destruct (created_tag e (trace w ++ [(GetAllTags, false)]) tag_name)
        as [t|]; simpl in Hcall.
      * injection Hcall as _ <-. simpl in Hc'. congruence.
      * done.
Qed.

End tag_calls.

(** A worked instance of X10: the tag [friend-ann] is created on the
    first call and found on the second, asked for in capitals. *)
Lemma get_or_create_tag_again_witness :
  let e := sample_world.env_of [] [] [] [{| tag_id := 1; label := "watchlist" |}] in
  let w := sample_world.world_at 0 [] in
  let w' := (radarr_api.get_or_create_tag e "friend-ann" w).2 in
  radarr_api.get_or_create_tag e "FRIEND-ANN" w' = (Some (Some 7), w').
Proof.
  intros e w w'.
  apply (get_or_create_tag_again e "friend-ann" 7 w w').
  - reflexivity.
  - by eexists.
  - reflexivity.
Defined.
(** ** The root folder of a payload *)

Section root_folder_of_path.

Lemma string_app_nil_r s : s +:+ "" = s.
Proof.
  induction s as [|a s IH]; [done|].
  change (String a s +:+ "") with (String a (s +:+ "")). by rewrite IH.
Qed.

Lemma string_app_assoc s1 s2 s3 : s1 +:+ s2 +:+ s3 = (s1 +:+ s2) +:+ s3.
Proof.
  induction s1 as [|a s1 IH]; [done|].
  change (String a s1 +:+ s2 +:+ s3) with (String a (s1 +:+ s2 +:+ s3)).
  change ((String a s1 +:+ s2) +:+ s3) with (String a ((s1 +:+ s2) +:+ s3)).
  by rewrite IH.
Qed.

Lemma rev_app_append s1 s2 : String.rev_app s1 s2 = String.rev s1 +:+ s2.
Proof.
  unfold String.rev. revert s2.
  induction s1 as [|a s1 IH]; intros s2; simpl; [done|].
  rewrite IH, (IH (String a "")). by rewrite <- string_app_assoc.
Qed.

Lemma split_go_cons sep cur s : ∃ part parts, split_go sep cur s = part :: parts.
Proof.
  revert cur. induction s as [|a s IH]; intros cur; simpl; [by eexists _, _|].
  destruct (decide (a = sep)); [by eexists _, _ | apply IH].
Qed.

(** Joining the parts of a split gives the text back. *)
Lemma join_split_go cur s :
  join "/" (split_go "/" cur s) = String.rev cur +:+ s.
Proof.
  revert cur. induction s as [|a s IH]; intros cur; cbn [split_go].
  - cbn [join]. by rewrite string_app_nil_r.
  - destruct (decide (a = "/"%char)) as [->|Hne].
    + destruct (split_go_cons "/" "" s) as (part & parts & Hparts).
      specialize (IH ""). rewrite Hparts in *.
      change (join "/" (String.rev cur :: part :: parts))
        with (String.rev cur +:+ "/" +:+ join "/" (part :: parts)).
      by rewrite IH.
    + rewrite IH. unfold String.rev. cbn [String.rev_app].
      rewrite (rev_app_append cur (String a "")), <- string_app_assoc.
      reflexivity.
Qed.

Lemma join_split p : join "/" (split "/" p) = p.
Proof. unfold split. by rewrite join_split_go. Qed.

Lemma join_app (l1 l2 : list string) :
  l1 ≠ [] → l2 ≠ [] →
  join "/" (l1 ++ l2) = join "/" l1 +:+ "/" +:+ join "/" l2.
Proof.
  intros H1 H2. induction l1 as [|x l1 IH]; [done|].
  destruct l1 as [|y l1].
  - destruct l2 as [|z l2]; [done|]. done.
  - change ((x :: y :: l1) ++ l2) with (x :: (y :: l1) ++ l2).
    change (join "/" (x :: (y :: l1) ++ l2))
      with (x +:+ "/" +:+ join "/" ((y :: l1) ++ l2)).
    rewrite IH by done.
    change (join "/" (x :: y :: l1)) with (x +:+ "/" +:+ join "/" (y :: l1)).
    by rewrite <- !string_app_assoc.
Qed.

(** The index [movies_part] finds, counted from [i]. *)
Lemma movies_part_spec i parts n :
  main.movies_part i parts = Some n →
  ∃ j dir, n = (i + j)%nat ∧ parts !! j = Some dir ∧ lower dir = "movies"
           ∧ (0 < n)%nat.
Proof.
  revert i. induction parts as [|part parts IH]; intros i; simpl; [done|].
  destruct (String.eqb (lower part) "movies" && (0 <? i)%nat) eqn:Hhere.
  - intros [= <-]. apply andb_true_iff in Hhere as [Hname Hpos].
    apply String.eqb_eq in Hname. apply Nat.ltb_lt in Hpos.
    exists 0%nat, part. split_and!; [lia | done | done | done].
  - intros (j & dir & -> & Hj & Hdir & Hpos)%IH.
    exists (S j), dir. split_and!; [lia | done | done | lia].
Qed.

(** No part before the one [movies_part] finds reads "movies", the
    leading part apart. *)
Lemma movies_part_first i parts n :
  main.movies_part i parts = Some n →
  ∀ j d, parts !! j = Some d → (0 < i + j < n)%nat → lower d ≠ "movies".
Proof.
  revert i. induction parts as [|part parts IH]; intros i; simpl; [done|].
  destruct (String.eqb (lower part) "movies" && (0 <? i)%nat) eqn:Hhere.
  - intros [= <-] j d _ ?. lia.
  - intros Hn [|j] d Hd Hj; simpl in Hd.
    + injection Hd as <-. intros Hname.
      apply andb_false_iff in Hhere as [Hhere|Hhere].
      * apply String.eqb_neq in Hhere. done.
      * apply Nat.ltb_ge in Hhere. lia.
    + apply (IH (S i) Hn j d Hd). lia.
Qed.

(** When [movies_part] finds nothing, no part after the leading one
    reads "movies". *)
Lemma movies_part_none i parts :
  main.movies_part i parts = None →
  ∀ j d, parts !! j = Some d → (0 < i + j)%nat → lower d ≠ "movies".
Proof.
  revert i. induction parts as [|part parts IH]; intros i; simpl; [done|].
  destruct (String.eqb (lower part) "movies" && (0 <? i)%nat) eqn:Hhere;
    [done|].
  intros Hn [|j] d Hd Hj; simpl in Hd.
  - injection Hd as <-. intros Hname.
    apply andb_false_iff in Hhere as [Hhere|Hhere].
    + apply String.eqb_neq in Hhere. done.
    + apply Nat.ltb_ge in Hhere. lia.
  - apply (IH (S i) Hn j d Hd). lia.
Qed.

(** X11. [fix_paths_for_radarr] changes nothing of a payload but its
    root folder and applied again changes nothing more. When the path
    is a text one of whose parts after the leading one reads "movies"
    in any case, the root folder is the path up to and including the
    first such part, with a slash after it; in every other case (no
    such part, an empty path, no path) it is the configured root
    folder. *)
Theorem fix_paths_for_radarr_root cfg m m' :
  main.fix_paths_for_radarr cfg m = Some m' →
  ∃ s, m' = main.set_rootFolderPath (PStr s) m
       ∧ main.fix_paths_for_radarr cfg m' = Some m'
       ∧ (∀ p i dir,
            path m = Some (PStr p) →
            split "/" p !! i = Some dir → (0 < i)%nat →
            lower dir = "movies" →
            (∀ j d, split "/" p !! j = Some d → (0 < j < i)%nat →
                    lower d ≠ "movies") →
            s = join "/" (take (S i) (split "/" p)) +:+ "/"
            ∧ ∃ rest, p = join "/" (take (S i) (split "/" p)) +:+ rest
                      ∧ (rest = "" ∨ ∃ rest', rest = String "/" rest'))
       ∧ ((∀ p i dir,
             path m = Some (PStr p) →
             split "/" p !! i = Some dir → (0 < i)%nat →
             lower dir ≠ "movies") →
          s = root_folder cfg).
Proof.
  unfold main.fix_paths_for_radarr.
  assert (∀ s, main.set_rootFolderPath (PStr s)
                 (main.set_rootFolderPath (PStr s) m)
               = main.set_rootFolderPath (PStr s) m) as Hagain by done.
  change (path (main.set_rootFolderPath ?v m)) with (path m).
  destruct (path m) as [v|] eqn:Hpath; simpl.
  2:{ intros [= <-]. exists (root_folder cfg). simpl. rewrite Hpath. simpl.
      split_and!; [done | by rewrite Hagain | done | done]. }
  destruct v as [|b|z|p]; simpl.
  - intros [= <-]. exists (root_folder cfg). simpl. rewrite Hpath. simpl.
    split_and!; [done | by rewrite Hagain | done | done].
  - destruct b; [done|]. intros [= <-]. exists (root_folder cfg). simpl.
    rewrite Hpath. simpl. split_and!; [done | by rewrite Hagain | done | done].
  - destruct (negb (z =? 0)) eqn:Hz; [done|]. intros [= <-].
    exists (root_folder cfg). simpl. rewrite Hpath. simpl. rewrite Hz.
    split_and!; [done | by rewrite Hagain | done | done].
  - destruct (negb (nonempty p)) eqn:Hp.
    { intros [= <-]. exists (root_folder cfg). simpl. rewrite Hpath. simpl.
      rewrite Hp. split_and!; [done | by rewrite Hagain | | done].
      intros p' i dir [= <-] Hdir Hi.
      apply negb_true_iff, nonempty_false in Hp. subst p.
      destruct i; [lia | done]. }
    destruct (main.movies_part 0 (split "/" p)) as [n|] eqn:Hn.
    2:{ intros [= <-]. exists (root_folder cfg). simpl. rewrite Hpath. simpl.
        rewrite Hp, Hn. split_and!; [done | by rewrite Hagain | | done].
        intros p' i dir [= <-] Hdir Hi Hname.
        by destruct (movies_part_none _ _ Hn i dir Hdir). }
    intros [= <-]. eexists. split; [reflexivity|]. simpl. rewrite Hpath. simpl.
    rewrite Hp, Hn. split; [by rewrite Hagain|].
    destruct (movies_part_spec _ _ _ Hn) as (j & dir & Hj & Hdir & Hname & Hpos).
    simpl in Hj. subst j. split.
    + intros p' i dir' [= <-] Hdir' Hi Hname' Hfirst.
      assert (i = n) as ->.
      { destruct (Nat.lt_trichotomy i n) as [Hlt|[Heq|Hgt]]; [|done|].
        - by destruct (movies_part_first _ _ _ Hn i dir' Hdir').
        - by destruct (Hfirst n dir Hdir). }
      split; [done|].
      pose proof (join_split p) as Hjoin.
      set (parts := split "/" p) in *. clearbody parts.
      pose proof (take_drop_middle _ _ _ Hdir) as Hparts.
      assert (take (S n) parts ≠ []) as Hnonempty.
      { destruct parts as [|x l]; [done|]. done. }
      exists (match drop (S n) parts with
              | [] => ""
              | _ => "/" +:+ join "/" (drop (S n) parts)
              end).
      split.
      * rewrite <- Hjoin at 1. rewrite <- (take_drop (S n) parts) at 1.
        destruct (drop (S n) parts) as [|x l] eqn:Hdrop.
        -- by rewrite app_nil_r, string_app_nil_r.
        -- by rewrite join_app.
      * destruct (drop (S n) parts); [by left | right; by eexists].
    + intros Hnone. by destruct (Hnone p n dir).
Qed.

(** A worked instance of X11: the path of the sample records, whose
    second part after the leading one is named Movies. *)
Lemma fix_paths_for_radarr_root_witness :
  let m := sample.record 5 "A" (Some "tt1") 101 0 [] in
  main.fix_paths_for_radarr sample_world.cfg m
  = Some (main.set_rootFolderPath (PStr "/data/Movies/") m)
  ∧ split "/" "/data/Movies/Film" = [""; "data"; "Movies"; "Film"]%string.
Proof.
  intros m.
  destruct (fix_paths_for_radarr_root sample_world.cfg m
              (main.set_rootFolderPath (PStr "/data/Movies/") m))
    as (s & Heq & _ & Hfirst & _); [reflexivity|].
  destruct (Hfirst "/data/Movies/Film"%string 2%nat "Movies"%string)
    as [Hs _].
  - reflexivity.
  - reflexivity.
  - lia.
  - reflexivity.
  - intros j d Hd Hj. assert (j = 1%nat) as -> by lia.
    injection Hd as <-. vm_compute. discriminate.
  - split; [|reflexivity]. rewrite Heq, Hs. reflexivity.
Defined.

End root_folder_of_path.

(** ** The tags of an update *)

(** X12. The tags the sync sends for a movie it found have no
    duplicates; they keep every tag the movie had other than the upgrade
    tag, hold the attribution tag when there is one, and hold nothing
    but tags the movie had, the watchlist tag, the upgrade tag and the
    attribution tag. *)
Theorem payload_tags_keep cfg radarr_movie friend_tag_id :
  let sent := main.payload_tags cfg radarr_movie friend_tag_id in
  NoDup sent
  ∧ (∀ t, t ∈ default [] (tags radarr_movie) →
          t ≠ plex_upgrade_tag cfg → t ∈ sent)
  ∧ (∀ i, main.tag_given friend_tag_id = Some i → i ∈ sent)
  ∧ (∀ t, t ∈ sent →
          t ∈ default [] (tags radarr_movie) ∨ t = watchlist_tag_id cfg
          ∨ t = plex_upgrade_tag cfg ∨ main.tag_given friend_tag_id = Some t).
Proof.
  unfold main.payload_tags. cbv zeta.
  set (tags1 := remove_dups (default [] (tags radarr_movie)
                             ++ [watchlist_tag_id cfg])).
  set (tags2 := if main.eligible_for_upgrade cfg radarr_movie
                then remove_dups (tags1 ++ [plex_upgrade_tag cfg])
                else List.filter (λ t, negb (t =? plex_upgrade_tag cfg)) tags1).
  assert (NoDup tags2) as Hnd2.
  { unfold tags2. destruct (main.eligible_for_upgrade cfg radarr_movie).
    - apply NoDup_remove_dups.
    - apply NoDup_ListNoDup, List.NoDup_filter, NoDup_ListNoDup.
      apply NoDup_remove_dups. }
  assert (∀ t, t ∈ tags2 ↔
               (t ∈ default [] (tags radarr_movie) ∨ t = watchlist_tag_id cfg
                ∨ (t = plex_upgrade_tag cfg
                   ∧ main.eligible_for_upgrade cfg radarr_movie = true))
               ∧ (t = plex_upgrade_tag cfg →
                  main.eligible_for_upgrade cfg radarr_movie = true))
    as Hin2.
  { intros t. unfold tags2, tags1.
    destruct (main.eligible_for_upgrade cfg radarr_movie).
    - rewrite elem_of_remove_dups, elem_of_app, elem_of_remove_dups,
        elem_of_app, !list_elem_of_singleton. naive_solver.
    - rewrite elem_of_filter_bool, elem_of_remove_dups, elem_of_app,
        list_elem_of_singleton, negb_true_iff, Z.eqb_neq. naive_solver. }
  destruct (main.tag_given friend_tag_id) as [i|] eqn:Hfriend.
  - case_bool_decide as Hi.
    + split_and!; [done | | |].
      * intros t Ht Hne. apply Hin2. naive_solver.
      * by intros ? [= <-].
      * intros t Ht%Hin2. naive_solver.
    + split_and!.
      * apply NoDup_app. split_and!; [done | | apply NoDup_singleton].
        by intros x Hx ->%list_elem_of_singleton.
      * intros t Ht Hne. apply elem_of_app. left. apply Hin2. naive_solver.
      * intros ? [= <-]. apply elem_of_app. right. by apply list_elem_of_singleton.
      * intros t [Ht%Hin2| ->%list_elem_of_singleton]%elem_of_app;
          naive_solver.
  - split_and!; [done | | done |].
    + intros t Ht Hne. apply Hin2. naive_solver.
    + intros t Ht%Hin2. naive_solver.
Qed.
(** ** What a run sends *)

Section footprints.
Import run footprint.

Lemma sending_refl allowed w : sending allowed w w.
Proof. exists []. by rewrite app_nil_r. Qed.

Lemma sending_trans allowed w1 w2 w3 :
  sending allowed w1 w2 → sending allowed w2 w3 → sending allowed w1 w3.
Proof.
  intros (n1 & H1 & Hn1) (n2 & H2 & Hn2). exists (n1 ++ n2).
  rewrite H2, H1, app_assoc. split; [done | by apply Forall_app].
Qed.

(** The rules that hold for every relation that is reflexive and
    transitive. *)
Section within_rules.
Variable R : world → world → Prop.
Hypothesis R_refl : ∀ w, R w w.
Hypothesis R_trans : ∀ w1 w2 w3, R w1 w2 → R w2 w3 → R w1 w3.
Context {A B : Type}.

Lemma within_ret (a : A) : within R (ret a).
Proof. intros w. apply R_refl. Qed.

Lemma within_raise : within R (@raise A).
Proof. intros w. apply R_refl. Qed.

Lemma within_item (o : option A) : within R (item o).
Proof. destruct o; [apply within_ret | apply within_raise]. Qed.

Lemma within_read_db (f : list database.row → A) : within R (read_db f).
Proof. intros w. apply R_refl. Qed.

Lemma within_bind (m : M A) (k : A → M B) :
  within R m → (∀ a, within R (k a)) → within R (bind m k).
Proof.
  intros Hm Hk w. unfold bind. specialize (Hm w).
  destruct (m w) as [[a|] w']; simpl in *; [|done].
  eapply R_trans; [exact Hm | apply Hk].
Qed.

(** What runs after [m] relates the world [m] leaves to the last one. *)
Lemma within_after (m : M A) (k : A → M B) w :
  (∀ a, within R (k a)) → R (m w).2 (bind m k w).2.
Proof.
  intros Hk. unfold bind. destruct (m w) as [[a|] w']; simpl; [apply Hk|].
  apply R_refl.
Qed.

Lemma within_catch (body : M unit) : within R body → within R (catch body).
Proof. intros Hbody w. apply Hbody. Qed.

End within_rules.

Lemma within_for_each R {X S} (body : X → S → M S) l :
  (∀ w, R w w) → (∀ w1 w2 w3, R w1 w2 → R w2 w3 → R w1 w3) →
  (∀ x s, within R (body x s)) → ∀ s, within R (for_each body l s).
Proof.
  intros Hrefl Htrans Hbody.
  induction l as [|x l IH]; intros s; simpl.
  - by apply within_ret.
  - apply within_bind; [done | apply Hbody | apply IH].
Qed.

(** Steps that send nothing. *)
Lemma sending_silent allowed w w' : trace w' = trace w → sending allowed w w'.
Proof. intros H. exists []. by rewrite app_nil_r. Qed.

Lemma sending_request {A} allowed c (answer : list exchange → A) usable w :
  (∀ b, allowed (c, b)) → sending allowed w (request c answer usable w).2.
Proof.
  intros Hc. eexists. split; [reflexivity|].
  apply Forall_singleton, Hc.
Qed.

End footprints.

(** Break a goal [within R m] down along [m]; [refl] and [trans] are
    the two laws of [R], [leaf] settles the steps that touch the world. *)
Ltac within_step refl trans leaf :=
  lazymatch goal with
  | |- footprint.within _ (run.ret _) => apply within_ret, refl
  | |- footprint.within _ run.raise => apply within_raise, refl
  | |- footprint.within _ (run.item _) => apply within_item, refl
  | |- footprint.within _ (run.read_db _) => apply within_read_db, refl
  | |- footprint.within _ (run.bind _ _) =>
      apply within_bind; [apply trans| |intros ?]
  | |- footprint.within _ (run.for_each _ _ _) =>
      apply within_for_each; [apply refl | apply trans | intros ? ?]
  | |- footprint.within _ (run.catch _) => apply within_catch
  | |- footprint.within _ (if ?b then _ else _) => destruct b
  | |- footprint.within _ (match ?o with Some _ => _ | None => _ end) =>
      destruct o
  | |- footprint.within _ _ => intros ?; leaf
  end.

Ltac sending_leaf :=
  first [by apply sending_silent | apply sending_request; intros ?].

Ltac sending_step := within_step sending_refl sending_trans sending_leaf.

Section dry_runs.
Import run footprint.
Variables (cfg : config) (e : env).

(** No movie is added, updated or searched. *)
Local Abbreviation harmless :=
  (sending (λ x, library_write x = false)).

Lemma harmless_get_or_create_tag tag_name :
  within harmless (radarr_api.get_or_create_tag e tag_name).
Proof.
  unfold radarr_api.get_or_create_tag, radarr_api.get_all_tags,
    radarr_api.create_tag.
  repeat sending_step; done.
Qed.

Lemma harmless_process_movie radarr_index m c :
  within harmless (main.process_movie cfg e true radarr_index m c).
Proof.
  unfold main.process_movie, main.friend_tag, main.handle_existing,
    main.handle_new, main.update_existing, main.search_existing.
  cbn [negb andb].
  repeat sending_step; try done; apply harmless_get_or_create_tag.
Qed.

(** X13. In a dry run the sync adds no movie, updates no record and
    starts no search: nothing it sends is a request of one of those
    three kinds. (It still asks for the status, the library and the
    tags, and it creates a missing attribution tag.) *)
Theorem dry_run_sync_is_harmless w :
  ∃ new, trace (main.process_watchlist cfg e true w).2 = trace w ++ new
         ∧ Forall (λ x, library_write x = false) new.
Proof.
  revert w. change (within harmless (main.process_watchlist cfg e true)).
  unfold main.process_watchlist, radarr_api.test_connection,
    radarr_api.build_radarr_index, radarr_api.get_all_movies,
    effects.read_daily_search_count, effects.save_daily_search_count.
  repeat sending_step; try done. apply harmless_process_movie.
Qed.

End dry_runs.

Section silent_steps.
Import run footprint.

Lemma silent_refl w : silent w w.
Proof. done. Qed.

Lemma silent_trans w1 w2 w3 : silent w1 w2 → silent w2 w3 → silent w1 w3.
Proof. intros [??] [??]. split; congruence. Qed.

End silent_steps.

Ltac silent_step := within_step silent_refl silent_trans ltac:(by split).

Section sweeps.
Import run footprint scheduled_upgrader.
Variables (cfg : config) (e : env).

Lemma silent_clear_tag m u : within silent (clear_tag cfg e true m u).
Proof.
  unfold clear_tag. cbn [negb]. rewrite andb_false_r. repeat silent_step.
Qed.

Lemma silent_consider m acc : within silent (consider cfg e m acc).
Proof. unfold consider. repeat silent_step. Qed.

Lemma silent_search_loop limit l :
  ∀ i c, within silent (search_loop cfg e true limit i l c).
Proof.
  induction l as [|[[m size] last] l IH]; intros i c; cbn [search_loop].
  - repeat silent_step.
  - repeat silent_step. apply IH.
Qed.

Lemma silent_save_daily_search_count count :
  within silent (effects.save_daily_search_count e count).
Proof. unfold effects.save_daily_search_count. repeat silent_step. Qed.

Lemma silent_read_daily_search_count :
  within silent (effects.read_daily_search_count e).
Proof. unfold effects.read_daily_search_count. repeat silent_step. Qed.

(** X14. In a dry run the sweep sends one request, the listing of the
    library, and writes nothing to the cache table: no tag is cleared
    and no search is started. *)
Theorem dry_run_sweep_only_lists w :
  let w' := (job_upgrade cfg e true w).2 in
  ∃ listed, trace w' = trace w ++ [(GetAllMovies, listed)] ∧ db w' = db w.
Proof.
  unfold job_upgrade, catch, sweep. cbn [snd].
  lazymatch goal with
  | |- context [bind (radarr_api.get_all_movies e) ?k] =>
      destruct (within_after silent silent_refl
                  (radarr_api.get_all_movies e) k w) as [Htrace Hdb]
  end.
  { intros all_radarr_movies.
    destruct (List.filter _ _) as [|m movies]; [repeat silent_step|].
    repeat silent_step;
      first [apply silent_clear_tag | apply silent_consider
            | apply silent_search_loop | apply silent_save_daily_search_count
            | apply silent_read_daily_search_count]. }
  rewrite Htrace, Hdb. by eexists.
Qed.

(** X15. When no movie of the library carries the upgrade tag, the
    sweep ends after the listing: nothing else is sent, and the cache
    table, the counter file and the clock are as they were. *)
Theorem sweep_without_tagged_movies dry_run w :
  List.filter (has_upgrade_tag cfg) (default [] (all_movies e (trace w))) = [] →
  let w' := (job_upgrade cfg e dry_run w).2 in
  ∃ listed, trace w' = trace w ++ [(GetAllMovies, listed)]
            ∧ db w' = db w ∧ counter_file w' = counter_file w
            ∧ counter_log w' = counter_log w ∧ clock w' = clock w.
Proof.
  intros Hnone. unfold job_upgrade, catch, sweep, bind,
    radarr_api.get_all_movies, bind, request, ret. cbn [fst snd].
  rewrite Hnone. cbn. by eexists.
Qed.

End sweeps.

(** A worked instance of X15: a library whose one record has the
    watchlist tag only. *)
Lemma sweep_without_tagged_movies_witness :
  let e := sample_world.env_of [sample_runs.reconciled] [] [] [] in
  let w := sample_world.world_at sample_runs.in_2026 [] in
  ∃ listed,
    trace (scheduled_upgrader.job_upgrade sample_world.cfg e false w).2
    = [(GetAllMovies, listed)].
Proof.
  intros e w.
  destruct (sweep_without_tagged_movies sample_world.cfg e false w)
    as (listed & Htrace & _); [reflexivity|].
  exists listed. exact Htrace.
Defined.

Section aborted_sync.
Import run.
Variables (cfg : config) (e : env).

(** X16. When the status request fails, the sync stops there: it sends
    nothing else, and the cache table, the counter file, the tag cache
    and the clock are as they were. *)
Theorem sync_aborts_without_connection dry_run w :
  system_status e (trace w) = false →
  let w' := (main.process_watchlist cfg e dry_run w).2 in
  (main.process_watchlist cfg e dry_run w).1 = Some tt
  ∧ trace w' = trace w ++ [(SystemStatus, false)]
  ∧ db w' = db w ∧ counter_file w' = counter_file w
  ∧ counter_log w' = counter_log w ∧ tag_cache w' = tag_cache w
  ∧ clock w' = clock w.
Proof.
  intros Hdown.
  assert (main.process_watchlist cfg e dry_run w
          = (Some tt, (radarr_api.test_connection e w).2)) as ->.
  { unfold main.process_watchlist, bind at 1, radarr_api.test_connection,
      request. by rewrite Hdown. }
  unfold radarr_api.test_connection, request. simpl. by rewrite Hdown.
Qed.

End aborted_sync.

(** A worked instance of X16: an environment in which Radarr does not
    answer. *)
Lemma sync_aborts_without_connection_witness :
  let e := {| elapse := λ _, 0%N; system_status := λ _, false;
              all_movies := λ _, None; added_movie := λ _ _, None;
              put_movie := λ _ _ _, false; search_command := λ _ _, false;
              all_tags := λ _, None; created_tag := λ _ _, None;
              personal_watchlist := sample_runs.five_new;
              friends_watchlist := []; fetch_writes := λ rows, rows;
              user_mapping := ∅ |} in
  trace (main.process_watchlist sample_world.cfg e false
           (sample_world.world_at 0 [])).2
  = [(SystemStatus, false)].
Proof.
  intros e.
  destruct (sync_aborts_without_connection sample_world.cfg e false
              (sample_world.world_at 0 []))
    as (_ & Htrace & _); [reflexivity|].
  exact Htrace.
Defined.
(** ** The order in which the sweep searches *)

Section candidate_order.
Import scheduled_upgrader sweep_facts.

Lemma insert_after_perm x l : insert_after x l ≡ₚ x :: l.
Proof.
  induction l as [|y l IH]; simpl; [done|].
  destruct (key_lt x y); [done|]. by rewrite IH, Permutation_swap.
Qed.

Lemma key_le_after (x y z : candidate) :
  key_lt x y = true → key_le y z → key_le x z.
Proof.
  destruct x as [[mx sx] lx], y as [[my sy] ly], z as [[mz sz] lz].
  unfold key_le, key_lt.
  rewrite !orb_true_iff, !orb_false_iff, !andb_true_iff, !andb_false_iff,
    !Z.ltb_lt, !Z.ltb_ge, !Z.eqb_eq, !Z.eqb_neq. lia.
Qed.

Lemma key_lt_le (x y : candidate) : key_lt x y = true → key_le x y.
Proof.
  destruct x as [[mx sx] lx], y as [[my sy] ly].
  unfold key_le, key_lt.
  rewrite !orb_true_iff, !orb_false_iff, !andb_true_iff, !andb_false_iff,
    !Z.ltb_lt, !Z.ltb_ge, !Z.eqb_eq, !Z.eqb_neq. lia.
Qed.

Lemma insert_after_sorted x l :
  StronglySorted key_le l → StronglySorted key_le (insert_after x l).
Proof.
  induction 1 as [|y l Hl IH Hy]; simpl.
  - apply SSorted_cons; [apply SSorted_nil | apply List.Forall_nil].
  - destruct (key_lt x y) eqn:Hxy.
    + apply SSorted_cons; [by apply SSorted_cons|].
      apply List.Forall_cons; [by apply key_lt_le|].
      eapply List.Forall_impl; [|exact Hy].
      intros z Hz. by eapply key_le_after.
    + apply SSorted_cons; [done|].
      rewrite insert_after_perm. by apply Forall_cons.
Qed.

Lemma sort_perm l : sort l ≡ₚ l.
Proof.
  unfold sort. induction l as [|x l IH] using rev_ind; simpl; [done|].
  rewrite foldl_snoc, insert_after_perm, IH.
  by rewrite Permutation_cons_append.
Qed.

Lemma sort_sorted l : StronglySorted key_le (sort l).
Proof.
  unfold sort. induction l as [|x l IH] using rev_ind; simpl.
  - apply SSorted_nil.
  - rewrite foldl_snoc. by apply insert_after_sorted.
Qed.

(** X17. The order in which the sweep takes its candidates: [sort]
    gives the candidates back, each as often as it came, so that no
    candidate stands before one of an earlier last search, nor before
    one of the same last search and a smaller size. *)
Theorem sort_sorted_perm l :
  sort l ≡ₚ l ∧ StronglySorted key_le (sort l).
Proof. split; [apply sort_perm | apply sort_sorted]. Qed.

End candidate_order.

(** ** The count a sync leaves behind *)

Section accounting.
Import run hoare search_conditions.
Variables (cfg : config) (e : env).

(** A search either is taken and counted or is not. *)
Lemma search_and_record_counts marked movie_id c w :
  ∃ (taken : bool) w',
    main.search_and_record e marked movie_id c w
    = (Some (if taken then searched c else c), w')
    ∧ trace w' = trace w ++ [(TriggerSearch movie_id, taken)]
    ∧ clock w ≤ clock w'.
Proof.
  unfold main.search_and_record, bind.
  destruct (trigger_search_effect e movie_id w)
    as (r & w1 & -> & Htr & _ & _ & Hclock).
  exists r. destruct r.
  - destruct (record_search_effect e marked c w1)
      as (t1 & t2 & w2 & -> & Ht & Hclock2 & Htr2 & _).
    eexists. split; [reflexivity|]. split; [congruence | lia].
  - eexists. split; [reflexivity|]. split; [done | lia].
Qed.

Section counted.
Variables (d0 g0 t0 : Z).

(** The count the run carries is the count it read and the searches
    taken since. *)
Local Abbreviation counted :=
  (λ (c : counters) (w : world),
     daily_search_count c = d0 + (granted (trace w) - g0) ∧ t0 ≤ clock w).

Lemma counted_calm c w w' : counted c w → calmly w w' → counted c w'.
Proof. intros [Hc Ht] (_ & _ & Hclock & _ & Hg). split; [congruence | lia]. Qed.

Lemma counted_search marked movie_id c :
  triple (counted c) (main.search_and_record e marked movie_id c)
         counted (λ _, True).
Proof.
  intros w [Hc Ht].
  destruct (search_and_record_counts marked movie_id c w)
    as (taken & w' & -> & Htr & Hclock).
  rewrite Htr, granted_snoc. split; [|lia].
  destruct taken; simpl; lia.
Qed.

Lemma counted_loop dry_run radarr_index l c :
  triple (counted c)
         (for_each (main.process_movie cfg e dry_run radarr_index) l c)
         counted (λ _, True).
Proof.
  apply sync_loop_inv.
  - intros. by eapply counted_calm.
  - done.
  - intros. apply counted_search.
Qed.

End counted.

(** The sync up to its loop, when Radarr answers. *)
Lemma sync_up_to_loop dry_run w :
  system_status e (trace w) = true →
  let t := clock w + Z.of_N (elapse e (clock_reads w)) in
  let listed := all_movies e (trace w ++ [(SystemStatus, true)]) in
  main.process_watchlist cfg e dry_run w
  = (let* c := for_each
                 (main.process_movie cfg e dry_run
                    (foldl radarr_api.index_movie [] (default [] listed)))
                 (plex_api.merge_watchlists (personal_watchlist e)
                                            (friends_watchlist e))
                 {| run_search_count := 0;
                    daily_search_count :=
                      read_daily_search_count (date_of t) (counter_file w) |} in
     effects.save_daily_search_count e (daily_search_count c))
      {| db := fetch_writes e (db w); counter_file := counter_file w;
         counter_log := counter_log w; clock := t;
         clock_reads := S (clock_reads w); tag_cache := tag_cache w;
         trace := (trace w ++ [(SystemStatus, true)])
                  ++ [(GetAllMovies, radarr_api.is_Some_bool listed)] |}.
Proof.
  intros Hup t listed.
  unfold main.process_watchlist, bind at 1, radarr_api.test_connection,
    request. cbn [fst snd]. rewrite Hup. reflexivity.
Qed.

(** X18. A sync that finds Radarr and runs to its end leaves in the
    counter file, under the date of its last reading of the clock, the
    count it read when it began and the searches that Radarr took
    during the run. *)
Theorem sync_counts_its_searches dry_run w :
  system_status e (trace w) = true →
  (main.process_watchlist cfg e dry_run w).1 = Some tt →
  let w' := (main.process_watchlist cfg e dry_run w).2 in
  ∃ t, clock w ≤ t ≤ clock w'
       ∧ counter_file w'
         = Some (date_of (clock w'),
                 read_daily_search_count (date_of t) (counter_file w)
                 + (granted (trace w') - granted (trace w))).
Proof.
  intros Hup. rewrite (sync_up_to_loop dry_run w Hup). cbv zeta.
  set (t := clock w + Z.of_N (elapse e (clock_reads w))).
  set (d0 := read_daily_search_count (date_of t) (counter_file w)).
  unfold bind.
  lazymatch goal with
  | |- context [for_each (main.process_movie _ _ _ ?index) ?l ?c ?w4] =>
      pose proof (counted_loop d0 (granted (trace w)) t dry_run index l c w4)
        as Hloop;
      destruct (for_each (main.process_movie cfg e dry_run index) l c w4)
        as [[c'|] w5]; [|done]
  end.
  intros _. destruct Hloop as [Hc Ht].
  { cbn [trace clock daily_search_count]. split; [|lia].
    rewrite !granted_snoc. simpl. lia. }
  unfold effects.save_daily_search_count, bind, now, write_counter.
  cbn [fst snd counter_file clock trace].
  exists t. split; [unfold t; lia|]. by rewrite Hc.
Qed.

End accounting.

(** A worked instance of X18: five new movies against the limit of
    three searches a run leave a count of three. *)
Lemma sync_counts_its_searches_witness :
  let e := sample_world.env_of [] sample_runs.five_new [] [] in
  let w := sample_world.world_at sample_runs.in_2026 [] in
  ∃ date, counter_file (main.process_watchlist sample_world.cfg e false w).2
          = Some (date, 3).
Proof.
  intros e w.
  destruct (sync_counts_its_searches sample_world.cfg e false w)
    as (t & _ & Hfile); [reflexivity | reflexivity |].
  eexists. rewrite Hfile. reflexivity.
Defined.
(** ** What the sweep may send *)

Section sweep_requests.
Import run hoare footprint scheduled_upgrader sweep_facts.
Variables (cfg : config) (e : env) (movies : list movie).

Local Abbreviation allowed := (sweep_request cfg movies).

Lemma sending_mark_movie_as_processed m :
  within (sending allowed) (effects.mark_movie_as_processed e m).
Proof. unfold effects.mark_movie_as_processed. repeat sending_step. Qed.

Lemma sending_clear_tag dry_run m u :
  m ∈ movies → has_upgrade_tag cfg m = true →
  within (sending allowed) (clear_tag cfg e dry_run m u).
Proof.
  intros Hin Htag. unfold clear_tag.
  destruct (valid_id m) as [movie_id|] eqn:Hid; [|repeat sending_step].
  destruct (meets_threshold cfg m) eqn:Hmeets; cbn [andb];
    [|repeat sending_step].
  rewrite Htag. destruct dry_run; cbn [negb andb]; [repeat sending_step|].
  unfold remove_tag_from_movie, radarr_api.update_movie.
  repeat sending_step; try apply sending_mark_movie_as_processed.
  exists m. by split_and!.
Qed.

Lemma sending_search_and_record m (size last : Z) :
  searchable cfg movies (m, size, last) →
  ∀ counts, within (sending allowed)
              (main.search_and_record e m (default 0 (id m)) counts).
Proof.
  intros (Hin & Htag & Hmeets & [movie_id Hid]) counts w. simpl in *.
  destruct (search_and_record_counts e m (default 0 (id m)) counts w)
    as (taken & w' & -> & Htr & _).
  exists [(TriggerSearch (default 0 (id m)), taken)]. split; [done|].
  apply Forall_singleton. exists m. split_and!; [done| |done..].
  rewrite Hid. unfold valid_id in Hid.
  destruct (id m) as [i|]; [|done]. by destruct (i =? 0).
Qed.

Lemma sending_search_loop dry_run limit l :
  Forall (searchable cfg movies) l →
  ∀ i c, within (sending allowed) (search_loop cfg e dry_run limit i l c).
Proof.
  induction 1 as [|[[m size] last] l Hm Hl IH]; intros i c;
    cbn [search_loop].
  - repeat sending_step.
  - destruct (limit <=? i); [repeat sending_step|].
    destruct (reached _ _); [repeat sending_step|].
    destruct dry_run; [apply IH|].
    apply within_bind; [apply sending_trans| |intros ?; apply IH].
    by apply (sending_search_and_record m size last).
Qed.

(** The candidates [consider] keeps are movies the sweep may search. *)
Lemma consider_searchable m acc w :
  m ∈ movies → has_upgrade_tag cfg m = true →
  Forall (searchable cfg movies) acc →
  trace (consider cfg e m acc w).2 = trace w
  ∧ match (consider cfg e m acc w).1 with
    | Some acc' => Forall (searchable cfg movies) acc'
    | None => True
    end.
Proof.
  intros Hin Htag Hacc. unfold consider.
  destruct (valid_id m) as [movie_id|] eqn:Hid; [|done].
  destruct (meets_threshold cfg m) eqn:Hmeets; [done|].
  unfold bind, read_db, now, ret. simpl.
  destruct (searched_recently _ _); [done|]. split; [done|].
  apply Forall_app. split; [done|]. apply Forall_singleton.
  split_and!; simpl; [done..|by eexists].
Qed.

Lemma consider_loop l :
  (∀ m, m ∈ l → m ∈ movies ∧ has_upgrade_tag cfg m = true) →
  ∀ acc w, Forall (searchable cfg movies) acc →
           trace (for_each (consider cfg e) l acc w).2 = trace w
           ∧ match (for_each (consider cfg e) l acc w).1 with
             | Some acc' => Forall (searchable cfg movies) acc'
             | None => True
             end.
Proof.
  induction l as [|m l IH]; intros Hl acc w Hacc; simpl; [done|].
  destruct (Hl m) as [Hin Htag]; [apply list_elem_of_here|].
  destruct (consider_searchable m acc w Hin Htag Hacc) as [Htr Hnext].
  unfold bind. destruct (consider cfg e m acc w) as [[acc'|] w1]; simpl in *.
  - destruct (IH (λ x Hx, Hl x (list_elem_of_further _ _ _ Hx)) acc' w1 Hnext)
      as [Htr' Hres].
    split; [congruence | done].
  - done.
Qed.

Lemma clear_loop dry_run l :
  (∀ m, m ∈ l → m ∈ movies ∧ has_upgrade_tag cfg m = true) →
  within (sending allowed) (for_each (clear_tag cfg e dry_run) l tt).
Proof.
  induction l as [|m l IH]; intros Hl; simpl; [repeat sending_step|].
  apply within_bind; [apply sending_trans| |].
  - destruct (Hl m) as [Hin Htag]; [apply list_elem_of_here|].
    by apply sending_clear_tag.
  - intros []. apply IH. intros x Hx. apply Hl. by apply list_elem_of_further.
Qed.

End sweep_requests.

Section sweep_safety.
Import run hoare footprint scheduled_upgrader sweep_facts.
Variables (cfg : config) (e : env).

Lemma bind_get_all_movies {B} (k : list movie → M B) w :
  bind (radarr_api.get_all_movies e) k w
  = k (default [] (all_movies e (trace w)))
      (radarr_api.get_all_movies e w).2.
Proof. reflexivity. Qed.

Lemma sending_of_silent allowed {A} (m : M A) :
  within silent m → within (sending allowed) m.
Proof. intros Hm w. apply sending_silent, Hm. Qed.

(** X19. Whatever the sweep sends is the listing of the library, an
    update that takes the upgrade tag from a listed movie that carries
    it and has reached the size threshold, or a search for a listed
    movie that carries the tag, is below the threshold and has an id.
    It adds no movie and asks for no tag. *)
Theorem sweep_sends_what_it_should dry_run w :
  let movies := default [] (all_movies e (trace w)) in
  ∃ new, trace (job_upgrade cfg e dry_run w).2 = trace w ++ new
         ∧ Forall (sweep_request cfg movies) new.
Proof.
  intros movies. unfold job_upgrade, catch, sweep. cbn [snd].
  rewrite bind_get_all_movies. fold movies.
  set (w1 := (radarr_api.get_all_movies e w).2).
  apply (sending_trans _ w w1).
  { exists [(GetAllMovies, radarr_api.is_Some_bool (all_movies e (trace w)))].
    split; [done|]. by apply Forall_singleton. }
  generalize w1. clear w1.
  refine (_ : within (sending (sweep_request cfg movies)) _).
  assert (∀ m, m ∈ List.filter (has_upgrade_tag cfg) movies →
               m ∈ movies ∧ has_upgrade_tag cfg m = true) as Htagged.
  { intros m. by rewrite elem_of_filter_bool. }
  destruct (List.filter (has_upgrade_tag cfg) movies) as [|m0 l0];
    [sending_step|].
  set (l := m0 :: l0) in *. clearbody l.
  apply within_bind; [apply sending_trans|by apply clear_loop|intros _].
  apply within_bind; [apply sending_trans| |intros daily].
  { apply sending_of_silent, silent_read_daily_search_count. }
  intros w2. unfold bind at 1.
  destruct (consider_loop cfg e movies l Htagged [] w2) as [Htrace Hfound];
    [done|].
  destruct (for_each (consider cfg e) l [] w2) as [[found|] w3];
    simpl in Htrace, Hfound; cbn [fst snd]; [|by apply sending_silent].
  apply (sending_trans _ w2 w3); [by apply sending_silent|].
  generalize w3. clear Htrace w3.
  refine (_ : within (sending (sweep_request cfg movies)) _).
  apply within_bind; [apply sending_trans|sending_step|intros limit].
  apply within_bind; [apply sending_trans| |intros c].
  - apply sending_search_loop.
    destruct (limit <=? 0); [done|]. destruct (reached _ _); [done|].
    by rewrite sort_perm.
  - apply sending_of_silent, silent_save_daily_search_count.
Qed.

End sweep_safety.
(** ** The job lock in use *)

Section lock_use.
Import watchlist_scheduler lock_facts job_facts.
Variable lock_timeout : Z.

(** The four steps of [with_job_lock], by the answer of [flock]. *)
Lemma with_job_lock_path p n s :
  let locks := active_locks (process_of s p) in
  let fd := (open_w n (os s)).1 in
  let k1 := (open_w n (os s)).2 in
  let r := with_job_lock lock_timeout p n s in
  (∀ q, p ≠ q → process_of r.2 q = process_of s q)
  ∧ match flock_ex_nb fd k1 with
    | Some k2 =>
        r.1 = true
        ∧ os r.2 = match locks !! n with
                   | Some old => unlock old (write_stamp fd k2)
                   | None => write_stamp fd k2
                   end
        ∧ active_locks (process_of r.2 p) = <[n := fd]> locks
    | None =>
        r.1 = false
        ∧ os r.2 = unlock fd k1
        ∧ active_locks (process_of r.2 p) = locks
    end.
Proof.
  intros locks fd k1 r. split.
  { intros q Hne. unfold r, with_job_lock. cbn [snd].
    rewrite !step_other by done. by apply process_of_enter_ne. }
  unfold r, with_job_lock. cbn [fst snd].
  set (s0 := enter p n s).
  assert (∃ s1, step lock_timeout p s0 = s1 ∧ os s1 = k1
                ∧ process_of s1 p
                  = {| active_locks := locks; at_ := AtFlock n fd |})
    as (s1 & -> & Hos1 & Hp1).
  { eexists. split; [reflexivity|].
    rewrite (step_open lock_timeout p s0 n)
      by (unfold s0; by rewrite process_of_enter_eq).
    unfold s0. rewrite process_of_enter_eq.
    split; [done | apply process_of_set_eq]. }
  destruct (flock_ex_nb fd k1) as [k2|] eqn:Hflock.
  - assert (∃ s2, step lock_timeout p s1 = s2 ∧ os s2 = k2
                  ∧ process_of s2 p
                    = {| active_locks := locks; at_ := AtWrite n fd |})
      as (s2 & -> & Hos2 & Hp2).
    { eexists. split; [reflexivity|].
      rewrite (step_flock lock_timeout p s1 n fd) by (by rewrite Hp1).
      rewrite Hos1, Hflock, Hp1.
      split; [done | apply process_of_set_eq]. }
    assert (∃ s3, step lock_timeout p s2 = s3
                  ∧ os s3 = write_stamp fd k2
                  ∧ process_of s3 p
                    = {| active_locks := locks; at_ := AtStore n fd |})
      as (s3 & -> & Hos3 & Hp3).
    { eexists. split; [reflexivity|].
      rewrite (step_write lock_timeout p s2 n fd) by (by rewrite Hp2).
      rewrite Hos2, Hp2. split; [done | apply process_of_set_eq]. }
    rewrite (step_store lock_timeout p s3 n fd) by (by rewrite Hp3).
    rewrite process_of_set_eq, Hp3, Hos3. done.
  - assert (∃ s2, step lock_timeout p s1 = s2 ∧ os s2 = k1
                  ∧ process_of s2 p
                    = {| active_locks := locks; at_ := AtClose n fd |})
      as (s2 & -> & Hos2 & Hp2).
    { eexists. split; [reflexivity|].
      rewrite (step_flock lock_timeout p s1 n fd) by (by rewrite Hp1).
      rewrite Hos1, Hflock, Hp1.
      split; [done | apply process_of_set_eq]. }
    assert (∃ s3, step lock_timeout p s2 = s3
                  ∧ os s3 = unlock fd k1
                  ∧ process_of s3 p
                    = {| active_locks := locks; at_ := AtStat n |})
      as (s3 & -> & Hos3 & Hp3).
    { eexists. split; [reflexivity|].
      rewrite (step_close lock_timeout p s2 n fd) by (by rewrite Hp2).
      rewrite Hos2, Hp2. split; [done | apply process_of_set_eq]. }
    rewrite (step_stat lock_timeout p s3 n) by (by rewrite Hp3).
    rewrite process_of_set_eq, Hp3, Hos3. done.
Qed.

(** [flock] on a file just opened is granted exactly when the lock
    file is free. *)
Lemma flock_after_open n k :
  tidy_kernel k →
  let fd := (open_w n k).1 in
  let k1 := (open_w n k).2 in
  match flock_ex_nb fd k1 with
  | Some k2 =>
      (∀ i, directory k !! n = Some i → holder k !! i = None)
      ∧ directory k2 = directory k1
      ∧ holder k2 = <[inode fd := description fd]> (holder k)
      ∧ next_description k2 = S (next_description k)
      ∧ next_inode k2 = next_inode k1 ∧ time k2 = time k
  | None =>
      ∃ i h, directory k !! n = Some i ∧ holder k !! i = Some h
             ∧ inode fd = i ∧ unlock fd k1 = k1
             ∧ directory k1 = directory k ∧ holder k1 = holder k
  end.
Proof.
  intros Htidy fd k1. pose proof Htidy as [Hdir Hlock].
  destruct (open_w_spec n k) as (Hd & Hnext & Hname & Hholder & Hsome & Hnone).
  fold fd in Hd, Hname, Hsome, Hnone. fold k1 in Hnext, Hname, Hholder.
  unfold flock_ex_nb, unlock. rewrite Hholder.
  destruct (holder k !! inode fd) as [h|] eqn:Hh.
  - destruct (Hlock _ _ Hh) as [_ Hold]. rewrite Hd.
    rewrite !decide_False by lia.
    destruct (directory k !! n) as [i|] eqn:Hn.
    + specialize (Hsome i eq_refl). rewrite Hsome in Hh.
      exists i, h. split_and!; try done.
      unfold k1, open_w. by rewrite Hn.
    + rewrite (Hnone eq_refl) in Hh.
      by rewrite (tidy_next_inode_free k Htidy) in Hh.
  - simpl. split_and!; try done.
    + intros i Hi. by rewrite <- (Hsome i Hi).
    + unfold k1, open_w. by destruct (directory k !! n).
Qed.

Lemma directory_unlock fd k : directory (unlock fd k) = directory k.
Proof.
  unfold unlock. destruct (holder k !! inode fd); [|done]. by case_decide.
Qed.

Lemma next_description_unlock fd k :
  next_description (unlock fd k) = next_description k.
Proof.
  unfold unlock. destruct (holder k !! inode fd); [|done]. by case_decide.
Qed.

(** [unlock] takes no lock but that of its own description. *)
Lemma holder_unlock_other fd k i h :
  holder k !! i = Some h → h ≠ description fd →
  holder (unlock fd k) !! i = Some h.
Proof.
  intros Hi Hne. unfold unlock.
  destruct (holder k !! inode fd) as [h'|] eqn:Hfd; [|done].
  case_decide as Hh'; [|done]. simpl. rewrite lookup_delete_ne; [done|].
  intros <-. congruence.
Qed.

(** [unlock] only takes locks away. *)
Lemma holder_unlock_sub fd k i h :
  holder (unlock fd k) !! i = Some h → holder k !! i = Some h.
Proof.
  unfold unlock. destruct (holder k !! inode fd) as [h'|]; [|done].
  case_decide; [|done]. simpl. by intros [_ ?]%lookup_delete_Some.
Qed.

(** After its own [unlock] a description holds nothing. *)
Lemma holder_unlock_own fd k :
  holder (unlock fd k) !! inode fd ≠ Some (description fd).
Proof.
  unfold unlock. destruct (holder k !! inode fd) as [h'|] eqn:Hfd.
  - case_decide as Hh'; simpl; [by rewrite lookup_delete_eq | congruence].
  - congruence.
Qed.

Lemma tidy_with_job_lock p n s :
  tidy s → tidy (with_job_lock lock_timeout p n s).2.
Proof.
  intros [Htidy Hlocks].
  destruct (with_job_lock_path p n s) as [Hother Hpath].
  pose proof (flock_after_open n (os s) Htidy) as Hflock.
  cbv zeta in Hflock, Hpath.
  pose proof (tidy_open_w n (os s) Htidy) as [Hdir1 Hlock1].
  destruct (open_w_spec n (os s))
    as (Hd & Hnext & Hname & Hholder & _ & _).
  set (r := with_job_lock lock_timeout p n s) in *.
  set (fd := (open_w n (os s)).1) in *.
  set (k1 := (open_w n (os s)).2) in *.
  assert (next_description (os r.2) = S (next_description (os s))
          ∧ tidy_kernel (os r.2)
          ∧ ∀ name fd', active_locks (process_of r.2 p) !! name = Some fd' →
              (description fd' < S (next_description (os s)))%nat)
    as (Hnext' & Htidy' & Hlocks').
  { destruct (flock_ex_nb fd k1) as [k2|].
    - destruct Hpath as (_ & Hos & Hactive).
      destruct Hflock as (_ & Hdir2 & Hholder2 & Hnext2 & Hinode2 & _).
      assert (tidy_kernel (write_stamp fd k2)) as Htidy2.
      { split; simpl.
        - intros name i. rewrite Hdir2, Hinode2. apply Hdir1.
        - intros i h. rewrite Hholder2, Hnext2, Hinode2, lookup_insert.
          case_decide as Hi.
          + intros [= <-]. subst i. split; [by eapply Hdir1 | lia].
          + intros Hh. rewrite <- Hholder in Hh.
            destruct (Hlock1 _ _ Hh). split; [done | lia]. }
      split_and!.
      + rewrite Hos.
        destruct (active_locks (process_of s p) !! n);
          by rewrite ?next_description_unlock.
      + rewrite Hos.
        destruct (active_locks (process_of s p) !! n);
          by auto using tidy_unlock.
      + intros name fd'. rewrite Hactive, lookup_insert.
        case_decide; [intros [= <-]; lia|].
        intros Hfd'%Hlocks. lia.
    - destruct Hpath as (_ & Hos & Hactive).
      destruct Hflock as (i & h & _ & _ & _ & Hsame & _).
      rewrite Hos, Hsame. split_and!; [done | by split |].
      intros name fd'. rewrite Hactive. intros Hfd'%Hlocks. lia. }
  split; [done|]. intros q name fd' Hfd'. rewrite Hnext'.
  destruct (decide (p = q)) as [<-|Hne]; [by eapply Hlocks'|].
  rewrite Hother in Hfd' by done. apply Hlocks in Hfd'. lia.
Qed.

(** The two ways a call that runs straight through can end. *)
Lemma with_job_lock_outcome p n s :
  tidy s →
  let r := with_job_lock lock_timeout p n s in
  (r.1 = true ↔ free n s)
  ∧ (r.1 = true → ∃ fd, holds p n fd r.2)
  ∧ (r.1 = false → untouched p s r.2)
  ∧ (∀ q, p ≠ q → process_of r.2 q = process_of s q).
Proof.
  intros [Htidy Hlocks] r.
  destruct (with_job_lock_path p n s) as [Hother Hpath].
  pose proof (flock_after_open n (os s) Htidy) as Hflock.
  cbv zeta in Hflock, Hpath.
  destruct (open_w_spec n (os s))
    as (Hd & Hnext & Hname & Hholder & _ & _).
  fold r in Hother, Hpath.
  set (fd := (open_w n (os s)).1) in *.
  set (k1 := (open_w n (os s)).2) in *.
  split_and!; [| | |done].
  - destruct (flock_ex_nb fd k1) as [k2|].
    + destruct Hpath as (-> & _). by destruct Hflock as [Hfree _].
    + destruct Hpath as (-> & _).
      destruct Hflock as (i & h & Hi & Hh & _).
      split; [done|]. intros Hfree. specialize (Hfree i Hi). congruence.
  - intros Hgot. destruct (flock_ex_nb fd k1) as [k2|];
      [|destruct Hpath; congruence].
    destruct Hpath as (_ & Hos & Hactive).
    destruct Hflock as (_ & Hdir2 & Hholder2 & _).
    exists fd. unfold holds. rewrite Hactive, lookup_insert_eq, Hos.
    split; [done|].
    destruct (active_locks (process_of s p) !! n) as [old|] eqn:Hold.
    + rewrite directory_unlock. simpl. rewrite Hdir2. split; [done|].
      apply holder_unlock_other.
      * simpl. by rewrite Hholder2, lookup_insert_eq.
      * apply Hlocks in Hold. lia.
    + simpl. rewrite Hdir2, Hholder2. by rewrite lookup_insert_eq.
  - intros Hrefused. destruct (flock_ex_nb fd k1) as [k2|];
      [destruct Hpath; congruence|].
    destruct Hpath as (_ & Hos & Hactive).
    destruct Hflock as (i & h & _ & _ & _ & Hsame & Hdir1 & Hholder1).
    unfold untouched. rewrite Hos, Hsame. by split_and!.
Qed.

(** X20. A call of [with_job_lock] that runs straight through gets the
    lock exactly when no open file holds a lock on the lock file of the
    job, so also a second call of the holder itself is refused. The
    call that gets it holds it: its file object is entered under the
    name of the job, the lock file names its inode and the lock on
    that inode is its own. A call that is refused leaves the locks,
    the lock files and its own entries as they were. Either way the
    other processes are as before. *)
Theorem with_job_lock_when_free p n s :
  tidy s →
  let r := with_job_lock lock_timeout p n s in
  (r.1 = true ↔ free n s)
  ∧ (r.1 = true → ∃ fd, holds p n fd r.2)
  ∧ (r.1 = false → untouched p s r.2)
  ∧ (∀ q, p ≠ q → process_of r.2 q = process_of s q).
Proof. apply with_job_lock_outcome. Qed.

(** X21. The locks of the other jobs stay where they are: while [q]
    holds the lock of one job, a call for the lock of another job,
    by a process that has no entry for it, leaves [q] holding its
    lock, whether the call gets its own lock or not. *)
Theorem locks_of_other_jobs_stay p q n m fd s :
  tidy s → n ≠ m → active_locks (process_of s p) !! m = None →
  holds q n fd s →
  holds q n fd (with_job_lock lock_timeout p m s).2.
Proof.
  intros [Htidy Hlocks] Hne Hnew (Hentry & Hfile & Hheld).
  destruct (with_job_lock_path p m s) as [Hother Hpath].
  pose proof (flock_after_open m (os s) Htidy) as Hflock.
  cbv zeta in Hflock, Hpath.
  set (r := with_job_lock lock_timeout p m s) in *.
  set (fd' := (open_w m (os s)).1) in *.
  set (k1 := (open_w m (os s)).2) in *. clearbody r.
  assert (directory k1 !! n = Some (inode fd)) as Hfile1.
  { unfold k1, open_w. destruct (directory (os s) !! m); simpl; [done|].
    by rewrite lookup_insert_ne. }
  rewrite Hnew in Hpath.
  destruct (flock_ex_nb fd' k1) as [k2|].
  - destruct Hpath as (_ & Hos & Hactive).
    destruct Hflock as (Hfree & Hdir2 & Hholder2 & _).
    unfold holds. rewrite Hos. simpl. rewrite Hdir2, Hholder2. split_and!.
    + destruct (decide (p = q)) as [<-|Hpq].
      * rewrite Hactive. by rewrite lookup_insert_ne.
      * by rewrite Hother.
    + done.
    + rewrite lookup_insert_ne; [done|]. intros Hsame.
      destruct (open_w_spec m (os s)) as (_ & _ & _ & _ & Hsome & Hnone).
      fold fd' in Hsome, Hnone.
      destruct (directory (os s) !! m) as [i|] eqn:Hm.
      * rewrite (Hsome i eq_refl) in Hsame. subst i.
        rewrite (Hfree _ eq_refl) in Hheld. done.
      * rewrite (Hnone eq_refl) in Hsame. rewrite <- Hsame in Hheld.
        by rewrite (tidy_next_inode_free _ Htidy) in Hheld.
  - destruct Hpath as (_ & Hos & Hactive).
    destruct Hflock as (i & h & _ & _ & _ & Hsame & Hdir1 & Hholder1).
    unfold holds. rewrite Hos, Hsame, Hholder1. split_and!; [|done..].
    destruct (decide (p = q)) as [<-|Hpq]; [by rewrite Hactive|].
    by rewrite Hother.
Qed.

(** What [release_job_lock] changes. *)
Lemma release_job_lock_spec p n s :
  let s' := release_job_lock p n s in
  let locks := active_locks (process_of s p) in
  directory (os s') = delete n (directory (os s))
  ∧ active_locks (process_of s' p) = delete n locks
  ∧ (∀ q, p ≠ q → process_of s' q = process_of s q)
  ∧ (∀ i h, holder (os s') !! i = Some h → holder (os s) !! i = Some h)
  ∧ (∀ i h, holder (os s) !! i = Some h →
            (∀ fd, locks !! n = Some fd → h ≠ description fd) →
            holder (os s') !! i = Some h)
  ∧ (∀ fd, locks !! n = Some fd →
           holder (os s') !! inode fd ≠ Some (description fd)).
Proof.
  intros s' locks. unfold s', release_job_lock. fold locks.
  destruct (locks !! n) as [fd|] eqn:Hn; simpl;
    rewrite process_of_set_eq; simpl.
  - rewrite directory_unlock. split_and!; try done.
    + intros q Hne. by apply process_of_set_ne.
    + intros i h. apply holder_unlock_sub.
    + intros i h Hi Hown. apply holder_unlock_other; [done|]. by apply Hown.
    + intros ? [= <-]. apply holder_unlock_own.
  - split_and!; try done.
    + by rewrite delete_id.
    + intros q Hne. by apply process_of_set_ne.
Qed.

End lock_use.
Section jobs_under_lock.
Import run watchlist_scheduler lock_facts job_facts scheduler.
Variable lock_timeout : Z.

(** The frame the two jobs share. *)
Lemma frame_gives_lock_back (job : nat → host → bool * host) job_name
    (body : M unit) :
  (∀ p h,
     job p h
     = let '(acquired, s) :=
         with_job_lock lock_timeout p job_name (machine h) in
       if negb acquired
       then (false, {| machine := s; outside := outside h |})
       else
         let '(result, w) := body (outside h) in
         (match result with Some _ => true | None => false end,
          {| machine := release_job_lock p job_name s; outside := w |})) →
  gives_lock_back lock_timeout job job_name body.
Proof.
  intros Hjob p h Htidy r. unfold r. rewrite Hjob. clear r Hjob.
  destruct (with_job_lock_outcome lock_timeout p job_name (machine h) Htidy)
    as (_ & _ & Hrefused & _).
  pose proof (tidy_with_job_lock lock_timeout p job_name (machine h) Htidy)
    as [Htidy' _].
  destruct (with_job_lock lock_timeout p job_name (machine h))
    as [[|] s1]; cbn [fst snd negb] in *.
  - destruct (release_job_lock_spec p job_name s1) as (Hdir & Hactive & _).
    destruct (body (outside h)) as [[[]|] w]; cbn [fst snd machine outside].
    + rewrite Hdir, Hactive, !lookup_delete_eq. split_and!; try done.
      intros q. by apply call_after_release.
    + rewrite Hdir, Hactive, !lookup_delete_eq. split_and!; try done.
      intros q. by apply call_after_release.
  - split_and!; try done. by apply Hrefused.
Qed.

(** X22. The two jobs of the scheduler keep to their lock. A job whose
    call for the lock is refused returns [False] without running its
    body, and leaves the kernel's locks, the names in the lock
    directory and its own entries as they were (its call has opened
    the lock file for writing all the same). A job that gets the lock
    runs its body once and gives the lock back whether the body raised
    or not: its lock file is removed, the process keeps no entry for
    it, and the next call for the lock succeeds. *)
Theorem jobs_give_lock_back cfg e dry_run :
  gives_lock_back lock_timeout
    (λ p, scheduler.job_watchlist lock_timeout cfg e p dry_run)
    "watchlist_sync" (main.process_watchlist cfg e dry_run)
  ∧ gives_lock_back lock_timeout
      (λ p, scheduler.job_upgrade lock_timeout cfg e p dry_run)
      "upgrade_job" (scheduled_upgrader.job_upgrade cfg e dry_run).
Proof. split; by apply frame_gives_lock_back. Qed.

(** *** Shutdown *)

Lemma release_all_locks_spec p keys :
  ∀ s,
    let s' := release_all_locks p keys s in
    let locks := active_locks (process_of s p) in
    (∀ n, active_locks (process_of s' p) !! n
          = if decide (n ∈ keys) then None else locks !! n)
    ∧ (∀ n, directory (os s') !! n
            = if decide (n ∈ keys) then None else directory (os s) !! n)
    ∧ (∀ q, p ≠ q → process_of s' q = process_of s q)
    ∧ (∀ i h, holder (os s') !! i = Some h → holder (os s) !! i = Some h)
    ∧ (∀ i h, holder (os s) !! i = Some h →
              (∀ n fd, locks !! n = Some fd → h ≠ description fd) →
              holder (os s') !! i = Some h)
    ∧ (∀ n fd, n ∈ keys → locks !! n = Some fd →
               holder (os s') !! inode fd ≠ Some (description fd)).
Proof.
  induction keys as [|k keys IH]; intros s; cbn zeta.
  - unfold release_all_locks. simpl. split_and!; try done.
    intros n fd Hn. by apply elem_of_nil in Hn.
  - unfold release_all_locks. cbn [foldl].
    fold (release_all_locks p keys (release_job_lock p k s)).
    destruct (release_job_lock_spec p k s)
      as (Hdir & Hactive & Hother & Hsub & Hstay & Hown).
    destruct (IH (release_job_lock p k s))
      as (IHactive & IHdir & IHother & IHsub & IHstay & IHown).
    set (s1 := release_job_lock p k s) in *. clearbody s1.
    set (s' := release_all_locks p keys s1) in *. clearbody s'.
    split_and!.
    + intros n. rewrite IHactive, Hactive.
      destruct (decide (n = k)) as [->|Hne].
      * rewrite lookup_delete_eq, (decide_True (P := k ∈ k :: keys))
          by apply list_elem_of_here.
        by case_decide.
      * rewrite lookup_delete_ne by done.
        destruct (decide (n ∈ keys)) as [Hin|Hout].
        -- by rewrite decide_True by by apply list_elem_of_further.
        -- rewrite decide_False; [done|].
           intros [?|?]%elem_of_cons; done.
    + intros n. rewrite IHdir, Hdir.
      destruct (decide (n = k)) as [->|Hne].
      * rewrite lookup_delete_eq, (decide_True (P := k ∈ k :: keys))
          by apply list_elem_of_here.
        by case_decide.
      * rewrite lookup_delete_ne by done.
        destruct (decide (n ∈ keys)) as [Hin|Hout].
        -- by rewrite decide_True by by apply list_elem_of_further.
        -- rewrite decide_False; [done|].
           intros [?|?]%elem_of_cons; done.
    + intros q Hne. by rewrite IHother, Hother.
    + intros i h Hi. by apply Hsub, IHsub.
    + intros i h Hi Hmine. apply IHstay.
      * apply Hstay; [done|]. intros fd. apply Hmine.
      * intros n fd. rewrite Hactive.
        intros [_ Hn]%lookup_delete_Some. by eapply Hmine.
    + intros n fd Hn Hfd.
      destruct (decide (n = k)) as [->|Hne].
      * intros Hheld%IHsub. by apply (Hown fd).
      * apply (IHown n); [|by rewrite Hactive, lookup_delete_ne].
        apply elem_of_cons in Hn as [?|?]; done.
Qed.

(** X23. At shutdown [release_all_locks] gives up every lock of the
    process, in whatever order the names come: no entry is left, the
    lock files of the names are removed, none of its file objects
    holds a lock any more, and the locks the others hold, their lock
    files and the other processes stay as they are. *)
Theorem release_all_locks_gives_all_back p keys s :
  (∀ n, n ∈ keys ↔ is_Some (active_locks (process_of s p) !! n)) →
  let s' := release_all_locks p keys s in
  let locks := active_locks (process_of s p) in
  active_locks (process_of s' p) = ∅
  ∧ (∀ n, n ∈ keys → directory (os s') !! n = None)
  ∧ (∀ n fd, locks !! n = Some fd →
             holder (os s') !! inode fd ≠ Some (description fd))
  ∧ (∀ n, n ∉ keys → directory (os s') !! n = directory (os s) !! n)
  ∧ (∀ i h, holder (os s) !! i = Some h →
            (∀ n fd, locks !! n = Some fd → h ≠ description fd) →
            holder (os s') !! i = Some h)
  ∧ (∀ q, p ≠ q → process_of s' q = process_of s q).
Proof.
  intros Hkeys s' locks.
  destruct (release_all_locks_spec p keys s)
    as (Hactive & Hdir & Hother & _ & Hstay & Hown).
  fold s' in Hactive, Hdir, Hother, Hstay, Hown.
  fold locks in Hactive, Hstay, Hown. split_and!.
  - apply map_empty. intros n. rewrite Hactive.
    case_decide as Hn; [done|].
    rewrite Hkeys in Hn. by apply eq_None_not_Some.
  - intros n Hn. rewrite Hdir. by rewrite decide_True.
  - intros n fd Hfd. apply (Hown n); [|done]. apply Hkeys. by eexists.
  - intros n Hn. rewrite Hdir. by rewrite decide_False.
  - done.
  - done.
Qed.

End jobs_under_lock.
(** A worked instance of X20: on a machine just started process 1
    gets the lock of the upgrade job; process 2, asking next, is
    refused and changes nothing. *)
Lemma with_job_lock_when_free_witness :
  let name := "upgrade_job"%string in
  let first := watchlist_scheduler.with_job_lock 7200 1%nat name
                 lock_facts.boot in
  let second := watchlist_scheduler.with_job_lock 7200 2%nat name first.2 in
  (first.1 = true ∧ ∃ fd, job_facts.holds 1%nat name fd first.2)
  ∧ (second.1 = false ∧ job_facts.untouched 2%nat first.2 second.2).
Proof.
  intros name first second.
  destruct (with_job_lock_when_free 7200 1%nat name lock_facts.boot tidy_boot)
    as (Hfree & Hgot & _).
  assert (first.1 = true) as Hfirst by apply Hfree, free_boot.
  destruct (Hgot Hfirst) as (fd & Hentry & Hfile & Hheld).
  split; [split; [done | by exists fd]|].
  destruct (with_job_lock_when_free 7200 2%nat name first.2)
    as (Hfree2 & _ & Hrefused & _).
  { by apply tidy_with_job_lock, tidy_boot. }
  assert (second.1 = false) as Hsecond.
  { destruct second.1 eqn:Hresult; [|done].
    apply Hfree2 in Hresult. specialize (Hresult _ Hfile).
    unfold first in Hresult. congruence. }
  split; [done | by apply Hrefused].
Defined.

(** A worked instance of X21: process 1 holds the lock of the upgrade
    job and asks for that of the sync. *)
Lemma locks_of_other_jobs_stay_witness :
  let held := (watchlist_scheduler.with_job_lock 7200 1%nat "upgrade_job"
                 lock_facts.boot).2 in
  let fd := {| description := 0; inode := 0 |} in
  job_facts.holds 1%nat "upgrade_job" fd held
  ∧ job_facts.holds 1%nat "upgrade_job" fd
      (watchlist_scheduler.with_job_lock 7200 1%nat "watchlist_sync" held).2.
Proof.
  intros held fd.
  assert (job_facts.holds 1%nat "upgrade_job" fd held) as Hheld.
  { repeat split; vm_compute; reflexivity. }
  split; [done|].
  apply locks_of_other_jobs_stay.
  - by apply tidy_with_job_lock, tidy_boot.
  - done.
  - vm_compute. reflexivity.
  - done.
Defined.

(** A worked instance of X22: the upgrade job, run in earnest by
    process 1 on a machine just started, a library of one reconciled
    movie outside. *)
Lemma jobs_give_lock_back_witness :
  let e := sample_world.env_of [sample_runs.reconciled] [] [] [] in
  let h := {| scheduler.machine := lock_facts.boot;
              scheduler.outside :=
                sample_world.world_at sample_runs.in_2026 [] |} in
  let r := scheduler.job_upgrade 7200 sample_world.cfg e 1%nat false h in
  directory (os (scheduler.machine r.2)) !! "upgrade_job" = None
  ∧ ∀ q, (watchlist_scheduler.with_job_lock 7200 q "upgrade_job"
            (scheduler.machine r.2)).1 = true.
Proof.
  intros e h r.
  destruct (jobs_give_lock_back 7200 sample_world.cfg e false) as [_ Hjob].
  specialize (Hjob 1%nat h tidy_boot).
  assert ((watchlist_scheduler.with_job_lock 7200 1%nat "upgrade_job"
             (scheduler.machine h)).1 = true) as Hgot.
  { vm_compute. reflexivity. }
  cbv zeta in Hjob. rewrite Hgot in Hjob.
  destruct Hjob as (_ & _ & Hfile & _ & Hnext). by split.
Defined.

(** A worked instance of X23: process 1 holds the locks of both jobs
    when it is shut down. *)
Lemma release_all_locks_gives_all_back_witness :
  let s := (watchlist_scheduler.with_job_lock 7200 1%nat "watchlist_sync"
              (watchlist_scheduler.with_job_lock 7200 1%nat "upgrade_job"
                 lock_facts.boot).2).2 in
  let s' := scheduler.release_all_locks 1%nat
              ["upgrade_job"; "watchlist_sync"]%string s in
  active_locks (process_of s 1%nat) !! "upgrade_job"
  = Some {| description := 0; inode := 0 |}
  ∧ active_locks (process_of s' 1%nat) = ∅
  ∧ directory (os s') !! "upgrade_job" = None
  ∧ directory (os s') !! "watchlist_sync" = None.
Proof.
  intros s s'.
  destruct (release_all_locks_gives_all_back 1%nat
              ["upgrade_job"; "watchlist_sync"]%string s)
    as (Hnone & Hfiles & _).
  { assert (active_locks (process_of s 1%nat)
            = <["watchlist_sync"%string := {| description := 1; inode := 1 |}]>
                {["upgrade_job"%string := {| description := 0; inode := 0 |}]})
      as -> by (vm_compute; reflexivity).
    intros n. rewrite lookup_insert_is_Some, !elem_of_cons, elem_of_nil.
    unfold is_Some. setoid_rewrite lookup_singleton_Some. naive_solver. }
  split_and!.
  - vm_compute. reflexivity.
  - exact Hnone.
  - apply Hfiles. apply list_elem_of_here.
  - apply Hfiles. apply list_elem_of_further, list_elem_of_here.
Defined.
Section release_and_acquire.
Import watchlist_scheduler lock_facts job_facts.
Variable lock_timeout : Z.

(** [release_job_lock] keeps the machine tidy. *)
Lemma tidy_release_job_lock p n s : tidy s → tidy (release_job_lock p n s).
Proof.
  intros [Htidy Hlocks].
  destruct (release_job_lock_spec p n s) as (_ & Hactive & Hother & _).
  assert (tidy_kernel (os (release_job_lock p n s))
          ∧ next_description (os (release_job_lock p n s))
            = next_description (os s)) as [Htidy' Hnext].
  { unfold release_job_lock.
    destruct (active_locks (process_of s p) !! n); simpl.
    - split; [by apply tidy_remove, tidy_unlock|].
      apply next_description_unlock.
    - split; [by apply tidy_remove | done]. }
  split; [done|]. intros q name fd. rewrite Hnext.
  destruct (decide (p = q)) as [<-|Hne].
  - rewrite Hactive. intros [_ Hfd]%lookup_delete_Some. by eapply Hlocks.
  - rewrite Hother by done. apply Hlocks.
Qed.

(** X27. After [release_job_lock] the next call of [with_job_lock] for
    the same job name succeeds, whoever released and whoever calls
    (also when the one that released did not hold the lock: the lock
    file is removed either way), and the caller then holds the lock. *)
Theorem acquire_after_release p q n s :
  tidy s →
  let r := with_job_lock lock_timeout q n (release_job_lock p n s) in
  directory (os (release_job_lock p n s)) !! n = None
  ∧ r.1 = true
  ∧ ∃ fd, holds q n fd r.2.
Proof.
  intros Htidy r.
  destruct (release_job_lock_spec p n s) as (Hdir & _).
  assert (directory (os (release_job_lock p n s)) !! n = None) as Hgone
    by (by rewrite Hdir, lookup_delete_eq).
  destruct (with_job_lock_outcome lock_timeout q n (release_job_lock p n s))
    as (Hfree & Hgot & _); [by apply tidy_release_job_lock|].
  fold r in Hfree, Hgot.
  assert (r.1 = true) as Hdone.
  { apply Hfree. intros i Hi. congruence. }
  split_and!; [done | done | by apply Hgot].
Qed.

End release_and_acquire.

(** A worked instance of X27: process 1 takes the lock and releases
    it; process 2 asks next. *)
Lemma acquire_after_release_witness :
  let name := "upgrade_job"%string in
  let held := (watchlist_scheduler.with_job_lock 7200 1%nat name
                 lock_facts.boot).2 in
  let r := watchlist_scheduler.with_job_lock 7200 2%nat name
             (release_job_lock 1%nat name held) in
  r.1 = true ∧ ∃ fd, job_facts.holds 2%nat name fd r.2.
Proof.
  intros name held r.
  destruct (acquire_after_release 7200 1%nat 2%nat name held)
    as (_ & Hdone & Hholds).
  - by apply tidy_with_job_lock, tidy_boot.
  - split; [exact Hdone | exact Hholds].
Defined.

(** ** The order of the merged list *)

Section merge_order.
Import plex_api.

Lemma dict_set_absent {V} k (v : V) d :
  dict_get k d = None → dict_set k v d = d ++ [(k, v)].
Proof.
  induction d as [|[k' v'] d IH]; simpl; [done|].
  case_decide; [done|]. intros Hd. by rewrite IH.
Qed.

Lemma dict_get_snoc_ne {V} k k' (v : V) d :
  k' ≠ k → dict_get k d = None → dict_get k (d ++ [(k', v)]) = None.
Proof.
  intros Hne. induction d as [|[k0 v0] d IH]; simpl.
  - by rewrite decide_False.
  - by case_decide.
Qed.

(** The second loop only appends: what it adds are friends' items in
    the order they come, the first of each IMDb id. *)
Lemma merge_friend_appends friends :
  ∀ d, ∃ new,
    foldl merge_friend d friends = d ++ new
    ∧ sublist new.*2 friends
    ∧ ∀ l1 f l2,
        friends = l1 ++ f :: l2 →
        normalized_imdb f ≠ "" →
        dict_get (normalized_imdb f) d = None →
        (∀ x, x ∈ l1 → normalized_imdb x ≠ normalized_imdb f) →
        (normalized_imdb f, f) ∈ new.
Proof.
  induction friends as [|g friends IH]; intros d; simpl.
  - exists []. rewrite app_nil_r. split_and!; [done..|].
    intros [|??] ???; done.
  - unfold merge_friend at 2.
    destruct (nonempty (normalized_imdb g)
              && negb (dict_mem (normalized_imdb g) d)) eqn:Hadd.
    + apply andb_true_iff in Hadd as [Hg Hnew].
      apply negb_true_iff, dict_mem_false in Hnew.
      rewrite (dict_set_absent _ _ _ Hnew).
      destruct (IH (d ++ [(normalized_imdb g, g)])) as (new & -> & Hsub & Hfirst).
      exists ((normalized_imdb g, g) :: new). split_and!.
      * by rewrite <- app_assoc.
      * by apply sublist_skip.
      * intros [|x l1] f l2 Heq Hf Hd Hl1; simplify_eq/=.
        -- apply list_elem_of_here.
        -- apply list_elem_of_further, (Hfirst l1 f l2); try done.
           ++ apply dict_get_snoc_ne; [|done]. apply Hl1, list_elem_of_here.
           ++ intros y Hy. by apply Hl1, list_elem_of_further.
    + destruct (IH d) as (new & -> & Hsub & Hfirst).
      exists new. split_and!; [done | by apply sublist_cons |].
      intros [|x l1] f l2 Heq Hf Hd Hl1; simplify_eq/=.
      * apply andb_false_iff in Hadd as [Hadd|Hadd].
        -- by apply nonempty_false in Hadd.
        -- apply negb_false_iff, dict_mem_true in Hadd.
           rewrite Hd in Hadd. by destruct Hadd.
      * apply (Hfirst l1 f l2); try done.
        intros y Hy. by apply Hl1, list_elem_of_further.
Qed.

(** X24. The merged list is the personal part, as the personal list
    alone gives it, followed by items of the friends' list in the order
    they come there. Of the friends' items that share an IMDb id the
    first is the one kept, when no personal item has that key. *)
Theorem merge_watchlists_order personal friends :
  ∃ added,
    merge_watchlists personal friends = merge_watchlists personal [] ++ added
    ∧ sublist added friends
    ∧ ∀ l1 f l2,
        friends = l1 ++ f :: l2 →
        normalized_imdb f ≠ "" →
        (∀ p, p ∈ personal → as_specified.key p ≠ normalized_imdb f) →
        (∀ x, x ∈ l1 → normalized_imdb x ≠ normalized_imdb f) →
        f ∈ added.
Proof.
  unfold merge_watchlists, merged_dict. cbn [foldl].
  destruct (merge_friend_appends friends (foldl merge_personal [] personal))
    as (new & -> & Hsub & Hfirst).
  exists new.*2. unfold dict_values. rewrite fmap_app.
  split_and!; [done..|].
  intros l1 f l2 Heq Hf Hpersonal Hl1.
  apply (list_elem_of_fmap_2 snd _ (normalized_imdb f, f)).
  apply (Hfirst l1 f l2); try done.
  pose proof (primary_inv_foldl personal) as [_ Hsound _].
  destruct (dict_get _ _) as [p|] eqn:Hget; [|done].
  apply Hsound in Hget as (_ & Hp & Hkey). by destruct (Hpersonal p Hp).
Qed.

End merge_order.

(** ** What the sync may send *)

Section requests_in_order.
Import run footprint sync_facts.
Variable allowed : list exchange → exchange → Prop.

Lemma sending_after_refl w : sending_after allowed w w.
Proof. exists []. split; [by rewrite app_nil_r | done]. Qed.

Lemma sending_after_trans w1 w2 w3 :
  sending_after allowed w1 w2 → sending_after allowed w2 w3 →
  sending_after allowed w1 w3.
Proof.
  intros (n1 & H1 & Hn1) (n2 & H2 & Hn2). exists (n1 ++ n2).
  split; [by rewrite H2, H1, app_assoc|].
  intros i x [Hx|[Hi Hx]]%lookup_app_Some.
  - rewrite take_app_le by (apply lookup_lt_Some in Hx; lia). by apply Hn1.
  - rewrite take_app_ge, app_assoc, <- H1 by done. by apply Hn2.
Qed.

(** Steps that send nothing. *)
Lemma sending_after_silent w w' :
  trace w' = trace w → sending_after allowed w w'.
Proof. intros H. exists []. split; [by rewrite app_nil_r | done]. Qed.

(** One exchange, allowed after the trace so far. *)
Lemma sending_after_one w w' x :
  trace w' = trace w ++ [x] → allowed (trace w) x →
  sending_after allowed w w'.
Proof.
  intros Htrace Hx. exists [x]. split; [done|].
  intros [|i] y Hy; simpl in Hy; [|done]. injection Hy as <-.
  by rewrite app_nil_r.
Qed.

Lemma sending_after_request {A} c (answer : list exchange → A) usable w :
  (∀ b, allowed (trace w) (c, b)) →
  sending_after allowed w (request c answer usable w).2.
Proof. intros Hc. by eapply sending_after_one. Qed.

(** A loop whose body keeps within [R] on the items of its list. *)
Lemma within_for_each_elem R {X S} (body : X → S → M S) l :
  (∀ w, R w w) → (∀ w1 w2 w3, R w1 w2 → R w2 w3 → R w1 w3) →
  (∀ x s, x ∈ l → within R (body x s)) → ∀ s, within R (for_each body l s).
Proof.
  intros Hrefl Htrans. induction l as [|x l IH]; intros Hbody s; simpl.
  - by apply within_ret.
  - apply within_bind; [done | apply Hbody, list_elem_of_here |].
    intros s'. apply IH. intros y t Hy. by apply Hbody, list_elem_of_further.
Qed.

(** [item] hands on what it found. *)
Lemma within_item_bind R {A B} (o : option A) (k : A → M B) :
  (∀ w, R w w) → (∀ a, o = Some a → within R (k a)) →
  within R (bind (item o) k).
Proof.
  intros Hrefl Hk w. unfold bind, item. destruct o as [a|]; simpl.
  - by apply Hk.
  - apply Hrefl.
Qed.

End requests_in_order.

Ltac after_leaf :=
  first [by apply sending_after_silent
        | apply sending_after_request; intros ?].

Ltac after_step :=
  within_step sending_after_refl sending_after_trans after_leaf.

Section sync_requests.
Import run footprint sync_facts.
Variables (cfg : config) (e : env).
Variables (index : list (string * movie)) (items : list movie).

Local Abbreviation permitted := (sync_request cfg e index items).
Local Abbreviation orderly := (within (sending_after permitted)).

Lemma permitted_friend_tag m : orderly (main.friend_tag cfg e m).
Proof.
  unfold main.friend_tag, radarr_api.get_or_create_tag,
    radarr_api.get_all_tags, radarr_api.create_tag.
  repeat after_step; done.
Qed.

Lemma permitted_mark_movie_as_processed m :
  orderly (effects.mark_movie_as_processed e m).
Proof. unfold effects.mark_movie_as_processed. repeat after_step. Qed.

(** A search, from a world after whose exchanges it is permitted. *)
Lemma permitted_search_and_record marked movie_id c w :
  (∀ b, permitted (trace w) (TriggerSearch movie_id, b)) →
  sending_after permitted w
    (main.search_and_record e marked movie_id c w).2.
Proof.
  intros Hok.
  destruct (search_and_record_counts e marked movie_id c w)
    as (taken & w' & -> & Htr & _).
  by eapply sending_after_one.
Qed.

(** What follows an addition that Radarr took. *)
Lemma permitted_after_addition before payload added c w1 :
  trace w1 = before ++ [(AddMovie payload, true)] →
  added_movie e before payload = Some added →
  sending_after permitted w1
    ((effects.mark_movie_as_processed e added ;;
      if main.limit_reached cfg c then ret c
      else let* added_id := item (id added) in
           main.search_and_record e added added_id c) w1).2.
Proof.
  intros Htrace Hadded. unfold bind at 1.
  destruct (mark_movie_as_processed_trace e added w1) as (w2 & -> & Htr2).
  apply (sending_after_trans _ w1 w2); [by apply sending_after_silent|].
  destruct (main.limit_reached cfg c); [apply sending_after_refl|].
  unfold bind, item. destruct (id added) as [added_id|] eqn:Hid;
    [|apply sending_after_refl].
  apply permitted_search_and_record. intros b. right.
  exists before, payload, added. by rewrite Htr2.
Qed.

Lemma permitted_handle_new dry_run m friend_tag_id c :
  m ∈ items → main.resolve index m = None →
  orderly (main.handle_new cfg e dry_run m friend_tag_id c).
Proof.
  intros Hin Hnew. unfold main.handle_new.
  destruct (negb (nonempty (main.tmdb_of m))); [after_step|].
  destruct (int (main.tmdb_of m)) as [tmdb_id_int|] eqn:Hint; [|after_step].
  destruct dry_run; [after_step|].
  intros w. unfold bind at 1, radarr_api.add_movie, request. cbn [fst snd].
  set (payload := main.add_payload cfg m tmdb_id_int friend_tag_id).
  destruct (added_movie e (trace w) payload) as [added|] eqn:Hadded.
  - lazymatch goal with
    | |- sending_after _ w (?k ?w1).2 =>
        apply (sending_after_trans _ w w1)
    end.
    + eapply sending_after_one; [reflexivity|].
      exists m, tmdb_id_int, friend_tag_id. by split_and!.
    + by apply (permitted_after_addition (trace w) payload).
  - eapply sending_after_one; [reflexivity|].
    exists m, tmdb_id_int, friend_tag_id. by split_and!.
Qed.

Lemma permitted_update_existing dry_run m radarr_movie movie_id movie_title
    friend_tag_id payload :
  m ∈ items → main.resolve index m = Some radarr_movie →
  watchlist_tag_id cfg ∉ default [] (tags radarr_movie) →
  id radarr_movie = Some movie_id →
  title radarr_movie = Some movie_title →
  main.fix_paths_for_radarr cfg
    (main.update_payload cfg m radarr_movie movie_id movie_title
       friend_tag_id) = Some payload →
  orderly (main.update_existing e dry_run radarr_movie movie_id payload).
Proof.
  intros Hin Hfound Huntagged Hid Htitle Hpayload.
  unfold main.update_existing.
  destruct (negb dry_run && differ.needs_update radarr_movie payload)
    eqn:Hgo; [|after_step].
  apply andb_true_iff in Hgo as [_ Hdiffers].
  apply within_bind;
    [apply sending_after_trans| |intros [|]; [|after_step]].
  - intros w. apply sending_after_request. intros b.
    exists m, radarr_movie, movie_title, friend_tag_id. by split_and!.
  - apply permitted_mark_movie_as_processed.
Qed.

Lemma permitted_search_existing dry_run m radarr_movie movie_id c :
  m ∈ items → main.resolve index m = Some radarr_movie →
  watchlist_tag_id cfg ∉ default [] (tags radarr_movie) →
  id radarr_movie = Some movie_id →
  orderly (main.search_existing cfg e dry_run
             (main.eligible_for_upgrade cfg radarr_movie) m movie_id c).
Proof.
  intros Hin Hfound Huntagged Hid. unfold main.search_existing.
  destruct (negb dry_run && main.eligible_for_upgrade cfg radarr_movie)
    eqn:Hgo; [|after_step].
  apply andb_true_iff in Hgo as [_ Heligible].
  apply within_bind; [apply sending_after_trans|after_step|intros [|]];
    [after_step|].
  destruct (main.limit_reached cfg c); [after_step|].
  intros w. apply permitted_search_and_record. intros b. left.
  exists m, radarr_movie. by split_and!.
Qed.

Lemma permitted_handle_existing dry_run m radarr_movie friend_tag_id c :
  m ∈ items → main.resolve index m = Some radarr_movie →
  watchlist_tag_id cfg ∉ default [] (tags radarr_movie) →
  orderly (main.handle_existing cfg e dry_run m radarr_movie
             friend_tag_id c).
Proof.
  intros Hin Hfound Huntagged. unfold main.handle_existing.
  apply within_item_bind; [apply sending_after_refl|].
  intros movie_title Htitle.
  apply within_item_bind; [apply sending_after_refl|]. intros movie_id Hid.
  apply within_item_bind; [apply sending_after_refl|].
  intros payload Hpayload.
  apply within_bind; [apply sending_after_trans| |intros _].
  - by apply (permitted_update_existing dry_run m radarr_movie movie_id
                movie_title friend_tag_id).
  - by apply permitted_search_existing.
Qed.

Lemma permitted_process_movie dry_run m c :
  m ∈ items → orderly (main.process_movie cfg e dry_run index m c).
Proof.
  intros Hin. unfold main.process_movie.
  apply within_bind;
    [apply sending_after_trans|after_step; after_leaf|intros _].
  apply within_bind;
    [apply sending_after_trans|apply permitted_friend_tag
    |intros friend_tag_id].
  destruct (main.resolve index m) as [radarr_movie|] eqn:Hfound.
  - case_bool_decide as Htagged; [repeat after_step|].
    by apply permitted_handle_existing.
  - by apply permitted_handle_new.
Qed.

End sync_requests.

Section sync_safety.
Import run footprint sync_facts.
Variables (cfg : config) (e : env).


End sync_safety.
